(** * Peg solitaire on the 7x7 English board: the search scripts and the
      interactive games, embedded and verified.

    The development follows the five Python scripts of the repository:
    - [soloT.py]   interactive game over a dictionary  hole id -> bool;
    - [soloT2.py]  interactive game over the 7x7 integer grid;
    - [bfs.py]     breadth-first search over plain boards;
    - [test.py]    breadth-first search carrying move sequences;
    - [HDFS.py]    depth-first search over parent-linked nodes with a
                   mobility heuristic.

    Conventions.  Python integers are [Z].  A Python list is a [list]; its
    subscript [l[i]] is [getitem], which raises [IndexError] out of range and
    wraps negative indices.  A raised exception is [None] in the [option]
    monad (the scripts never catch [IndexError] or [KeyError]).  A [dict] is
    an association list in insertion order, which is the order Python
    iterates it in. *)

From Stdlib Require Import ZArith String Ascii Floats Uint63.
From stdpp Require Import base option list gmap sets sorting pretty.

Open Scope Z_scope.
Set Warnings "-register-all".

(** ** Python containers *)

Module Py.

(** [l[i]]: negative indices count from the end; [None] is [IndexError]. *)
Definition getitem {A} (l : list A) (i : Z) : option A :=
  if 0 <=? i then l !! Z.to_nat i
  else if - Z.of_nat (length l) <=? i then l !! Z.to_nat (Z.of_nat (length l) + i)
  else None.

(** [l[i] = x]: the same index rule; [None] is [IndexError]. *)
Definition setitem {A} (l : list A) (i : Z) (x : A) : option (list A) :=
  if 0 <=? i then
    if i <? Z.of_nat (length l) then Some (<[Z.to_nat i := x]> l) else None
  else if - Z.of_nat (length l) <=? i then
    Some (<[Z.to_nat (Z.of_nat (length l) + i) := x]> l)
  else None.

(** [enumerate(l)]. *)
Fixpoint enumerate_from {A} (i : Z) (l : list A) : list (Z * A) :=
  match l with
  | [] => []
  | x :: l' => (i, x) :: enumerate_from (i + 1) l'
  end.
Definition enumerate {A} (l : list A) : list (Z * A) := enumerate_from 0 l.

(** [x in l] for a list: some element equals [x]. *)
Definition list_in `{EqDecision A} (x : A) (l : list A) : bool :=
  bool_decide (x ∈ l).

(** [l.pop()]: the last element and the list without it; [None] is the
    [IndexError] of an empty list. *)
Definition pop {A} (l : list A) : option (A * list A) :=
  match reverse l with
  | [] => None
  | x :: r => Some (x, reverse r)
  end.

(** [sorted(l, key=...)] over the keys computed beforehand, as Python
    computes them: ascending by [<] on the floating-point keys, and stable
    (elements with equal keys keep their order).  Any stable sort returns
    this list; it is written as the insertion sort. *)
Fixpoint insert_by_key {A} (k : float) (x : A) (l : list (float * A))
  : list (float * A) :=
  match l with
  | [] => [(k, x)]
  | (k', y) :: l' =>
      if PrimFloat.ltb k' k then (k', y) :: insert_by_key k x l'
      else (k, x) :: (k', y) :: l'
  end.
Definition sorted_by_key {A} (keyed : list (float * A)) : list A :=
  (foldr (λ kx acc, insert_by_key kx.1 kx.2 acc) [] keyed).*2.

(** [sorted(l)] on integers: ascending.  Python's sort is stable, and on
    integers every sort returns this list; it is written as stdpp's merge
    sort. *)
Definition sorted (l : list Z) : list Z := merge_sort Z.le l.

(** The line break, the separator of ["\n".join(lines)]. *)
Definition newline : string := String "010"%char EmptyString.

(** [f"{i:02d}"]: the decimal digits of [i], with a zero in front when that
    is a single character. *)
Definition format_02d (i : Z) : string :=
  let s := pretty i in
  if (String.length s <? 2)%nat then ("0" +:+ s)%string else s.

(** [a / b] on two integers (true division), for integers that are floats
    exactly: the quotient of the two floats, rounded once. *)
Definition truediv (a b : Z) : float :=
  PrimFloat.div (PrimFloat.of_uint63 (Uint63.of_Z a)) (PrimFloat.of_uint63 (Uint63.of_Z b)).

(** [for x in l: body]: the loop variables [s] go through the body once per
    element, in order; a body that raises ends the loop. *)
Fixpoint for_each {S A} (body : S → A → option S) (s : S) (l : list A) : option S :=
  match l with
  | [] => Some s
  | x :: l' => s' ← body s x; for_each body s' l'
  end.

Section dict.
Context {K V : Type} `{EqDecision K}.

(** [d[k]]; [None] is [KeyError]. *)
Fixpoint dict_get (d : list (K * V)) (k : K) : option V :=
  match d with
  | [] => None
  | (k', v) :: d' => if decide (k' = k) then Some v else dict_get d' k
  end.

(** [k in d]. *)
Definition dict_in (k : K) (d : list (K * V)) : bool :=
  match dict_get d k with Some _ => true | None => false end.

(** [d[k] = v]: an existing key keeps its place, a new one goes last. *)
Fixpoint dict_set (d : list (K * V)) (k : K) (v : V) : list (K * V) :=
  match d with
  | [] => [(k, v)]
  | (k', v') :: d' =>
      if decide (k' = k) then (k, v) :: d' else (k', v') :: dict_set d' k v
  end.
End dict.

End Py.
Import Py.

(** ** The hole topology, built from [TEMPLATE] as every script does *)

(** A board value: a list of rows of integers, [-1] invalid, [0] empty,
    [1] peg.  A move is the pair (from_idx, to_idx) of hole ids. *)
Abbreviation grid := (list (list Z)).
Abbreviation move := (Z * Z)%type.

Module Topology.

Definition TEMPLATE : list string :=
  ["  xxx"; "  xxx"; "xxxxxxx"; "xxxoxxx"; "xxxxxxx"; "  xxx"; "  xxx"]%string.

Definition ROWS : Z := 7.
Definition COLS : Z := 7.

(** The module-level state the building loop updates. *)
Record globals := Globals {
  g_board : grid;
  g_index_to_pos : list (Z * (Z * Z));
  g_pos_to_index : list ((Z * Z) * Z);
  g_idx : Z
}.

Definition globals0 : globals :=
  Globals (replicate (Z.to_nat ROWS) (replicate (Z.to_nat COLS) (-1))) [] [] 1.

(** The body of the inner loop, for the character [ch] at [(r, c)]. *)
Definition scan_cell (r c : Z) (ch : ascii) (g : globals) : option globals :=
  if bool_decide (ch = "x"%char) || bool_decide (ch = "o"%char) then
    let p2i := dict_set (g_pos_to_index g) (r, c) (g_idx g) in
    let i2p := dict_set (g_index_to_pos g) (g_idx g) (r, c) in
    row ← getitem (g_board g) r;
    row' ← setitem row c (if bool_decide (ch = "x"%char) then 1 else 0);
    b' ← setitem (g_board g) r row';
    Some (Globals b' i2p p2i (g_idx g + 1))
  else Some g.

Definition scan_row (r : Z) (row : string) (g : globals) : option globals :=
  foldl (λ acc '(c, ch), g ← acc; scan_cell r c ch g)
        (Some g) (enumerate (list_ascii_of_string row)).

Definition scan_template : option globals :=
  foldl (λ acc '(r, row), g ← acc; scan_row r row g)
        (Some globals0) (enumerate TEMPLATE).

Definition the_globals : globals :=
  Eval vm_compute in default globals0 scan_template.

(** The module-level [board] as the loop leaves it (the initial position),
    and the two dictionaries. *)
Definition board : grid := Eval vm_compute in g_board the_globals.
Definition index_to_pos : list (Z * (Z * Z)) := Eval vm_compute in g_index_to_pos the_globals.
Definition pos_to_index : list ((Z * Z) * Z) := Eval vm_compute in g_pos_to_index the_globals.
Definition NUM_HOLES : Z := Eval vm_compute in g_idx the_globals - 1.

(** Directions for orthogonal jumps: (dr, dc). *)
Definition DIRECTIONS : list (Z * Z) := [(-1, 0); (1, 0); (0, -1); (0, 1)].

End Topology.
Import Topology.

(** ** Functions over a board value

    [legal_moves], [peg_count] and [serialize] read the same in [bfs.py] and
    [HDFS.py]; [soloT2.py] has them over the module-level board, which is the
    argument here. *)

Module Grid.

(** [current_board[r][c]]. *)
Definition cell (current_board : grid) (r c : Z) : option Z :=
  row ← getitem current_board r; getitem row c.

(** [current_board[r][c] = v] on a board value: the row object is the
    board's own, so the board sees the write. *)
Definition set_cell (current_board : grid) (r c v : Z) : option grid :=
  row ← getitem current_board r;
  row' ← setitem row c v;
  setitem current_board r row'.

(** The body of the loop over [DIRECTIONS]: the moves it appends. *)
Definition try_direction (current_board : grid) (frm r c : Z) (d : Z * Z)
  : option (list move) :=
  let '(dr, dc) := d in
  let '(mid_r, mid_c) := (r + dr, c + dc) in
  let '(to_r, to_c) := (r + 2 * dr, c + 2 * dc) in
  if (0 <=? to_r) && (to_r <? ROWS) && (0 <=? to_c) && (to_c <? COLS) then
    m ← cell current_board mid_r mid_c;
    if m =? 1 then
      t ← cell current_board to_r to_c;
      if t =? 0 then
        to ← dict_get pos_to_index (to_r, to_c); Some [(frm, to)]
      else Some []
    else Some []
  else Some [].

(** The body of the loop over [index_to_pos.items()]. *)
Definition moves_from (current_board : grid) (item : Z * (Z * Z))
  : option (list move) :=
  let '(frm, (r, c)) := item in
  v ← cell current_board r c;
  if negb (v =? 1) then Some []
  else (λ ls, concat ls) <$> mapM (try_direction current_board frm r c) DIRECTIONS.

(** Return list of legal moves as (from_idx, to_idx). *)
Definition legal_moves (current_board : grid) : option (list move) :=
  (λ ls, concat ls) <$> mapM (moves_from current_board) index_to_pos.

(** [sum(cell == 1 for row in current_board for cell in row)]. *)
Definition peg_count (current_board : grid) : Z :=
  foldl Z.add 0 ((λ cell, if cell =? 1 then 1 else 0) <$> concat current_board).

(** The tuple of tuples [serialize] returns.  It has the cells of the board
    it was made from, and it is a value of another Python type than the
    board: a tuple never equals a list. *)
Inductive key := Key (rows : list (list Z)).
Definition key_rows (k : key) : list (list Z) := let 'Key rows := k in rows.

(** Convert a 7x7 board into a hashable tuple for visited-state checking. *)
Definition serialize (board_state : grid) : key :=
  Key ((λ row : list Z, (λ cell : Z, cell) <$> row) <$> board_state).

(** The three writes of a jump on the copy [new_board]:
    [new_board[r1][c1] = 0], [new_board[mid_r][mid_c] = 0],
    [new_board[r2][c2] = 1]. *)
Definition execute_move (new_board : grid) (r1 c1 mid_r mid_c r2 c2 : Z)
  : option grid :=
  b1 ← set_cell new_board r1 c1 0;
  b2 ← set_cell b1 mid_r mid_c 0;
  set_cell b2 r2 c2 1.

(** The body of the loop of [generate_child_boards] in [bfs.py] and
    [HDFS.py]: copy the board, find the two holes and the midpoint, jump. *)
Definition child_board (current_board : grid) (m : move) : option grid :=
  let '(from_idx, to_idx) := m in
  let new_board := current_board in
  '(r1, c1) ← dict_get index_to_pos from_idx;
  '(r2, c2) ← dict_get index_to_pos to_idx;
  let '(mid_r, mid_c) := ((r1 + r2) `div` 2, (c1 + c2) `div` 2) in
  execute_move new_board r1 c1 mid_r mid_c r2 c2.

(** [render(current_board)]: a multi-line string showing the board. *)
Definition render (current_board : grid) : option string :=
  lines ← mapM (λ r,
             out ← mapM (λ c, val ← cell current_board r c;
                              Some (if val =? -1 then "  "%string
                                    else if val =? 1 then "x "%string
                                    else "o "%string))
                        (seqZ 0 COLS);
             Some (String.concat "" out))
          (seqZ 0 ROWS);
  Some (String.concat newline lines).

(** [by_from.setdefault(f, []).append(t)]: a new key goes last, with the
    list [[t]]; the list of a key that is there gets [t] at its end. *)
Definition setdefault_append (by_from : list (Z * list Z)) (ft : move)
  : list (Z * list Z) :=
  let '(f, t) := ft in
  match dict_get by_from f with
  | Some tos => dict_set by_from f (tos ++ [t])
  | None => dict_set by_from f [t]
  end.

(** [list_moves(current_board)]: the lines it prints. *)
Definition list_moves (current_board : grid) : option (list string) :=
  lm ← legal_moves current_board;
  if bool_decide (lm = []) then Some ["No legal moves."%string]
  else
    let by_from := foldl setdefault_append [] lm in
    mapM (λ f, targets ← dict_get by_from f;
               let tos := String.concat ", " (pretty <$> sorted targets) in
               Some (pretty f +:+ " -> " +:+ tos))
         (sorted by_from.*1).

End Grid.

(** ** Python equality between the values the scripts compare

    [x in l] and [x not in l] compare [x] with the elements of [l] by [==].
    The scripts compare boards (lists of lists), serialized boards (tuples of
    tuples) and [treenodes] instances, also across these types. *)

Class PyEq (A B : Type) := py_eq : A → B → bool.

(** [x in l]. *)
Definition py_in {A B} `{PyEq A B} (x : A) (l : list B) : bool :=
  existsb (py_eq x) l.

#[global] Instance key_eq_dec : EqDecision Grid.key.
Proof. solve_decision. Defined.
#[global] Instance key_countable : Countable Grid.key :=
  inj_countable' Grid.key_rows Grid.Key (λ k, match k with Grid.Key _ => eq_refl end).

(** Two lists are equal when they have equal elements in the same order. *)
#[global] Instance grid_py_eq : PyEq grid grid := λ a b, bool_decide (a = b).
(** So are two tuples. *)
#[global] Instance key_py_eq : PyEq Grid.key Grid.key := λ a b, bool_decide (a = b).
(** A list and a tuple are never equal. *)
#[global] Instance grid_key_py_eq : PyEq grid Grid.key := λ _ _, false.
#[global] Instance key_grid_py_eq : PyEq Grid.key grid := λ _ _, false.

(** ** Boards as Python objects

    A board is a list object whose items are row list objects; a write
    [new_board[r][c] = v] changes a row object in place, and every board that
    holds that row sees it.  [Heap] has the objects and their addresses, with
    [copy.deepcopy] and the subscript assignment, and [generate_child_boards]
    and [generate_successor_states] over them.  The functions over board
    values above are what these compute as long as no row is shared. *)

Module Heap.

Inductive object :=
  | ORow (cells : list Z)
  | OBoard (rows : list positive).

Abbreviation heap := (gmap positive object).

(** A new object, at an address not in use. *)
Definition alloc (h : heap) (o : object) : positive * heap :=
  let l := fresh (dom h) in (l, <[l := o]> h).

Definition read_row (h : heap) (rl : positive) : option (list Z) :=
  match h !! rl with Some (ORow cells) => Some cells | _ => None end.

Definition read_rows (h : heap) (bl : positive) : option (list positive) :=
  match h !! bl with Some (OBoard rows) => Some rows | _ => None end.

(** The board value the object at [bl] holds. *)
Definition load (h : heap) (bl : positive) : option grid :=
  rows ← read_rows h bl; mapM (read_row h) rows.

(** [copy.deepcopy] on the items of a board: a row met before is copied
    once (the memo), the integers are shared. *)
Fixpoint deepcopy_rows (h : heap) (memo : list (positive * positive))
    (rows : list positive) : option (list positive * heap) :=
  match rows with
  | [] => Some ([], h)
  | rl :: rows =>
      match dict_get memo rl with
      | Some rl' =>
          '(out, h) ← deepcopy_rows h memo rows; Some (rl' :: out, h)
      | None =>
          cells ← read_row h rl;
          let '(rl', h) := alloc h (ORow cells) in
          '(out, h) ← deepcopy_rows h ((rl, rl') :: memo) rows;
          Some (rl' :: out, h)
      end
  end.

(** [copy.deepcopy(board)]: the new list is made first, then filled. *)
Definition deepcopy (h : heap) (bl : positive) : option (positive * heap) :=
  rows ← read_rows h bl;
  let '(y, h) := alloc h (OBoard []) in
  '(rows', h) ← deepcopy_rows h [] rows;
  Some (y, <[y := OBoard rows']> h).

(** [board[r][c] = v]. *)
Definition store (h : heap) (bl : positive) (r c v : Z) : option heap :=
  rows ← read_rows h bl;
  rl ← getitem rows r;
  cells ← read_row h rl;
  cells' ← setitem cells c v;
  Some (<[rl := ORow cells']> h).

(** The three writes of a jump on the object [new_board]. *)
Definition execute_move (h : heap) (new_board : positive)
    (r1 c1 mid_r mid_c r2 c2 : Z) : option heap :=
  h ← store h new_board r1 c1 0;
  h ← store h new_board mid_r mid_c 0;
  store h new_board r2 c2 1.

(** The body of the loop of [generate_child_boards]. *)
Definition child_board (h : heap) (current_board : positive) (m : move)
  : option (positive * heap) :=
  let '(from_idx, to_idx) := m in
  '(new_board, h) ← deepcopy h current_board;
  '(r1, c1) ← dict_get index_to_pos from_idx;
  '(r2, c2) ← dict_get index_to_pos to_idx;
  let '(mid_r, mid_c) := ((r1 + r2) `div` 2, (c1 + c2) `div` 2) in
  h ← execute_move h new_board r1 c1 mid_r mid_c r2 c2;
  Some (new_board, h).

(** One pass of that loop: the child of [m] is appended to [children]. *)
Definition add_child (current_board : positive)
    (acc : option (list (positive * move) * heap)) (m : move)
  : option (list (positive * move) * heap) :=
  '(children, h) ← acc;
  '(new_board, h) ← child_board h current_board m;
  Some (children ++ [(new_board, m)], h).

(** [generate_child_boards] of [bfs.py]: the children, as the addresses of
    their boards with the moves, and the heap it leaves. *)
Definition generate_child_boards (h : heap) (current_board : positive)
  : option (list (positive * move) * heap) :=
  b ← load h current_board;
  possible_moves ← Grid.legal_moves b;
  foldl (add_child current_board) (Some ([], h)) possible_moves.

(** [board[r][c]], read through the board object. *)
Definition read_cell (h : heap) (bl : positive) (r c : Z) : option Z :=
  rows ← read_rows h bl;
  rl ← getitem rows r;
  cells ← read_row h rl;
  getitem cells c.

(** The body of the loop over [DIRECTIONS] in [generate_successor_states] of
    [test.py], on the list [successor_states] and the heap. *)
Definition try_direction (current_board_state : positive)
    (from_hole_index from_row from_col : Z)
    (st : list (Z * Z * positive) * heap) (d : Z * Z)
  : option (list (Z * Z * positive) * heap) :=
  let '(successor_states, h) := st in
  let '(row_step, col_step) := d in
  let jumped_row := from_row + row_step in
  let jumped_col := from_col + col_step in
  let destination_row := from_row + 2 * row_step in
  let destination_col := from_col + 2 * col_step in
  if negb ((0 <=? destination_row) && (destination_row <? ROWS)
           && (0 <=? destination_col) && (destination_col <? COLS))
  then Some (successor_states, h)
  else
    j ← read_cell h current_board_state jumped_row jumped_col;
    if j =? 1 then
      t ← read_cell h current_board_state destination_row destination_col;
      if t =? 0 then
        '(new_board_state, h) ← deepcopy h current_board_state;
        h ← execute_move h new_board_state from_row from_col
              jumped_row jumped_col destination_row destination_col;
        to_hole_index ← dict_get pos_to_index (destination_row, destination_col);
        Some (successor_states ++ [(from_hole_index, to_hole_index, new_board_state)], h)
      else Some (successor_states, h)
    else Some (successor_states, h).

(** The body of the loop over the holes. *)
Definition successors_from (current_board_state : positive)
    (st : list (Z * Z * positive) * heap) (item : Z * (Z * Z))
  : option (list (Z * Z * positive) * heap) :=
  let '(from_hole_index, (from_row, from_col)) := item in
  v ← read_cell st.2 current_board_state from_row from_col;
  if negb (v =? 1) then Some st
  else for_each (try_direction current_board_state from_hole_index from_row from_col)
                st DIRECTIONS.

(** [generate_successor_states] of [test.py]: the successors, as
    (from_hole, to_hole, address of the new board), and the heap it leaves. *)
Definition generate_successor_states (h : heap) (current_board_state : positive)
  : option (list (Z * Z * positive) * heap) :=
  for_each (successors_from current_board_state) ([], h) index_to_pos.

End Heap.

(** ** Search runs

    One pass through the body of a search loop either goes on with new
    values of the variables, or leaves the loop ([break] or [return]), or
    raises.  A run is the loop iterated; the embedding takes the number of
    passes it may make: [Finished] is a run that came to its end, [Raised]
    one that an exception ended, [OutOfFuel] one cut short by the bound (no
    Python run is like that). *)

Inductive step (S A : Type) : Type :=
  | Continue (s : S)
  | Break (a : A)
  | Raise.
Arguments Continue {S A} s.
Arguments Break {S A} a.
Arguments Raise {S A}.

Inductive run (A : Type) : Type :=
  | Finished (a : A)
  | Raised
  | OutOfFuel.
Arguments Finished {A} a.
Arguments Raised {A}.
Arguments OutOfFuel {A}.

Fixpoint loop {S A} (body : S → step S A) (fuel : nat) (s : S) : run A :=
  match fuel with
  | O => OutOfFuel
  | S fuel =>
      match body s with
      | Continue s' => loop body fuel s'
      | Break a => Finished a
      | Raise => Raised
      end
  end.

(** The variables after [n] passes, when the loop makes that many. *)
Fixpoint passes {S A} (body : S → step S A) (n : nat) (s : S) : option S :=
  match n with
  | O => Some s
  | S n =>
      match body s with
      | Continue s' => passes body n s'
      | _ => None
      end
  end.

(** What a search prints when it ends. *)
Inductive report := NoSolutionFound | YouWin.

(** ** [bfs.py] *)

Module BfsPy.

(** Given a board state, generate all possible child boards by applying
    every legal move once.  Returns a list of (new_board, move) pairs. *)
Definition generate_child_boards (current_board : grid)
  : option (list (grid * move)) :=
  possible_moves ← Grid.legal_moves current_board;
  mapM (λ m, new_board ← Grid.child_board current_board m; Some (new_board, m))
       possible_moves.

(** The module-level lists [frontier] and [explored]. *)
Record globals := Globals { frontier : list grid; explored : list Grid.key }.

Definition add_to_frontier (state : grid) (g : globals) : globals :=
  if negb (py_in state (explored g)) && negb (py_in state (frontier g))
  then Globals (frontier g ++ [state]) (explored g)
  else g.

(** The loop over [children] at the end of an iteration. *)
Definition enqueue_children (children : list grid) (g : globals) : globals :=
  foldl (λ g child,
           let serialized_child := Grid.serialize child in
           if negb (py_in serialized_child (explored g))
           then add_to_frontier child g else g)
        g children.

(** What [BFS()] leaves behind: the value it returns, what it printed last,
    and the module-level lists. *)
Record outcome := Outcome {
  returned : option (list move);
  printed : report;
  final : globals
}.

(** The body of the [while True] loop.  Both [break]s fall off the end of
    the function, which so returns [None]. *)
Definition BFS_body (g : globals) : step globals outcome :=
  match frontier g with
  | [] => Break (Outcome None NoSolutionFound g)
  | node :: rest =>
      let g := Globals rest (explored g ++ [Grid.serialize node]) in
      (* print_status(node) enumerates the moves to count them *)
      match Grid.legal_moves node with
      | None => Raise
      | Some _ =>
          if Grid.peg_count node =? 1 then Break (Outcome None YouWin g)
          else
            (* list_moves(node), then the children *)
            match generate_child_boards node with
            | None => Raise
            | Some children => Continue (enqueue_children children.*1 g)
            end
      end
  end.

(** The state the loop starts in, for the module-level board [board]. *)
Definition start (board : grid) : globals :=
  let first_copy := (λ row : list Z, row) <$> board in
  add_to_frontier first_copy (Globals [] []).

(** [BFS()]. *)
Definition BFS (fuel : nat) (board : grid) : run outcome :=
  loop BFS_body fuel (start board).

End BfsPy.

(** ** [test.py] *)

Module TestPy.

(** The body of the loop over [DIRECTIONS] in [generate_successor_states]:
    the successors it appends. *)
Definition try_direction (current_board_state : grid)
    (from_hole_index from_row from_col : Z) (d : Z * Z)
  : option (list (Z * Z * grid)) :=
  let '(row_step, col_step) := d in
  let jumped_row := from_row + row_step in
  let jumped_col := from_col + col_step in
  let destination_row := from_row + 2 * row_step in
  let destination_col := from_col + 2 * col_step in
  if negb ((0 <=? destination_row) && (destination_row <? ROWS)
           && (0 <=? destination_col) && (destination_col <? COLS))
  then Some []
  else
    j ← Grid.cell current_board_state jumped_row jumped_col;
    if j =? 1 then
      t ← Grid.cell current_board_state destination_row destination_col;
      if t =? 0 then
        let new_board_state := current_board_state in
        new_board_state ←
          Grid.execute_move new_board_state from_row from_col
            jumped_row jumped_col destination_row destination_col;
        to_hole_index ← dict_get pos_to_index (destination_row, destination_col);
        Some [(from_hole_index, to_hole_index, new_board_state)]
      else Some []
    else Some [].

Definition successors_from (current_board_state : grid) (item : Z * (Z * Z))
  : option (list (Z * Z * grid)) :=
  let '(from_hole_index, (from_row, from_col)) := item in
  v ← Grid.cell current_board_state from_row from_col;
  if negb (v =? 1) then Some []
  else (λ ls, concat ls) <$>
         mapM (try_direction current_board_state from_hole_index from_row from_col)
              DIRECTIONS.

(** Generate all valid next board states from the current board state.
    Returns a list of tuples: (from_hole, to_hole, new_board_state). *)
Definition generate_successor_states (current_board_state : grid)
  : option (list (Z * Z * grid)) :=
  (λ ls, concat ls) <$> mapM (successors_from current_board_state) index_to_pos.

(** The queue of (board_state, move_sequence) pairs and the set of visited
    keys; [dequeued] records the boards [popleft] has returned, which the
    loop prints one by one. *)
Record search := Search {
  frontier_queue : list (grid * list move);
  visited_boards : gset Grid.key;
  dequeued : list grid
}.

(** The body of the loop over the successors of a board reached by
    [current_move_sequence]. *)
Definition visit (current_move_sequence : list move)
    (s : search) (succ : Z * Z * grid) : search :=
  let '(from_hole_index, to_hole_index, next_board_state) := succ in
  let board_key := Grid.serialize next_board_state in
  if decide (board_key ∉ visited_boards s)
  then Search (frontier_queue s ++
                 [(next_board_state,
                   current_move_sequence ++ [(from_hole_index, to_hole_index)])])
              ({[board_key]} ∪ visited_boards s)
              (dequeued s)
  else s.

(** The goal test: one peg left, located at the center (row 3, col 3). *)
Definition goal_reached (current_board_state : grid) : option bool :=
  let remaining_pegs := Grid.peg_count current_board_state in
  if remaining_pegs =? 1 then
    row ← getitem current_board_state 3;
    c ← getitem row 3;
    Some (c =? 1)
  else Some false.

(** The body of the [while frontier_queue] loop; it leaves the loop with
    the node it ends on, or with [None] when the queue ran empty. *)
Definition BFS_body (s : search) : step search (option (grid * list move)) :=
  match frontier_queue s with
  | [] => Break None
  | (current_board_state, current_move_sequence) :: rest =>
      let s := Search rest (visited_boards s)
                      (dequeued s ++ [current_board_state]) in
      match goal_reached current_board_state with
      | None => Raise
      | Some true => Break (Some (current_board_state, current_move_sequence))
      | Some false =>
          match generate_successor_states current_board_state with
          | None => Raise
          | Some succs => Continue (foldl (visit current_move_sequence) s succs)
          end
      end
  end.

(** The state the loop starts in, for the module-level board [board]. *)
Definition start (board : grid) : search :=
  let initial_board_state := board in
  let initial_board_key := Grid.serialize initial_board_state in
  Search [(initial_board_state, [])] {[initial_board_key]} [].

(** [BFS()]: the move sequence it returns, or [None]. *)
Definition BFS (fuel : nat) (board : grid) : run (option (list move)) :=
  match loop BFS_body fuel (start board) with
  | Finished (Some (_, current_move_sequence)) => Finished (Some current_move_sequence)
  | Finished None => Finished None
  | Raised => Raised
  | OutOfFuel => OutOfFuel
  end.

End TestPy.

(** ** [HDFS.py] *)

Module HdfsPy.

(** [class treenodes]: a board, the node it was generated from, and the
    move that made it.  An instance is never written after [__init__]. *)
Inductive treenodes :=
  Treenodes (board : grid) (parent : option treenodes) (move : option move).

Definition tn_board (n : treenodes) : grid := let 'Treenodes b _ _ := n in b.
Definition tn_parent (n : treenodes) : option treenodes := let 'Treenodes _ p _ := n in p.
Definition tn_move (n : treenodes) : option move := let 'Treenodes _ _ m := n in m.

(** The class defines no [__eq__]: an instance equals itself only, and
    never a tuple. *)
#[global] Instance treenodes_key_py_eq : PyEq treenodes Grid.key := λ _ _, false.
#[global] Instance key_treenodes_py_eq : PyEq Grid.key treenodes := λ _ _, false.

(** As in [bfs.py], over [current_board.board]; each child is a new node
    with [current_board] as its parent. *)
Definition generate_child_boards (current_board : treenodes)
  : option (list treenodes) :=
  possible_moves ← Grid.legal_moves (tn_board current_board);
  mapM (λ m, new_board ← Grid.child_board (tn_board current_board) m;
             Some (Treenodes new_board (Some current_board) (Some m)))
       possible_moves.

(** The [while node] loop of [print_path]: the node, its parent, and so on
    up to the root. *)
Fixpoint path_to_root (node : treenodes) : list treenodes :=
  match node with
  | Treenodes _ (Some p) _ => node :: path_to_root p
  | Treenodes _ None _ => [node]
  end.

(** [print_path(node)]: the moves it prints, root first.  [print_status]
    enumerates the moves of every board on the way. *)
Definition print_path (node : treenodes) : option (list move) :=
  let path := path_to_root node in
  (λ ls, concat ls) <$>
    mapM (λ step, _ ← Grid.legal_moves (tn_board step);
                  Some (match tn_move step with Some m => [m] | None => [] end))
         (reverse path).

(** The sort key: 1/(number of moves available + 1). *)
Definition cost (x : treenodes) : option float :=
  lm ← Grid.legal_moves (tn_board x);
  Some (truediv 1 (Z.of_nat (length lm) + 1)).

(** [reversed(sorted(children, key=...))]. *)
Definition heuristic_order (children : list treenodes) : option (list treenodes) :=
  keyed ← mapM (λ x, k ← cost x; Some (k, x)) children;
  Some (reverse (sorted_by_key keyed)).

(** The module-level lists. *)
Record globals := Globals {
  frontier : list treenodes;
  chechked_boards : list Grid.key;
  explored : list treenodes
}.

Definition add_to_frontier (state : treenodes) (g : globals) : globals :=
  if negb (py_in state (chechked_boards g))
  then Globals (frontier g ++ [state]) (chechked_boards g) (explored g)
  else g.

(** The loop over [children] at the end of an iteration. *)
Definition push_children (children : list treenodes) (g : globals) : globals :=
  foldl (λ g child,
           let serialized_child := Grid.serialize (tn_board child) in
           if negb (py_in serialized_child (explored g))
           then add_to_frontier child g else g)
        g children.

(** What [DFS()] leaves behind: the value it returns, what it printed last,
    the moves [print_path] printed, and the module-level lists. *)
Record outcome := Outcome {
  returned : option (list move);
  printed : report;
  printed_path : list move;
  final : globals
}.

(** The body of the [while True] loop.  Both [break]s fall off the end of
    the function, which so returns [None]. *)
Definition DFS_body (g : globals) : step globals outcome :=
  match pop (frontier g) with
  | None => Break (Outcome None NoSolutionFound [] g)
  | Some (node, rest) =>
      let g := Globals rest
                       (chechked_boards g ++ [Grid.serialize (tn_board node)])
                       (explored g ++ [node]) in
      (* print_status(node.board) *)
      match Grid.legal_moves (tn_board node) with
      | None => Raise
      | Some _ =>
          if Grid.peg_count (tn_board node) =? 1 then
            match print_path node with
            | None => Raise
            | Some path => Break (Outcome None YouWin path g)
            end
          else
            match generate_child_boards node ≫= heuristic_order with
            | None => Raise
            | Some children => Continue (push_children children g)
            end
      end
  end.

(** The state the loop starts in, for the module-level board [board]. *)
Definition start (board : grid) : globals :=
  let first_copy := Treenodes ((λ row : list Z, row) <$> board) None None in
  let g := add_to_frontier first_copy (Globals [] [] []) in
  Globals (frontier g)
          (chechked_boards g ++ [Grid.serialize (tn_board first_copy)])
          (explored g).

(** [DFS()]. *)
Definition DFS (fuel : nat) (board : grid) : run outcome :=
  loop DFS_body fuel (start board).

End HdfsPy.

(** ** [soloT.py] *)

Module SoloT.

(** The initial state: True = peg present, False = empty. *)
Definition build_state : option (list (Z * bool)) :=
  foldl (λ acc '(i, (r, c)),
           state ← acc;
           row ← getitem TEMPLATE r;
           ch ← getitem (list_ascii_of_string row) c;
           Some (dict_set state i (bool_decide (ch = "x"%char))))
        (Some []) index_to_pos.

Definition state : list (Z * bool) := Eval vm_compute in default [] build_state.

(** The body of the loop over [DIRECTIONS] in [legal_moves]. *)
Definition try_direction (state : list (Z * bool)) (i r c : Z) (d : Z * Z)
  : option (list move) :=
  let '(dr, dc) := d in
  let mid := (r + dr, c + dc) in
  let dest := (r + 2 * dr, c + 2 * dc) in
  if dict_in mid pos_to_index && dict_in dest pos_to_index then
    mid_idx ← dict_get pos_to_index mid;
    dest_idx ← dict_get pos_to_index dest;
    m ← dict_get state mid_idx;
    if (m : bool) then
      t ← dict_get state dest_idx;
      if negb t then Some [(i, dest_idx)] else Some []
    else Some []
  else Some [].

Definition moves_from (state : list (Z * bool)) (item : Z * bool)
  : option (list move) :=
  let '(i, occupied) := item in
  if negb occupied then Some []
  else
    '(r, c) ← dict_get index_to_pos i;
    (λ ls, concat ls) <$> mapM (try_direction state i r c) DIRECTIONS.

(** Return list of legal moves as (from_idx, to_idx). *)
Definition legal_moves (state : list (Z * bool)) : option (list move) :=
  (λ ls, concat ls) <$> mapM (moves_from state) state.

Definition is_valid_move (state : list (Z * bool)) (frm to : Z) : option bool :=
  if negb (dict_in frm state) || negb (dict_in to state) then Some false
  else
    f ← dict_get state frm;
    stop ← (if negb f then Some true else dict_get state to);
    if (stop : bool) then Some false
    else
      '(r1, c1) ← dict_get index_to_pos frm;
      '(r2, c2) ← dict_get index_to_pos to;
      let '(dr, dc) := (r2 - r1, c2 - c1) in
      let mid :=
        if (Z.abs dr =? 2) && (dc =? 0) then Some (r1 + dr `div` 2, c1)
        else if (Z.abs dc =? 2) && (dr =? 0) then Some (r1, c1 + dc `div` 2)
        else None in
      match mid with
      | None => Some false
      | Some mid =>
          if negb (dict_in mid pos_to_index) then Some false
          else
            mid_idx ← dict_get pos_to_index mid;
            dict_get state mid_idx
      end.

(** [make_move]: the new state and the value returned. *)
Definition make_move (state : list (Z * bool)) (frm to : Z)
  : option (list (Z * bool) * bool) :=
  ok ← is_valid_move state frm to;
  if negb ok then Some (state, false)
  else
    '(r1, c1) ← dict_get index_to_pos frm;
    '(r2, c2) ← dict_get index_to_pos to;
    let mid := ((r1 + r2) `div` 2, (c1 + c2) `div` 2) in
    mid_idx ← dict_get pos_to_index mid;
    let state := dict_set state frm false in
    let state := dict_set state mid_idx false in
    let state := dict_set state to true in
    Some (state, true).

(** [sum(state.values())]: a [True] counts 1. *)
Definition peg_count (state : list (Z * bool)) : Z :=
  foldl Z.add 0 ((λ occupied : bool, if occupied then 1 else 0) <$> state.*2).

(** [render(show_numbers)] of [soloT.py]: it walks the template, and reads
    the id of a hole from [pos_to_index] and its peg from the state. *)
Definition render (show_numbers : bool) (state : list (Z * bool)) : option string :=
  lines ← mapM (λ '(r, row),
             out ← mapM (λ '(c, ch),
                      if bool_decide (ch = " "%char) then Some "  "%string
                      else
                        idx ← dict_get pos_to_index (r, c);
                        if show_numbers then Some (format_02d idx)
                        else
                          occupied ← dict_get state idx;
                          Some (if (occupied : bool) then "X "%string else ". "%string))
                    (enumerate (list_ascii_of_string row));
             Some (String.concat "" out))
          (enumerate TEMPLATE);
  Some (String.concat newline lines).

(** [list_moves()] of [soloT.py]: the lines it prints. *)
Definition list_moves (state : list (Z * bool)) : option (list string) :=
  lm ← legal_moves state;
  if bool_decide (lm = []) then Some ["No legal moves."%string]
  else
    let by_from := foldl Grid.setdefault_append [] lm in
    mapM (λ f, targets ← dict_get by_from f;
               let tos := String.concat ", " (pretty <$> sorted targets) in
               Some (pretty f +:+ " -> " +:+ tos))
         (sorted by_from.*1).

End SoloT.

(** ** [soloT2.py]

    [legal_moves] and [peg_count] are those of [Grid], over the module-level
    board. *)

Module SoloT2.

Definition is_valid_move (board : grid) (frm to : Z) : option bool :=
  if negb (dict_in frm index_to_pos) || negb (dict_in to index_to_pos) then Some false
  else
    '(r1, c1) ← dict_get index_to_pos frm;
    '(r2, c2) ← dict_get index_to_pos to;
    f ← Grid.cell board r1 c1;
    stop ← (if negb (f =? 1) then Some true
            else t ← Grid.cell board r2 c2; Some (negb (t =? 0)));
    if (stop : bool) then Some false
    else
      let '(dr, dc) := (r2 - r1, c2 - c1) in
      let mid :=
        if (Z.abs dr =? 2) && (dc =? 0) then Some (r1 + dr `div` 2, c1)
        else if (Z.abs dc =? 2) && (dr =? 0) then Some (r1, c1 + dc `div` 2)
        else None in
      match mid with
      | None => Some false
      | Some (mid_r, mid_c) =>
          m ← Grid.cell board mid_r mid_c;
          Some (m =? 1)
      end.

(** [make_move]: the new board and the value returned. *)
Definition make_move (board : grid) (frm to : Z) : option (grid * bool) :=
  ok ← is_valid_move board frm to;
  if negb ok then Some (board, false)
  else
    '(r1, c1) ← dict_get index_to_pos frm;
    '(r2, c2) ← dict_get index_to_pos to;
    let '(mid_r, mid_c) := ((r1 + r2) `div` 2, (c1 + c2) `div` 2) in
    board ← Grid.execute_move board r1 c1 mid_r mid_c r2 c2;
    Some (board, true).

(** [render(show_numbers)] of [soloT2.py] and [test.py], over the
    module-level board. *)
Definition render (show_numbers : bool) (board : grid) : option string :=
  lines ← mapM (λ r,
             out ← mapM (λ c, val ← Grid.cell board r c;
                              if val =? -1 then Some "  "%string
                              else if show_numbers then
                                idx ← dict_get pos_to_index (r, c);
                                Some (format_02d idx)
                              else Some (if val =? 1 then "x "%string else "o "%string))
                        (seqZ 0 COLS);
             Some (String.concat "" out))
          (seqZ 0 ROWS);
  Some (String.concat newline lines).

End SoloT2.

(** * Specification vocabulary *)

(** All 49 coordinates of the 7x7 grid, row-major. *)
Definition positions : list (Z * Z) :=
  r ← seqZ 0 ROWS; c ← seqZ 0 COLS; [(r, c)].

(** The cell at [p] is there, and it is invalid exactly off the template's
    holes: [0] or [1] on a hole, [-1] elsewhere. *)
Definition cell_ok (b : grid) (p : Z * Z) : bool :=
  match Grid.cell b p.1 p.2 with
  | Some v => if dict_in p pos_to_index then (v =? 0) || (v =? 1) else v =? -1
  | None => false
  end.

(** A well-formed board: 7 rows of 7 cells over the fixed 33-hole topology. *)
Definition well_formed (b : grid) : bool :=
  bool_decide (length b = 7%nat)
  && forallb (λ row, bool_decide (length row = 7%nat)) b
  && forallb (cell_ok b) positions.

(** The rule of the game: [frm] holds a peg, [to] is empty, the two holes are
    exactly two cells apart along one axis, and the cell between them holds a
    peg. *)
Definition legal_jump (b : grid) (frm to : Z) : Prop :=
  ∃ r1 c1 r2 c2,
    dict_get index_to_pos frm = Some (r1, c1) ∧
    dict_get index_to_pos to = Some (r2, c2) ∧
    Grid.cell b r1 c1 = Some 1 ∧
    Grid.cell b r2 c2 = Some 0 ∧
    ((r1 = r2 ∧ Z.abs (c2 - c1) = 2) ∨ (c1 = c2 ∧ Z.abs (r2 - r1) = 2)) ∧
    Grid.cell b ((r1 + r2) `div` 2) ((c1 + c2) `div` 2) = Some 1.

(** What the body of the innermost loop of [legal_moves] appends for the hole
    [item] and the direction [d], read off a well-formed board: the jump from
    [item] in direction [d] when it is one, nothing otherwise. *)
Definition jump_of (b : grid) (item : Z * (Z * Z)) (d : Z * Z) : option move :=
  let '(frm, (r, c)) := item in
  let '(dr, dc) := d in
  if decide (Grid.cell b r c = Some 1 ∧
             (0 ≤ r + 2 * dr < 7 ∧ 0 ≤ c + 2 * dc < 7) ∧
             Grid.cell b (r + dr) (c + dc) = Some 1 ∧
             Grid.cell b (r + 2 * dr) (c + 2 * dc) = Some 0)
  then (λ to, (frm, to)) <$> dict_get pos_to_index (r + 2 * dr, c + 2 * dc)
  else None.

(** The (hole, direction) pairs in the order the nested loops of
    [legal_moves] visit them. *)
Definition candidates : list ((Z * (Z * Z)) * (Z * Z)) :=
  item ← index_to_pos; d ← DIRECTIONS; [(item, d)].

(** The jumps of a board, in that order. *)
Definition jumps (b : grid) : list move :=
  omap (λ cand, jump_of b cand.1 cand.2) candidates.

(** The shape of a board: 7 rows of 7 cells. *)
Definition shape (b : grid) : Prop :=
  length b = 7%nat ∧ Forall (λ row, length row = 7%nat) b.

(** [sum(l)] read from the right. *)
Definition sumZ (l : list Z) : Z := foldr Z.add 0 l.

(** [cell == 1] as the integer [sum] adds up. *)
Definition is_peg (cell : Z) : Z := if cell =? 1 then 1 else 0.

(** What a jump does to a board, as far as the counts go: the result is a
    well-formed board with one peg fewer, as many cells, and the same invalid
    cells. *)
Definition one_jump_on (b b' : grid) : Prop :=
  well_formed b' = true ∧
  Grid.peg_count b' = Grid.peg_count b - 1 ∧
  length (concat b') = length (concat b) ∧
  ∀ r c, 0 ≤ r → 0 ≤ c →
    Grid.cell b' r c = Some (-1) ↔ Grid.cell b r c = Some (-1).

(** The children of a board: each jump of [jumps] applied to it. *)
Definition children_of (b : grid) : list (grid * move) :=
  omap (λ m, (λ b', (b', m)) <$> Grid.child_board b m) (jumps b).

(** Replaying a move sequence from a board with the move applicator. *)
Fixpoint replay (b : grid) (ms : list move) : option grid :=
  match ms with
  | [] => Some b
  | m :: ms => b' ← Grid.child_board b m; replay b' ms
  end.

(** The place of a direction in [DIRECTIONS]: 0 up, 1 down, 2 left, 3 right
    (4 for anything else). *)
Definition dir_rank (d : Z * Z) : nat :=
  default 4%nat (fst <$> list_find (λ d', d' = d) DIRECTIONS).

(** The direction of a move, read off its two holes: half the step from
    [from] to [to]. *)
Definition direction_rank (m : move) : nat :=
  match dict_get index_to_pos m.1, dict_get index_to_pos m.2 with
  | Some (r1, c1), Some (r2, c2) => dir_rank ((r2 - r1) `div` 2, (c2 - c1) `div` 2)
  | _, _ => 4%nat
  end.

(** Ascending [from], then ascending [to]. *)
Definition from_to_order (m1 m2 : move) : Prop :=
  m1.1 < m2.1 ∨ (m1.1 = m2.1 ∧ m1.2 ≤ m2.2).

(** Ascending [from], then the order of [DIRECTIONS]. *)
Definition from_direction_order (m1 m2 : move) : Prop :=
  m1.1 < m2.1 ∨ (m1.1 = m2.1 ∧ (direction_rank m1 < direction_rank m2)%nat).

(** The same order on the (hole, direction) pairs the loops visit. *)
Definition candidate_order (c1 c2 : (Z * (Z * Z)) * (Z * Z)) : Prop :=
  c1.1.1 < c2.1.1 ∨ (c1.1.1 = c2.1.1 ∧ (dir_rank c1.2 < dir_rank c2.2)%nat).

(** The board after the first three moves (15, 17), (28, 16), (30, 28) of a
    game. *)
Definition board_after_three : grid :=
  Eval vm_compute in default [] (replay board [(15, 17); (28, 16); (30, 28)]).

(** A state of [soloT.py]: one entry per hole, in the order of the hole
    ids, as the script builds it and as [make_move] keeps it. *)
Definition well_formed_state (st : list (Z * bool)) : Prop :=
  st.*1 = index_to_pos.*1.

(** The rule of the game over a state: [frm] is occupied, [to] is not, the
    two holes are exactly two cells apart along one axis, and the hole
    between them is occupied. *)
Definition legal_jump_state (st : list (Z * bool)) (frm to : Z) : Prop :=
  ∃ r1 c1 r2 c2 mid_idx,
    dict_get index_to_pos frm = Some (r1, c1) ∧
    dict_get index_to_pos to = Some (r2, c2) ∧
    dict_get st frm = Some true ∧
    dict_get st to = Some false ∧
    ((r1 = r2 ∧ Z.abs (c2 - c1) = 2) ∨ (c1 = c2 ∧ Z.abs (r2 - r1) = 2)) ∧
    dict_get pos_to_index ((r1 + r2) `div` 2, (c1 + c2) `div` 2) = Some mid_idx ∧
    dict_get st mid_idx = Some true.

(** The object at [bl] is a board whose rows are the distinct row objects
    [rows], and it holds the value [b]. *)
Definition holds_board (h : gmap positive Heap.object) (bl : positive)
    (rows : list positive) (b : grid) : Prop :=
  h !! bl = Some (Heap.OBoard rows) ∧
  NoDup rows ∧
  Forall2 (λ rl cells, h !! rl = Some (Heap.ORow cells)) rows b.

(** The objects a board is made of: the board object and its row objects. *)
Definition objects_at (h : gmap positive Heap.object) (y : positive) : list positive :=
  match h !! y with
  | Some (Heap.OBoard rows) => y :: rows
  | _ => [y]
  end.

(** The child at [lm.1] in the heap [h'] is a board made of objects that
    were not in the heap [h], and it holds the board value of [bm] for the
    same move. *)
Definition new_board (h h' : gmap positive Heap.object)
    (lm : positive * move) (bm : grid * move) : Prop :=
  lm.2 = bm.2 ∧
  ∃ rows', holds_board h' lm.1 rows' bm.1 ∧
           (lm.1 ∉ dom h) ∧ ∀ rl, rl ∈ rows' → rl ∉ dom h.

(** The state of the loop that makes the children of the board at [bl]:
    the input board is as it was, nothing of the heap [h0] the loop started
    in has changed, every child made so far is a new board for its move, and
    no two children share an object. *)
Definition children_inv (h0 h : gmap positive Heap.object) (bl : positive)
    (rows : list positive) (b : grid)
    (acc : list (positive * move)) (kids : list (grid * move)) : Prop :=
  holds_board h bl rows b ∧ h0 ⊆ h ∧
  Forall2 (new_board h0 h) acc kids ∧
  NoDup (acc.*1 ≫= objects_at h) ∧
  (∀ o, o ∈ acc.*1 ≫= objects_at h → o ∈ dom h).

(** A successor (from_hole, to_hole, board) of [test.py] as the pair
    (board, move) of [bfs.py]. *)
Definition as_child {A} (s : Z * Z * A) : A * move := (s.2, (s.1.1, s.1.2)).

(** The heap right after the module-level board is built: its seven row
    objects and, over them, the board object. *)
Definition initial_heap : gmap positive Heap.object :=
  list_to_map
    (zip [1; 2; 3; 4; 5; 6; 7]%positive (Heap.ORow <$> board)
     ++ [(8%positive, Heap.OBoard [1; 2; 3; 4; 5; 6; 7]%positive)]).

(** [reaches b ms b']: the board [b'] is reached from [b] by the move
    sequence [ms], every move legal on the board it is played on and applied
    with the move applicator. *)
Inductive reaches : grid → list move → grid → Prop :=
  | reaches_nil (b : grid) : reaches b [] b
  | reaches_cons (b b1 b' : grid) (m : move) (ms : list move) :
      legal_jump b m.1 m.2 →
      Grid.child_board b m = Some b1 →
      reaches b1 ms b' →
      reaches b (m :: ms) b'.

(** The weight of a pending board in the termination measure of the
    searches: a board has at most 132 children, each with one peg fewer. *)
Definition weight (b : grid) : nat := (133 ^ Z.to_nat (Grid.peg_count b))%nat.

Definition total_weight (bs : list grid) : nat := sum_list_with weight bs.

(** The invariant of the loop of [BFS] in [test.py] started on [b0]: every
    pending node holds a well-formed board together with a legal move
    sequence that reaches it from [b0]; no two boards dequeued or pending
    have the same key; and the keys of all of them are in the visited set. *)
Definition test_inv (b0 : grid) (s : TestPy.search) : Prop :=
  Forall (λ n, well_formed n.1 = true ∧ reaches b0 n.2 n.1) (TestPy.frontier_queue s) ∧
  NoDup (Grid.serialize <$> (TestPy.dequeued s ++ (TestPy.frontier_queue s).*1)) ∧
  ∀ b, b ∈ TestPy.dequeued s ++ (TestPy.frontier_queue s).*1 →
       Grid.serialize b ∈ TestPy.visited_boards s.

(** The invariant of the loop of [BFS] in [bfs.py] started on [b0]: every
    pending board is well formed and reached from [b0] by some legal move
    sequence, and no key occurs twice among the explored keys and the keys of
    the pending boards. *)
Definition bfs_inv (b0 : grid) (g : BfsPy.globals) : Prop :=
  Forall (λ b, well_formed b = true ∧ ∃ seq, reaches b0 seq b) (BfsPy.frontier g) ∧
  NoDup (BfsPy.explored g ++ (Grid.serialize <$> BfsPy.frontier g)).

(** The number of legal moves of a board, as [heuristic_order] counts them. *)
Definition mobility (b : grid) : nat :=
  default 0%nat (length <$> Grid.legal_moves b).

(** The sort key of a board with [n] legal moves. *)
Definition cost_of (n : nat) : float := truediv 1 (Z.of_nat n + 1).

(** Stable insertion by descending count [n]: [x] goes before the first
    element whose count is not greater than its own. *)
Fixpoint insert_desc {A} (n : A → nat) (x : A) (l : list A) : list A :=
  match l with
  | [] => [x]
  | y :: l' => if (n x <? n y)%nat then y :: insert_desc n x l' else x :: y :: l'
  end.

Definition sort_desc {A} (n : A → nat) (l : list A) : list A :=
  foldr (insert_desc n) [] l.

(** A node the depth-first search of [HDFS.py] started on [b0] may hold: the
    root, or the child of such a node by a legal move. *)
Inductive node_ok (b0 : grid) : HdfsPy.treenodes → Prop :=
  | node_ok_root : node_ok b0 (HdfsPy.Treenodes b0 None None)
  | node_ok_child (p : HdfsPy.treenodes) (m : move) (b' : grid) :
      node_ok b0 p →
      legal_jump (HdfsPy.tn_board p) m.1 m.2 →
      Grid.child_board (HdfsPy.tn_board p) m = Some b' →
      node_ok b0 (HdfsPy.Treenodes b' (Some p) (Some m)).

(** The moves on the way from the root to a node, root first: what
    [print_path] prints. *)
Definition path_moves (n : HdfsPy.treenodes) : list move :=
  reverse (HdfsPy.path_to_root n) ≫= λ step, option_list (HdfsPy.tn_move step).

(** The invariant of the loop of [DFS]: every pending node is such a node. *)
Definition dfs_inv (b0 : grid) (g : HdfsPy.globals) : Prop :=
  Forall (node_ok b0) (HdfsPy.frontier g).

(** A small position for running the searches to their end: pegs in the
    holes 5, 8 and 9 only.  The jump (8, 10) followed by (5, 17) leaves one
    peg in the centre. *)
Definition small_board : grid :=
  [[-1; -1; 0; 0; 0; -1; -1];
   [-1; -1; 0; 1; 0; -1; -1];
   [ 0;  1; 1; 0; 0;  0;  0];
   [ 0;  0; 0; 0; 0;  0;  0];
   [ 0;  0; 0; 0; 0;  0;  0];
   [-1; -1; 0; 0; 0; -1; -1];
   [-1; -1; 0; 0; 0; -1; -1]].

(** Replaying a move sequence with the rule of the game checked before every
    move: [None] when a move is not a jump of the board it is played on. *)
Fixpoint legal_replay (b : grid) (ms : list move) : option grid :=
  match ms with
  | [] => Some b
  | m :: ms =>
      if bool_decide (m ∈ jumps b)
      then b' ← Grid.child_board b m; legal_replay b' ms
      else None
  end.

(** A position with no legal move and no win: pegs in the holes 1 and 33
    only. *)
Definition stuck_board : grid :=
  [[-1; -1; 1; 0; 0; -1; -1];
   [-1; -1; 0; 0; 0; -1; -1];
   [ 0;  0; 0; 0; 0;  0;  0];
   [ 0;  0; 0; 0; 0;  0;  0];
   [ 0;  0; 0; 0; 0;  0;  0];
   [-1; -1; 0; 0; 0; -1; -1];
   [-1; -1; 0; 0; 1; -1; -1]].

(** What [BFS] of [test.py] has seen so far is closed under the moves of the
    boards it has expanded: the start board has been seen; every key seen
    belongs to a board dequeued or pending; and every board dequeued was no
    goal and has all its children seen. *)
Definition test_closed (b0 : grid) (s : TestPy.search) : Prop :=
  Grid.serialize b0 ∈ TestPy.visited_boards s ∧
  (∀ k, k ∈ TestPy.visited_boards s →
        k ∈ Grid.serialize <$> (TestPy.dequeued s ++ (TestPy.frontier_queue s).*1)) ∧
  Forall (λ d, well_formed d = true ∧ TestPy.goal_reached d = Some false ∧
               ∀ bm, bm ∈ children_of d →
                     Grid.serialize bm.1 ∈ TestPy.visited_boards s)
         (TestPy.dequeued s).

(** The same for [BFS] of [bfs.py], whose lists [explored] and [frontier]
    together are what it has seen. *)
Definition bfs_closed (b0 : grid) (g : BfsPy.globals) : Prop :=
  Grid.serialize b0 ∈ BfsPy.explored g ++ (Grid.serialize <$> BfsPy.frontier g) ∧
  ∀ d, Grid.serialize d ∈ BfsPy.explored g →
       well_formed d = true ∧ Grid.peg_count d ≠ 1 ∧
       ∀ bm, bm ∈ children_of d →
             Grid.serialize bm.1
               ∈ BfsPy.explored g ++ (Grid.serialize <$> BfsPy.frontier g).

(** [DFS] of [HDFS.py] drops nothing: every legal move sequence from the
    start board to a board with one peg goes through a pending node. *)
Definition dfs_covers (b0 : grid) (g : HdfsPy.globals) : Prop :=
  ∀ seq gl, reaches b0 seq gl → Grid.peg_count gl = 1 →
    ∃ n suffix, n ∈ HdfsPy.frontier g ∧ reaches (HdfsPy.tn_board n) suffix gl.

(** The state of [soloT.py] that shows the board [b] of [soloT2.py]: hole by
    hole, in the order of the hole ids, whether the cell holds a peg. *)
Definition state_of_board (b : grid) : list (Z * bool) :=
  (λ ip : Z * (Z * Z), (ip.1, bool_decide (Grid.cell b ip.2.1 ip.2.2 = Some 1)))
    <$> index_to_pos.

(** A session of [soloT2.py]: [make_move] called with each pair of [ms] in
    turn, on the board the call before left; the board at the end and the
    answers. *)
Fixpoint soloT2_session (board : grid) (ms : list move) : option (grid * list bool) :=
  match ms with
  | [] => Some (board, [])
  | m :: ms =>
      '(board, ok) ← SoloT2.make_move board m.1 m.2;
      '(board, oks) ← soloT2_session board ms;
      Some (board, ok :: oks)
  end.

(** The same session of [soloT.py], on its state. *)
Fixpoint soloT_session (state : list (Z * bool)) (ms : list move)
  : option (list (Z * bool) * list bool) :=
  match ms with
  | [] => Some (state, [])
  | m :: ms =>
      '(state, ok) ← SoloT.make_move state m.1 m.2;
      '(state, oks) ← soloT_session state ms;
      Some (state, ok :: oks)
  end.

(** The moves of a session that [make_move] answered [True] to. *)
Definition played (ms : list move) (oks : list bool) : list move :=
  (filter (λ mo : move * bool, mo.2 = true) (zip ms oks)).*1.

(** The targets of the moves of [lm] that start in [f], in the order of
    [lm]. *)
Definition targets_of (f : Z) (lm : list move) : list Z :=
  (filter (λ m : move, m.1 = f) lm).*2.

(** A line of [list_moves]: the hole, an arrow, and the targets separated by
    commas. *)
Definition listing_line (ft : Z * list Z) : string :=
  pretty ft.1 +:+ " -> " +:+ String.concat ", " (pretty <$> ft.2).

(** The two characters [render] shows for a cell. *)
Definition cell_text (val : Z) : string :=
  if val =? -1 then "  "%string else if val =? 1 then "x "%string else "o "%string.

(** The first of the two. *)
Definition glyph (val : Z) : ascii :=
  if val =? -1 then " "%char else if val =? 1 then "x"%char else "o"%char.

(** The line [render] shows for a row, and the picture for a list of rows. *)
Definition row_text (row : list Z) : string := String.concat "" (cell_text <$> row).
Definition board_text (b : grid) : string := String.concat newline (row_text <$> b).

(** A row of seven cells, each invalid, empty or a peg. *)
Definition tidy_row (row : list Z) : Prop :=
  length row = 7%nat ∧ Forall (λ x, x = -1 ∨ x = 0 ∨ x = 1) row.

(** The picture [render(show_numbers=True)] of [soloT2.py] shows at the
    start of a game. *)
Definition numbered_picture : string :=
  Eval vm_compute in default ""%string (SoloT2.render true board).

(** The building loop of the scripts over any template: [scan_template] is
    [scan TEMPLATE]. *)
Definition scan (template : list string) : option globals :=
  foldl (λ acc '(r, row), g ← acc; scan_row r row g) (Some globals0) (enumerate template).

(** What a character of a template puts on the board: a peg for [x], an
    empty hole for [o], nothing for any other character. *)
Definition hole_value (ch : ascii) : option Z :=
  if bool_decide (ch = "x"%char) then Some 1
  else if bool_decide (ch = "o"%char) then Some 0
  else None.

(** The holes of a row of a template from column [c] on, and of the rows of
    a template from row [r] on, in reading order, each with what is on it. *)
Fixpoint row_holes (r c : Z) (chs : list ascii) : list ((Z * Z) * Z) :=
  match chs with
  | [] => []
  | ch :: chs => option_list ((λ v, ((r, c), v)) <$> hole_value ch) ++ row_holes r (c + 1) chs
  end.

Fixpoint rows_holes (r : Z) (rows : list string) : list ((Z * Z) * Z) :=
  match rows with
  | [] => []
  | row :: rows => row_holes r 0 (list_ascii_of_string row) ++ rows_holes (r + 1) rows
  end.

Definition template_holes (template : list string) : list ((Z * Z) * Z) :=
  rows_holes 0 template.

(** A position of the 7x7 board. *)
Definition fits (p : Z * Z) : Prop := 0 ≤ p.1 < ROWS ∧ 0 ≤ p.2 < COLS.

(** Reading order on positions. *)
Definition before (p q : Z * Z) : Prop := p.1 < q.1 ∨ (p.1 = q.1 ∧ p.2 < q.2).

(** The state of the building loop after the holes [hs]: they are numbered
    from 1 in reading order in the two dictionaries, the next id is one more
    than their number, and the board shows them and nothing else. *)
Definition built (hs : list ((Z * Z) * Z)) (g : globals) : Prop :=
  Forall fits hs.*1 ∧
  StronglySorted before hs.*1 ∧
  g_index_to_pos g = (λ kx : Z * ((Z * Z) * Z), (kx.1, kx.2.1)) <$> enumerate_from 1 hs ∧
  g_pos_to_index g = (λ kx : Z * ((Z * Z) * Z), (kx.2.1, kx.1)) <$> enumerate_from 1 hs ∧
  g_idx g = 1 + Z.of_nat (length hs) ∧
  shape (g_board g) ∧
  ∀ r c, 0 ≤ r < 7 → 0 ≤ c < 7 →
    Grid.cell (g_board g) r c = Some (default (-1) (dict_get hs (r, c))).

(** * Properties *)

(** The dictionaries are 33 entries long: [simpl] leaves their lookups folded. *)
#[global] Arguments dict_get : simpl never.
#[global] Arguments dict_in : simpl never.
#[global] Arguments DIRECTIONS : simpl never.
#[global] Arguments index_to_pos : simpl never.
#[global] Arguments pos_to_index : simpl never.

(** ** Python containers *)

Lemma getitem_nonneg {A} (l : list A) (i : Z) :
  0 ≤ i → getitem l i = l !! Z.to_nat i.
Proof. intros Hi. unfold getitem. by rewrite (proj2 (Z.leb_le 0 i) Hi). Qed.

Lemma getitem_in_range {A} (l : list A) (i : Z) :
  0 ≤ i < Z.of_nat (length l) → is_Some (getitem l i).
Proof.
  intros [Hi Hlt]. rewrite getitem_nonneg by done.
  apply lookup_lt_is_Some_2. lia.
Qed.

Lemma dict_get_elem_of {K V} `{EqDecision K} (d : list (K * V)) (k : K) (v : V) :
  dict_get d k = Some v → (k, v) ∈ d.
Proof.
  induction d as [|[k' v'] d IH]; [done|].
  change (dict_get ((k', v') :: d) k)
    with (if decide (k' = k) then Some v' else dict_get d k).
  case_decide as Hk.
  - intros [= ->]. subst. left.
  - intros Hd. right. auto.
Qed.

Lemma elem_of_dict_get {K V} `{EqDecision K} (d : list (K * V)) (k : K) (v : V) :
  NoDup d.*1 → (k, v) ∈ d → dict_get d k = Some v.
Proof.
  induction d as [|[k' v'] d IH]; intros Hnd Hin.
  - by apply elem_of_nil in Hin.
  - change (dict_get ((k', v') :: d) k)
      with (if decide (k' = k) then Some v' else dict_get d k).
    simpl in Hnd. apply NoDup_cons in Hnd as [Hk' Hnd]. apply elem_of_cons in Hin as [[= -> ->]|Hin].
    + by rewrite decide_True.
    + rewrite decide_False; [by apply IH|].
      intros ->. apply Hk'. apply list_elem_of_fmap. by exists (k, v).
Qed.

Lemma bind_Some_l {A B} (x : A) (f : A → option B) : Some x ≫= f = f x.
Proof. reflexivity. Qed.

Lemma forallb_elem_of {A} (f : A → bool) (l : list A) (x : A) :
  forallb f l = true → x ∈ l → f x = true.
Proof. rewrite forallb_forall. intros H Hx. apply H. by apply list_elem_of_In. Qed.

(** Loops that append to one list: the elements of the result. *)
Lemma mapM_concat_spec {A B} (f : A → option (list B)) (l : list A)
    (P : A → B → Prop) :
  (∀ x, x ∈ l → ∃ ys, f x = Some ys ∧ ∀ y, y ∈ ys ↔ P x y) →
  ∃ yss, mapM f l = Some yss ∧ ∀ y, y ∈ concat yss ↔ ∃ x, x ∈ l ∧ P x y.
Proof.
  induction l as [|x l IH]; intros Hf.
  - exists []. split; [done|]. intros y. simpl. split.
    + intros Hy. by apply elem_of_nil in Hy.
    + intros (x & Hx & _). by apply elem_of_nil in Hx.
  - destruct (Hf x) as (ys & Hys & Hspec); [left|].
    destruct IH as (yss & Hyss & Hall).
    { intros x' Hx'. apply Hf. by right. }
    exists (ys :: yss). split.
    + simpl. rewrite Hys. simpl. by rewrite Hyss.
    + intros y. simpl. rewrite elem_of_app, Hspec, Hall. split.
      * intros [Hp|(x' & Hx' & Hp)]; [exists x; split; [left|done]|].
        exists x'. split; [by right|done].
      * intros (x' & Hx' & Hp). apply elem_of_cons in Hx' as [->|Hx']; [by left|].
        right. eauto.
Qed.

(** ** The topology *)

Lemma scan_template_ok : scan_template = Some the_globals.
Proof. reflexivity. Qed.

Lemma index_to_pos_NoDup : NoDup index_to_pos.*1.
Proof. apply (bool_decide_unpack _). by vm_compute. Qed.

Lemma pos_to_index_NoDup : NoDup pos_to_index.*1.
Proof. apply (bool_decide_unpack _). by vm_compute. Qed.

Lemma pos_to_index_swap : pos_to_index = (λ ip, (ip.2, ip.1)) <$> index_to_pos.
Proof. reflexivity. Qed.

(** The two dictionaries are inverse bijections over the 33 holes. *)
Lemma index_pos_inverse (i r c : Z) :
  dict_get index_to_pos i = Some (r, c) ↔ dict_get pos_to_index (r, c) = Some i.
Proof.
  split; intros H%dict_get_elem_of.
  - apply elem_of_dict_get; [apply pos_to_index_NoDup|].
    rewrite pos_to_index_swap. apply list_elem_of_fmap. by exists (i, (r, c)).
  - apply elem_of_dict_get; [apply index_to_pos_NoDup|].
    rewrite pos_to_index_swap in H. apply list_elem_of_fmap in H as ([i' [r' c']] & [= -> -> ->] & H).
    done.
Qed.

Lemma index_to_pos_in_range (i r c : Z) :
  dict_get index_to_pos i = Some (r, c) → 1 ≤ i ≤ 33 ∧ 0 ≤ r < 7 ∧ 0 ≤ c < 7.
Proof.
  intros H%dict_get_elem_of.
  assert (Hall : forallb (λ '(i, (r, c)),
            bool_decide (1 ≤ i ≤ 33 ∧ 0 ≤ r < 7 ∧ 0 ≤ c < 7)) index_to_pos = true)
    by (by vm_compute).
  apply (forallb_elem_of _ _ _ Hall) in H. by apply bool_decide_eq_true in H.
Qed.

Lemma elem_of_positions (r c : Z) : (r, c) ∈ positions ↔ 0 ≤ r < 7 ∧ 0 ≤ c < 7.
Proof.
  unfold positions. rewrite list_elem_of_bind. split.
  - intros (r' & Hc & Hr). apply list_elem_of_bind in Hc as (c' & Hc & Hc').
    apply list_elem_of_singleton in Hc as [= -> ->].
    apply elem_of_seqZ in Hr, Hc'. unfold ROWS, COLS in *. lia.
  - intros [Hr Hc]. exists r. split; [|apply elem_of_seqZ; unfold ROWS; lia].
    apply list_elem_of_bind. exists c. split; [by apply list_elem_of_singleton|].
    apply elem_of_seqZ. unfold COLS. lia.
Qed.

(** ** Well-formed boards *)

Lemma well_formed_length (b : grid) : well_formed b = true → length b = 7%nat.
Proof.
  unfold well_formed. rewrite !andb_true_iff. intros [[H _] _].
  by apply bool_decide_eq_true in H.
Qed.

Lemma well_formed_row (b : grid) (row : list Z) :
  well_formed b = true → row ∈ b → length row = 7%nat.
Proof.
  unfold well_formed. rewrite !andb_true_iff. intros [[_ H] _] Hrow.
  apply (forallb_elem_of _ _ _ H) in Hrow. by apply bool_decide_eq_true in Hrow.
Qed.

(** Every in-range cell of a well-formed board reads without error, as [0] or
    [1] on a hole and as [-1] off the holes. *)
Lemma well_formed_cell (b : grid) (r c : Z) :
  well_formed b = true → 0 ≤ r < 7 → 0 ≤ c < 7 →
  ∃ v, Grid.cell b r c = Some v ∧
       if dict_in (r, c) pos_to_index then v = 0 ∨ v = 1 else v = -1.
Proof.
  unfold well_formed. rewrite !andb_true_iff. intros [_ H] Hr Hc.
  assert (Hp : (r, c) ∈ positions) by by apply elem_of_positions.
  apply (forallb_elem_of _ _ _ H) in Hp. unfold cell_ok in Hp. simpl in Hp.
  destruct (Grid.cell b r c) as [v|]; [|done]. exists v. split; [done|].
  destruct (dict_in (r, c) pos_to_index).
  - apply orb_true_iff in Hp as [Hp|Hp]; apply Z.eqb_eq in Hp; auto.
  - by apply Z.eqb_eq in Hp.
Qed.

Lemma dict_in_Some {K V} `{EqDecision K} (d : list (K * V)) (k : K) :
  dict_in k d = true ↔ is_Some (dict_get d k).
Proof.
  unfold dict_in. destruct (dict_get d k); split; done.
Qed.

(** A cell that holds [0] or [1] is one of the 33 holes. *)
Lemma well_formed_hole (b : grid) (r c v : Z) :
  well_formed b = true → 0 ≤ r < 7 → 0 ≤ c < 7 →
  Grid.cell b r c = Some v → v = 0 ∨ v = 1 →
  ∃ i, dict_get pos_to_index (r, c) = Some i.
Proof.
  intros Hwf Hr Hc Hv Hv01.
  destruct (well_formed_cell b r c Hwf Hr Hc) as (v' & Hv' & Hok).
  rewrite Hv in Hv'. injection Hv' as <-.
  destruct (dict_in (r, c) pos_to_index) eqn:Hin.
  - by apply dict_in_Some in Hin as [i Hi]; exists i.
  - lia.
Qed.

(** ** Move enumeration *)

Lemma mapM_concat_bind {A B} (f : A → option (list B)) (g : A → list B) (l : list A) :
  (∀ x, x ∈ l → f x = Some (g x)) →
  (λ ls, concat ls) <$> mapM f l = Some (l ≫= g).
Proof.
  induction l as [|x l IH]; intros Hf; [done|].
  simpl. rewrite (Hf x) by left. simpl.
  destruct (mapM f l) as [yss|] eqn:Hyss; simpl in *.
  - f_equal. f_equal. specialize (IH (λ x' Hx', Hf x' (list_elem_of_further _ _ _ Hx'))).
    by injection IH.
  - by specialize (IH (λ x' Hx', Hf x' (list_elem_of_further _ _ _ Hx'))).
Qed.

Lemma bind_option_list_None {A B} (g : A → option B) (l : list A) :
  (∀ x, g x = None) → (x ← l; option_list (g x)) = [].
Proof.
  intros Hg. induction l as [|x l IH]; [done|].
  by rewrite bind_cons, Hg, IH.
Qed.

Lemma elem_of_DIRECTIONS (dr dc : Z) :
  (dr, dc) ∈ DIRECTIONS ↔ (Z.abs dr = 1 ∧ dc = 0) ∨ (dr = 0 ∧ Z.abs dc = 1).
Proof.
  unfold DIRECTIONS. rewrite !elem_of_cons, elem_of_nil. split.
  - intros [[= -> ->]|[[= -> ->]|[[= -> ->]|[[= -> ->]|[]]]]]; lia.
  - intros [[Hr ->]|[-> Hc]].
    + destruct (decide (dr = 1)) as [->|]; [auto|]. assert (dr = -1) as -> by lia. auto.
    + destruct (decide (dc = 1)) as [->|]; [auto 6|]. assert (dc = -1) as -> by lia. auto 6.
Qed.

(** One direction of one hole: on a well-formed board the body raises nothing
    and appends exactly [jump_of]. *)
Lemma try_direction_jump_of (b : grid) (frm r c : Z) (d : Z * Z) :
  well_formed b = true → 0 ≤ r < 7 → 0 ≤ c < 7 → d ∈ DIRECTIONS →
  Grid.cell b r c = Some 1 →
  Grid.try_direction b frm r c d = Some (option_list (jump_of b (frm, (r, c)) d)).
Proof.
  intros Hwf Hr Hc Hd Hpeg. destruct d as [dr dc].
  apply elem_of_DIRECTIONS in Hd.
  unfold Grid.try_direction, jump_of, ROWS, COLS.
  destruct ((0 <=? r + 2 * dr) && (r + 2 * dr <? 7) && (0 <=? c + 2 * dc) && (c + 2 * dc <? 7))
    eqn:Hrange.
  - rewrite !andb_true_iff in Hrange. destruct Hrange as [[[H1 H2] H3] H4].
    apply Z.leb_le in H1, H3. apply Z.ltb_lt in H2, H4.
    destruct (well_formed_cell b (r + dr) (c + dc) Hwf) as (m & Hm & _); [lia..|].
    destruct (well_formed_cell b (r + 2 * dr) (c + 2 * dc) Hwf) as (t & Ht & _); [lia..|].
    rewrite Hm. simpl. destruct (m =? 1) eqn:Hm1.
    + apply Z.eqb_eq in Hm1 as ->. rewrite Ht. simpl. destruct (t =? 0) eqn:Ht0.
      * apply Z.eqb_eq in Ht0 as ->.
        destruct (well_formed_hole b (r + 2 * dr) (c + 2 * dc) 0 Hwf) as [i Hi];
          [lia|lia|done|auto|].
        rewrite Hi. simpl. rewrite decide_True by (repeat split; (done || lia)).
        done.
      * apply Z.eqb_neq in Ht0. rewrite decide_False; [done|].
        intros (_ & _ & _ & [= ?]). done.
    + apply Z.eqb_neq in Hm1. rewrite decide_False; [done|].
      intros (_ & _ & [= ?] & _). done.
  - rewrite decide_False; [done|]. intros (_ & [[? ?] [? ?]] & _).
    rewrite !andb_false_iff in Hrange.
    destruct Hrange as [[[Hf|Hf]|Hf]|Hf];
      (apply Z.leb_gt in Hf || apply Z.ltb_ge in Hf); lia.
Qed.

Lemma moves_from_jump_of (b : grid) (item : Z * (Z * Z)) :
  well_formed b = true → item ∈ index_to_pos →
  Grid.moves_from b item = Some (d ← DIRECTIONS; option_list (jump_of b item d)).
Proof.
  intros Hwf Hitem. destruct item as [frm [r c]].
  assert (dict_get index_to_pos frm = Some (r, c)) as Hpos
    by (apply elem_of_dict_get; [apply index_to_pos_NoDup|done]).
  apply index_to_pos_in_range in Hpos as (_ & Hr & Hc).
  unfold Grid.moves_from.
  destruct (well_formed_cell b r c Hwf Hr Hc) as (v & Hv & _).
  rewrite Hv, bind_Some_l. destruct (v =? 1) eqn:Hv1; cbn [negb].
  - apply Z.eqb_eq in Hv1 as ->. apply mapM_concat_bind.
    intros d Hd. by apply try_direction_jump_of.
  - apply Z.eqb_neq in Hv1. f_equal. symmetry.
    apply bind_option_list_None. intros [dr dc].
    unfold jump_of. rewrite decide_False; [done|].
    rewrite Hv. intros ([= ?] & _). done.
Qed.

Lemma bind_bind_omap {A B C} (g : A → B → option C) (l : list A) (k : list B) :
  (x ← l; y ← k; option_list (g x y))
  = omap (λ c, g c.1 c.2) (x ← l; y ← k; [(x, y)]).
Proof.
  induction l as [|x l IH]; [done|].
  rewrite !bind_cons, omap_app, IH. f_equal.
  clear IH. induction k as [|y k IH]; [done|].
  rewrite !bind_cons, omap_app, IH. by f_equal.
Qed.

(** On a well-formed board [legal_moves] raises nothing and returns the jumps
    in loop order. *)
Lemma legal_moves_jumps (b : grid) :
  well_formed b = true → Grid.legal_moves b = Some (jumps b).
Proof.
  intros Hwf. unfold Grid.legal_moves, jumps, candidates.
  rewrite <-bind_bind_omap. apply mapM_concat_bind.
  intros item Hitem. by apply moves_from_jump_of.
Qed.

Lemma elem_of_candidates (item : Z * (Z * Z)) (d : Z * Z) :
  (item, d) ∈ candidates ↔ item ∈ index_to_pos ∧ d ∈ DIRECTIONS.
Proof.
  unfold candidates. rewrite list_elem_of_bind. split.
  - intros (item' & Hd & Hitem). apply list_elem_of_bind in Hd as (d' & Hd & Hd').
    by apply list_elem_of_singleton in Hd as [= -> ->].
  - intros [Hitem Hd]. exists item. split; [|done].
    apply list_elem_of_bind. exists d. split; [|done]. by apply list_elem_of_singleton.
Qed.

Lemma elem_of_jumps (b : grid) (m : move) :
  m ∈ jumps b ↔
  ∃ item d, item ∈ index_to_pos ∧ d ∈ DIRECTIONS ∧ jump_of b item d = Some m.
Proof.
  unfold jumps. rewrite list_elem_of_omap. split.
  - intros ([item d] & Hc%elem_of_candidates & Hj). exists item, d. tauto.
  - intros (item & d & Hitem & Hd & Hj). exists (item, d). split; [|done].
    by apply elem_of_candidates.
Qed.

Lemma jump_of_Some (b : grid) (frm r c dr dc : Z) (m : move) :
  jump_of b (frm, (r, c)) (dr, dc) = Some m ↔
  Grid.cell b r c = Some 1 ∧
  (0 ≤ r + 2 * dr < 7 ∧ 0 ≤ c + 2 * dc < 7) ∧
  Grid.cell b (r + dr) (c + dc) = Some 1 ∧
  Grid.cell b (r + 2 * dr) (c + 2 * dc) = Some 0 ∧
  m.1 = frm ∧ dict_get pos_to_index (r + 2 * dr, c + 2 * dc) = Some m.2.
Proof.
  unfold jump_of. case_decide as Hd.
  - destruct Hd as (H1 & H2 & H3 & H4).
    destruct (dict_get pos_to_index (r + 2 * dr, c + 2 * dc)) as [to|]; simpl.
    + split.
      * intros [= <-]. done.
      * intros (_ & _ & _ & _ & <- & [= ->]). by destruct m.
    + split; [done|]. intros (_ & _ & _ & _ & _ & ?). done.
  - split; [done|]. intros (H1 & H2 & H3 & H4 & _). by destruct Hd.
Qed.

(** The jumps the two loops find are the legal ones. *)
Lemma jumps_exactly_legal (b : grid) (frm to : Z) :
  (frm, to) ∈ jumps b ↔ legal_jump b frm to.
Proof.
  rewrite elem_of_jumps. split.
  - intros ([f [r c]] & [dr dc] & Hitem & Hd & Hj).
    apply jump_of_Some in Hj as (Hpeg & [Hr2 Hc2] & Hmid & Hto & Hf & Hidx).
    simpl in Hf, Hidx. subst f.
    apply elem_of_DIRECTIONS in Hd.
    exists r, c, (r + 2 * dr), (c + 2 * dc). repeat split.
    + apply elem_of_dict_get; [apply index_to_pos_NoDup|done].
    + by apply index_pos_inverse.
    + done.
    + done.
    + lia.
    + replace (r + (r + 2 * dr)) with ((r + dr) * 2) by lia.
      replace (c + (c + 2 * dc)) with ((c + dc) * 2) by lia.
      by rewrite !Z.div_mul.
  - intros (r1 & c1 & r2 & c2 & Hfrm & Hto & Hpeg & Hempty & Hgeo & Hmid).
    pose proof (index_to_pos_in_range _ _ _ Hfrm) as (_ & Hr1 & Hc1).
    pose proof (index_to_pos_in_range _ _ _ Hto) as (_ & Hr2 & Hc2).
    exists (frm, (r1, c1)), ((r2 - r1) `div` 2, (c2 - c1) `div` 2).
    assert (∃ dr dc, r2 = r1 + 2 * dr ∧ c2 = c1 + 2 * dc ∧
              ((Z.abs dr = 1 ∧ dc = 0) ∨ (dr = 0 ∧ Z.abs dc = 1)))
      as (dr & dc & -> & -> & Hd).
    { destruct Hgeo as [[-> Hc]|[-> Hr]].
      - exists 0, (if decide (c1 < c2) then 1 else -1). case_decide; lia.
      - exists (if decide (r1 < r2) then 1 else -1), 0. case_decide; lia. }
    replace (r1 + 2 * dr - r1) with (dr * 2) by lia.
    replace (c1 + 2 * dc - c1) with (dc * 2) by lia.
    rewrite !Z.div_mul by done.
    replace (r1 + (r1 + 2 * dr)) with ((r1 + dr) * 2) in Hmid by lia.
    replace (c1 + (c1 + 2 * dc)) with ((c1 + dc) * 2) in Hmid by lia.
    rewrite !Z.div_mul in Hmid by done.
    repeat split.
    + by apply dict_get_elem_of.
    + by apply elem_of_DIRECTIONS.
    + apply jump_of_Some. repeat split; try done; try lia.
      by apply index_pos_inverse.
Qed.

(** C1.  For every well-formed board the move enumeration is exactly the
    legal moves: [legal_moves] raises nothing, and a pair (from, to) is in the
    list it returns if and only if the cell of [from] holds a peg, the cell of
    [to] is empty, the two holes are exactly two cells apart along one grid
    axis, and the cell directly between them holds a peg. *)
Theorem legal_moves_exactly_legal (b : grid) :
  well_formed b = true →
  ∃ ms, Grid.legal_moves b = Some ms ∧
        ∀ frm to, (frm, to) ∈ ms ↔ legal_jump b frm to.
Proof.
  intros Hwf. exists (jumps b). split; [by apply legal_moves_jumps|].
  intros frm to. apply jumps_exactly_legal.
Qed.

(** ** Reading and writing cells *)

Lemma setitem_nonneg {A} (l : list A) (i : Z) (x : A) :
  0 ≤ i < Z.of_nat (length l) → setitem l i x = Some (<[Z.to_nat i := x]> l).
Proof.
  intros [Hi Hlt]. unfold setitem.
  rewrite (proj2 (Z.leb_le 0 i) Hi). by rewrite (proj2 (Z.ltb_lt _ _) Hlt).
Qed.

Lemma foldl_add_sumZ (a : Z) (l : list Z) : foldl Z.add a l = a + sumZ l.
Proof.
  revert a. induction l as [|x l IH]; intros a; simpl; [lia|].
  rewrite IH. unfold sumZ. simpl. lia.
Qed.

Lemma sumZ_app (l k : list Z) : sumZ (l ++ k) = sumZ l + sumZ k.
Proof. induction l as [|x l IH]; simpl; [done|]. unfold sumZ in *. simpl. lia. Qed.

Lemma sumZ_insert (l : list Z) (i : nat) (x y : Z) :
  l !! i = Some y → sumZ (<[i := x]> l) = sumZ l - y + x.
Proof.
  intros Hy. rewrite <-(take_drop_middle l i y Hy) at 2.
  rewrite insert_take_drop by (by eapply lookup_lt_Some).
  rewrite !sumZ_app. unfold sumZ. simpl. lia.
Qed.

Lemma peg_count_rows (b : grid) :
  Grid.peg_count b = sumZ ((λ row, sumZ (is_peg <$> row)) <$> b).
Proof.
  unfold Grid.peg_count. rewrite foldl_add_sumZ.
  change (λ cell, if cell =? 1 then 1 else 0) with is_peg.
  rewrite Z.add_0_l.
  induction b as [|row b IH]; [done|].
  rewrite fmap_cons. change (concat (row :: b)) with (row ++ concat b).
  rewrite fmap_app, sumZ_app, IH. done.
Qed.

Lemma shape_row (b : grid) (r : Z) :
  shape b → 0 ≤ r < 7 → ∃ row, b !! Z.to_nat r = Some row ∧ length row = 7%nat.
Proof.
  intros [Hlen Hrows] Hr.
  destruct (lookup_lt_is_Some_2 b (Z.to_nat r)) as [row Hrow]; [lia|].
  exists row. split; [done|]. by eapply (Forall_lookup_1 _ _ _ _ Hrows).
Qed.

Lemma cell_lookup (b : grid) (r c : Z) :
  0 ≤ r → 0 ≤ c → Grid.cell b r c = b !! Z.to_nat r ≫= λ row, row !! Z.to_nat c.
Proof.
  intros Hr Hc. unfold Grid.cell. rewrite getitem_nonneg by done.
  destruct (b !! Z.to_nat r) as [row|]; simpl; [|done]. by rewrite getitem_nonneg.
Qed.

Lemma well_formed_shape (b : grid) : well_formed b = true → shape b.
Proof.
  intros Hwf. split; [by apply well_formed_length|].
  apply Forall_forall. intros row Hrow. by eapply well_formed_row.
Qed.

(** One write into an in-range cell of a 7x7 board: it raises nothing, keeps
    the shape, changes that cell alone, and moves the peg count by the
    difference at that cell. *)
Lemma set_cell_spec (b : grid) (r c v old : Z) :
  shape b → 0 ≤ r < 7 → 0 ≤ c < 7 → Grid.cell b r c = Some old →
  ∃ b', Grid.set_cell b r c v = Some b' ∧ shape b' ∧
        (∀ r' c', 0 ≤ r' → 0 ≤ c' →
           Grid.cell b' r' c' = if decide ((r', c') = (r, c)) then Some v
                                else Grid.cell b r' c') ∧
        Grid.peg_count b' = Grid.peg_count b - is_peg old + is_peg v.
Proof.
  intros Hshape Hr Hc Hold.
  destruct (shape_row b r Hshape Hr) as (row & Hrow & Hlen).
  destruct Hshape as [Hb Hrows].
  rewrite cell_lookup, Hrow in Hold by lia. simpl in Hold.
  exists (<[Z.to_nat r := <[Z.to_nat c := v]> row]> b).
  split; [|split; [|split]].
  - unfold Grid.set_cell. rewrite getitem_nonneg, Hrow by lia. simpl.
    rewrite setitem_nonneg by lia. simpl. apply setitem_nonneg. lia.
  - split; [by rewrite length_insert|].
    apply Forall_insert; [done|]. by rewrite length_insert.
  - intros r' c' Hr' Hc'. rewrite !cell_lookup by done.
    destruct (decide (Z.to_nat r' = Z.to_nat r)) as [Hreq|Hrne].
    + rewrite Hreq, list_lookup_insert_eq by lia. simpl. rewrite Hrow. simpl.
      destruct (decide (Z.to_nat c' = Z.to_nat c)) as [Hceq|Hcne].
      * rewrite Hceq, list_lookup_insert_eq by lia.
        rewrite decide_True; [done|]. f_equal; lia.
      * rewrite list_lookup_insert_ne by done.
        rewrite decide_False; [done|]. intros [= -> ->]. done.
    + rewrite list_lookup_insert_ne by done.
      rewrite decide_False; [done|]. intros [= -> ->]. done.
  - rewrite !peg_count_rows, list_fmap_insert.
    erewrite sumZ_insert by (by rewrite list_lookup_fmap, Hrow).
    rewrite list_fmap_insert. erewrite sumZ_insert by (by rewrite list_lookup_fmap, Hold).
    lia.
Qed.

Lemma well_formed_iff (b : grid) :
  well_formed b = true ↔
  shape b ∧
  ∀ r c, 0 ≤ r < 7 → 0 ≤ c < 7 →
    ∃ v, Grid.cell b r c = Some v ∧
         if dict_in (r, c) pos_to_index then v = 0 ∨ v = 1 else v = -1.
Proof.
  split.
  - intros Hwf. split; [by apply well_formed_shape|].
    intros r c. by apply well_formed_cell.
  - intros [[Hlen Hrows] Hcells]. unfold well_formed.
    rewrite !andb_true_iff. repeat split.
    + by apply bool_decide_eq_true.
    + apply forallb_forall. intros row Hrow%list_elem_of_In.
      apply bool_decide_eq_true. by eapply (proj1 (Forall_forall _ _) Hrows).
    + apply forallb_forall. intros [r c] Hp%list_elem_of_In.
      apply elem_of_positions in Hp as [Hr Hc].
      destruct (Hcells r c Hr Hc) as (v & Hv & Hok).
      unfold cell_ok. simpl. rewrite Hv.
      destruct (dict_in (r, c) pos_to_index).
      * destruct Hok as [-> | ->]; done.
      * by subst v.
Qed.

(** A cell of a well-formed board that does not hold [-1] is a hole. *)
Lemma well_formed_is_hole (b : grid) (r c v : Z) :
  well_formed b = true → 0 ≤ r < 7 → 0 ≤ c < 7 →
  Grid.cell b r c = Some v → v ≠ -1 → dict_in (r, c) pos_to_index = true.
Proof.
  intros Hwf Hr Hc Hv Hne.
  destruct (well_formed_cell b r c Hwf Hr Hc) as (v' & Hv' & Hok).
  rewrite Hv in Hv'. injection Hv' as <-.
  by destruct (dict_in (r, c) pos_to_index).
Qed.

(** The three writes of a jump over three distinct in-range cells that hold
    peg, peg, empty: nothing is raised, the board stays well formed, the
    three cells become empty, empty, peg and no other cell changes, and one
    peg is gone. *)
Lemma execute_move_spec (b : grid) (r1 c1 mr mc r2 c2 : Z) :
  well_formed b = true →
  0 ≤ r1 < 7 → 0 ≤ c1 < 7 → 0 ≤ mr < 7 → 0 ≤ mc < 7 → 0 ≤ r2 < 7 → 0 ≤ c2 < 7 →
  (r1, c1) ≠ (mr, mc) → (r1, c1) ≠ (r2, c2) → (mr, mc) ≠ (r2, c2) →
  Grid.cell b r1 c1 = Some 1 → Grid.cell b mr mc = Some 1 →
  Grid.cell b r2 c2 = Some 0 →
  ∃ b', Grid.execute_move b r1 c1 mr mc r2 c2 = Some b' ∧
        well_formed b' = true ∧
        (∀ r c, 0 ≤ r → 0 ≤ c →
           Grid.cell b' r c =
             if decide ((r, c) = (r2, c2)) then Some 1
             else if decide ((r, c) = (mr, mc)) then Some 0
             else if decide ((r, c) = (r1, c1)) then Some 0
             else Grid.cell b r c) ∧
        Grid.peg_count b' = Grid.peg_count b - 1.
Proof.
  intros Hwf Hr1 Hc1 Hmr Hmc Hr2 Hc2 Hne1 Hne2 Hne3 Hfrom Hmid Hto.
  pose proof (well_formed_shape b Hwf) as Hshape.
  destruct (set_cell_spec b r1 c1 0 1 Hshape Hr1 Hc1 Hfrom)
    as (b1 & Hb1 & Hshape1 & Hcell1 & Hpc1).
  assert (Grid.cell b1 mr mc = Some 1) as Hmid1.
  { rewrite Hcell1 by lia. rewrite decide_False by congruence. done. }
  destruct (set_cell_spec b1 mr mc 0 1 Hshape1 Hmr Hmc Hmid1)
    as (b2 & Hb2 & Hshape2 & Hcell2 & Hpc2).
  assert (Grid.cell b2 r2 c2 = Some 0) as Hto2.
  { rewrite Hcell2, Hcell1 by lia. rewrite !decide_False by congruence. done. }
  destruct (set_cell_spec b2 r2 c2 1 0 Hshape2 Hr2 Hc2 Hto2)
    as (b3 & Hb3 & Hshape3 & Hcell3 & Hpc3).
  assert (Hcells : ∀ r c, 0 ≤ r → 0 ≤ c →
           Grid.cell b3 r c =
             if decide ((r, c) = (r2, c2)) then Some 1
             else if decide ((r, c) = (mr, mc)) then Some 0
             else if decide ((r, c) = (r1, c1)) then Some 0
             else Grid.cell b r c).
  { intros r c Hr Hc. rewrite Hcell3, Hcell2, Hcell1 by done. done. }
  exists b3. split; [|split; [|split]].
  - unfold Grid.execute_move. rewrite Hb1. simpl. rewrite Hb2. simpl. done.
  - apply well_formed_iff. split; [done|]. intros r c Hr Hc.
    rewrite Hcells by lia.
    destruct (well_formed_cell b r c Hwf Hr Hc) as (v & Hv & Hok).
    repeat case_decide; simplify_eq.
    + exists 1. split; [done|].
      rewrite (well_formed_is_hole b r2 c2 0) by done. auto.
    + exists 0. split; [done|].
      rewrite (well_formed_is_hole b mr mc 1) by done. auto.
    + exists 0. split; [done|].
      rewrite (well_formed_is_hole b r1 c1 1) by done. auto.
    + by exists v.
  - done.
  - rewrite Hpc3, Hpc2, Hpc1. unfold is_peg. simpl. lia.
Qed.

(** ** Applying a move *)

Lemma shape_cells (b : grid) : shape b → length (concat b) = 49%nat.
Proof.
  intros [Hlen Hrows].
  do 8 (destruct b as [|? b]; try done).
  repeat match goal with H : Forall _ (_ :: _) |- _ => apply Forall_cons in H as [? H] end.
  simpl. rewrite !length_app. simpl. lia.
Qed.

(** The data of a jump found by the enumeration. *)
Lemma jump_of_geometry (b : grid) (item : Z * (Z * Z)) (d : Z * Z) (m : move) :
  item ∈ index_to_pos → d ∈ DIRECTIONS → jump_of b item d = Some m →
  ∃ r c dr dc,
    item = (m.1, (r, c)) ∧ d = (dr, dc) ∧
    dict_get index_to_pos m.1 = Some (r, c) ∧
    dict_get index_to_pos m.2 = Some (r + 2 * dr, c + 2 * dc) ∧
    (0 ≤ r < 7 ∧ 0 ≤ c < 7) ∧
    (0 ≤ r + dr < 7 ∧ 0 ≤ c + dc < 7) ∧
    (0 ≤ r + 2 * dr < 7 ∧ 0 ≤ c + 2 * dc < 7) ∧
    ((Z.abs dr = 1 ∧ dc = 0) ∨ (dr = 0 ∧ Z.abs dc = 1)) ∧
    Grid.cell b r c = Some 1 ∧
    Grid.cell b (r + dr) (c + dc) = Some 1 ∧
    Grid.cell b (r + 2 * dr) (c + 2 * dc) = Some 0.
Proof.
  destruct item as [frm [r c]], d as [dr dc]. intros Hitem Hd Hj.
  apply jump_of_Some in Hj as (Hpeg & Hrange & Hmid & Hto & Hf & Hidx).
  apply elem_of_DIRECTIONS in Hd.
  assert (dict_get index_to_pos frm = Some (r, c)) as Hpos
    by (apply elem_of_dict_get; [apply index_to_pos_NoDup|done]).
  pose proof (index_to_pos_in_range _ _ _ Hpos) as (_ & Hr & Hc).
  exists r, c, dr, dc. subst frm.
  repeat split; try done; try lia. by apply index_pos_inverse.
Qed.

(** The move applicator on a move the enumeration found: it raises nothing,
    and the child is the board after one jump. *)
Lemma child_board_of_jump (b : grid) (m : move) :
  well_formed b = true → m ∈ jumps b →
  ∃ b', Grid.child_board b m = Some b' ∧ one_jump_on b b'.
Proof.
  intros Hwf (item & d & Hitem & Hd & Hj)%elem_of_jumps.
  destruct (jump_of_geometry b item d m Hitem Hd Hj)
    as (r & c & dr & dc & -> & -> & Hfrm & Hto & [Hr Hc] & [Hmr Hmc] & [Hr2 Hc2]
        & Hdir & Hpeg & Hmid & Hempty).
  destruct (execute_move_spec b r c (r + dr) (c + dc) (r + 2 * dr) (c + 2 * dc))
    as (b' & Hb' & Hwf' & Hcells & Hpc); try done.
  { intros [= ? ?]. lia. }
  { intros [= ? ?]. lia. }
  { intros [= ? ?]. lia. }
  exists b'. split; [|split; [done|split; [done|split]]].
  - destruct m as [frm to]. unfold Grid.child_board. simpl in Hfrm, Hto.
    rewrite Hfrm. simpl. rewrite Hto. simpl.
    replace (r + (r + 2 * dr)) with ((r + dr) * 2) by lia.
    replace (c + (c + 2 * dc)) with ((c + dc) * 2) by lia.
    by rewrite !Z.div_mul.
  - rewrite !shape_cells; [done|by apply well_formed_shape..].
  - intros r' c' Hr' Hc'. rewrite Hcells by done.
    repeat case_decide; simplify_eq; [split; intros [=]; congruence..|done].
Qed.

Lemma mapM_omap_total {A B} (f : A → option B) (l : list A) :
  (∀ x, x ∈ l → is_Some (f x)) → mapM f l = Some (omap f l).
Proof.
  induction l as [|x l IH]; intros Hf; [done|].
  destruct (Hf x) as [y Hy]; [left|].
  simpl. rewrite Hy. simpl. rewrite IH by (intros x' Hx'; apply Hf; by right).
  done.
Qed.

Lemma omap_omap {A B C} (f : A → option B) (g : B → option C) (l : list A) :
  omap g (omap f l) = omap (λ x, f x ≫= g) l.
Proof.
  induction l as [|x l IH]; [done|].
  csimpl. destruct (f x) as [y|]; csimpl; [|done].
  destruct (g y); by rewrite IH.
Qed.

Lemma children_of_moves (b : grid) :
  well_formed b = true → (children_of b).*2 = jumps b.
Proof.
  intros Hwf. unfold children_of.
  assert (∀ m, m ∈ jumps b → is_Some (Grid.child_board b m)) as Hall.
  { intros m Hm. destruct (child_board_of_jump b m Hwf Hm) as (b' & -> & _). by eexists. }
  induction (jumps b) as [|m ms IH]; [done|].
  destruct (Hall m) as [b' Hb']; [left|].
  simpl. rewrite Hb'. simpl. f_equal. apply IH. intros m' Hm'. apply Hall. by right.
Qed.

Lemma children_of_one_jump (b b' : grid) (m : move) :
  well_formed b = true → (b', m) ∈ children_of b →
  m ∈ jumps b ∧ Grid.child_board b m = Some b' ∧ one_jump_on b b'.
Proof.
  intros Hwf (m' & Hm' & Hb')%list_elem_of_omap.
  destruct (child_board_of_jump b m' Hwf Hm') as (b'' & Hb'' & Hjump).
  rewrite Hb'' in Hb'. simpl in Hb'. by simplify_eq.
Qed.

(** [generate_child_boards] of [bfs.py] on a well-formed board. *)
Lemma generate_child_boards_children (b : grid) :
  well_formed b = true → BfsPy.generate_child_boards b = Some (children_of b).
Proof.
  intros Hwf. unfold BfsPy.generate_child_boards.
  rewrite legal_moves_jumps by done. rewrite bind_Some_l.
  rewrite mapM_omap_total.
  - by f_equal.
  - intros m Hm. destruct (child_board_of_jump b m Hwf Hm) as (b' & -> & _). by eexists.
Qed.

Lemma child_board_execute (b : grid) (frm to r c dr dc : Z) :
  dict_get index_to_pos frm = Some (r, c) →
  dict_get index_to_pos to = Some (r + 2 * dr, c + 2 * dc) →
  Grid.child_board b (frm, to)
  = Grid.execute_move b r c (r + dr) (c + dc) (r + 2 * dr) (c + 2 * dc).
Proof.
  intros Hfrm Hto. unfold Grid.child_board. rewrite Hfrm, bind_Some_l, Hto, bind_Some_l.
  replace (r + (r + 2 * dr)) with ((r + dr) * 2) by lia.
  replace (c + (c + 2 * dc)) with ((c + dc) * 2) by lia.
  by rewrite !Z.div_mul.
Qed.

(** ** [generate_successor_states] of [test.py]

    The function enumerates and applies in one pass; it computes what
    [generate_child_boards] computes. *)

Lemma test_try_direction_jump_of (b : grid) (frm r c : Z) (d : Z * Z) :
  well_formed b = true → (frm, (r, c)) ∈ index_to_pos → d ∈ DIRECTIONS →
  Grid.cell b r c = Some 1 →
  TestPy.try_direction b frm r c d
  = Some (option_list (m ← jump_of b (frm, (r, c)) d;
                       b' ← Grid.child_board b m; Some (m.1, m.2, b'))).
Proof.
  intros Hwf Hitem Hd Hpeg.
  destruct (jump_of b (frm, (r, c)) d) as [m|] eqn:Hj.
  - destruct (jump_of_geometry b _ d m Hitem Hd Hj)
      as (r' & c' & dr & dc & [= Hm <- <-] & -> & Hfrm & Hto & [Hr Hc] & [Hmr Hmc]
          & [Hr2 Hc2] & Hdir & _ & Hmid & Hempty).
    destruct m as [frm' to]. simpl in Hm, Hfrm, Hto. subst frm'.
    assert ((frm, to) ∈ jumps b) as Hin.
    { apply elem_of_jumps. by exists (frm, (r, c)), (dr, dc). }
    destruct (child_board_of_jump b (frm, to) Hwf Hin) as (b' & Hb' & _).
    rewrite bind_Some_l, Hb', bind_Some_l. cbn [fst snd option_list].
    rewrite (child_board_execute b frm to r c dr dc) in Hb' by done.
    unfold TestPy.try_direction, ROWS, COLS.
    replace ((0 <=? r + 2 * dr) && (r + 2 * dr <? 7) && (0 <=? c + 2 * dc)
             && (c + 2 * dc <? 7)) with true
      by (symmetry; rewrite !andb_true_iff, !Z.leb_le, !Z.ltb_lt; lia).
    cbn [negb]. rewrite Hmid, bind_Some_l. cbn [Z.eqb Pos.eqb].
    rewrite Hempty, bind_Some_l. cbn [Z.eqb]. rewrite Hb', bind_Some_l.
    apply index_pos_inverse in Hto. by rewrite Hto.
  - simpl. destruct d as [dr dc].
    unfold TestPy.try_direction, ROWS, COLS.
    destruct ((0 <=? r + 2 * dr) && (r + 2 * dr <? 7) && (0 <=? c + 2 * dc)
              && (c + 2 * dc <? 7)) eqn:Hrange; cbn [negb]; [|done].
    rewrite !andb_true_iff, !Z.leb_le, !Z.ltb_lt in Hrange.
    apply elem_of_DIRECTIONS in Hd.
    assert (dict_get index_to_pos frm = Some (r, c)) as Hpos
      by (apply elem_of_dict_get; [apply index_to_pos_NoDup|done]).
    apply index_to_pos_in_range in Hpos as (_ & Hr & Hc).
    destruct (well_formed_cell b (r + dr) (c + dc) Hwf) as (v & Hv & _); [lia..|].
    destruct (well_formed_cell b (r + 2 * dr) (c + 2 * dc) Hwf) as (t & Ht & _); [lia..|].
    rewrite Hv, bind_Some_l. destruct (v =? 1) eqn:Hv1; [|done].
    rewrite Ht, bind_Some_l. destruct (t =? 0) eqn:Ht0; [|done].
    apply Z.eqb_eq in Hv1, Ht0. subst v t. exfalso.
    destruct (well_formed_hole b (r + 2 * dr) (c + 2 * dc) 0 Hwf) as [to Hto];
      [lia|lia|done|auto|].
    assert (jump_of b (frm, (r, c)) (dr, dc) = Some (frm, to)) as Hj'.
    { apply jump_of_Some. repeat split; (done || lia). }
    congruence.
Qed.

Lemma test_successors_from_jump_of (b : grid) (item : Z * (Z * Z)) :
  well_formed b = true → item ∈ index_to_pos →
  TestPy.successors_from b item
  = Some (d ← DIRECTIONS;
          option_list (m ← jump_of b item d;
                       b' ← Grid.child_board b m; Some (m.1, m.2, b'))).
Proof.
  intros Hwf Hitem. destruct item as [frm [r c]].
  assert (dict_get index_to_pos frm = Some (r, c)) as Hpos
    by (apply elem_of_dict_get; [apply index_to_pos_NoDup|done]).
  apply index_to_pos_in_range in Hpos as (_ & Hr & Hc).
  unfold TestPy.successors_from.
  destruct (well_formed_cell b r c Hwf Hr Hc) as (v & Hv & _).
  rewrite Hv, bind_Some_l. destruct (v =? 1) eqn:Hv1; cbn [negb].
  - apply Z.eqb_eq in Hv1 as ->. apply mapM_concat_bind.
    intros d Hd. by apply test_try_direction_jump_of.
  - apply Z.eqb_neq in Hv1. f_equal. symmetry.
    apply (bind_option_list_None
             (λ d, m ← jump_of b (frm, (r, c)) d;
                   b' ← Grid.child_board b m; Some (m.1, m.2, b'))).
    intros [dr dc]. unfold jump_of. rewrite decide_False; [done|].
    rewrite Hv. intros ([= ?] & _). done.
Qed.

(** [generate_successor_states] returns the children of
    [generate_child_boards], in the same order, as (from, to, board). *)
Lemma generate_successor_states_children (b : grid) :
  well_formed b = true →
  TestPy.generate_successor_states b
  = Some ((λ bm, (bm.2.1, bm.2.2, bm.1)) <$> children_of b).
Proof.
  intros Hwf. unfold TestPy.generate_successor_states.
  rewrite (mapM_concat_bind _
             (λ item, d ← DIRECTIONS;
                option_list (m ← jump_of b item d;
                             b' ← Grid.child_board b m; Some (m.1, m.2, b'))))
    by (intros item Hitem; by apply test_successors_from_jump_of).
  f_equal. rewrite (bind_bind_omap (λ item d, m ← jump_of b item d;
                             b' ← Grid.child_board b m; Some (m.1, m.2, b'))).
  unfold children_of, jumps. fold candidates.
  rewrite omap_omap, list_fmap_omap.
  apply list_omap_ext, Forall_Forall2_diag, Forall_forall. intros [item d] _.
  simpl. destruct (jump_of b item d) as [m|]; simpl; [|done].
  by destruct (Grid.child_board b m).
Qed.

(** C2.  For every (well-formed) board [b] and every move [m] of
    [legal_moves b], the board produced by applying [m] has exactly one peg
    fewer than [b], the same total number of cells and the same invalid
    cells.  [generate_child_boards] of [bfs.py] pairs the moves of
    [legal_moves], in order, with these boards, and
    [generate_successor_states] of [test.py] returns the same boards. *)
Theorem child_boards_one_peg_fewer (b : grid) :
  well_formed b = true →
  ∃ ms children,
    Grid.legal_moves b = Some ms ∧
    BfsPy.generate_child_boards b = Some children ∧
    TestPy.generate_successor_states b
      = Some ((λ bm, (bm.2.1, bm.2.2, bm.1)) <$> children) ∧
    children.*2 = ms ∧
    Forall (λ bm,
              Grid.peg_count bm.1 = Grid.peg_count b - 1 ∧
              length (concat bm.1) = length (concat b) ∧
              ∀ r c, 0 ≤ r → 0 ≤ c →
                Grid.cell bm.1 r c = Some (-1) ↔ Grid.cell b r c = Some (-1))
           children.
Proof.
  intros Hwf. exists (jumps b), (children_of b).
  split; [by apply legal_moves_jumps|].
  split; [by apply generate_child_boards_children|].
  split; [by apply generate_successor_states_children|].
  split; [by apply children_of_moves|].
  apply Forall_forall. intros [b' m] Hin.
  apply children_of_one_jump in Hin as (_ & _ & _ & Hpc & Hlen & Hinv); done.
Qed.

Lemma child_boards_one_peg_fewer_witness :
  well_formed board = true ∧
  ∃ ms children,
    Grid.legal_moves board = Some ms ∧
    BfsPy.generate_child_boards board = Some children ∧
    TestPy.generate_successor_states board
      = Some ((λ bm, (bm.2.1, bm.2.2, bm.1)) <$> children) ∧
    children.*2 = ms ∧
    Forall (λ bm,
              Grid.peg_count bm.1 = Grid.peg_count board - 1 ∧
              length (concat bm.1) = length (concat board) ∧
              ∀ r c, 0 ≤ r → 0 ≤ c →
                Grid.cell bm.1 r c = Some (-1) ↔ Grid.cell board r c = Some (-1))
           children.
Proof.
  split; [reflexivity|]. apply (child_boards_one_peg_fewer board). reflexivity.
Defined.

Lemma legal_moves_exactly_legal_witness :
  well_formed board = true ∧
  ∃ ms, Grid.legal_moves board = Some ms ∧
        ∀ frm to, (frm, to) ∈ ms ↔ legal_jump board frm to.
Proof.
  split; [reflexivity|]. apply (legal_moves_exactly_legal board). reflexivity.
Defined.

(** ** The order of the enumeration *)

#[local] Instance from_to_order_dec m1 m2 : Decision (from_to_order m1 m2).
Proof. unfold from_to_order. apply _. Defined.
#[local] Instance candidate_order_dec c1 c2 : Decision (candidate_order c1 c2).
Proof. unfold candidate_order. apply _. Defined.

Lemma candidates_sorted : StronglySorted candidate_order candidates.
Proof. apply (bool_decide_unpack _). by vm_compute. Qed.

Lemma StronglySorted_omap {A B} (R : A → A → Prop) (R' : B → B → Prop)
    (f : A → option B) (l : list A) :
  (∀ x1 x2 y1 y2, x1 ∈ l → x2 ∈ l → R x1 x2 →
                  f x1 = Some y1 → f x2 = Some y2 → R' y1 y2) →
  StronglySorted R l → StronglySorted R' (omap f l).
Proof.
  intros HR Hs. induction Hs as [|x l Hl IH Hx]; [constructor|].
  csimpl. destruct (f x) as [y|] eqn:Hy.
  - constructor.
    + apply IH. intros x1 x2 y1 y2 H1 H2. apply HR; by right.
    + apply List.Forall_forall. intros y' Hy'%list_elem_of_In.
      apply list_elem_of_omap in Hy' as (x' & Hx' & Hfx').
      apply (HR x x' y y'); [left|by right| |done..].
      by apply (proj1 (List.Forall_forall _ _) Hx), list_elem_of_In.
  - apply IH. intros x1 x2 y1 y2 H1 H2. apply HR; by right.
Qed.

(** The direction read off a jump is the direction the loop was in. *)
Lemma jump_of_direction_rank (b : grid) (item : Z * (Z * Z)) (d : Z * Z) (m : move) :
  item ∈ index_to_pos → d ∈ DIRECTIONS → jump_of b item d = Some m →
  m.1 = item.1 ∧ direction_rank m = dir_rank d.
Proof.
  intros Hitem Hd Hj.
  destruct (jump_of_geometry b item d m Hitem Hd Hj)
    as (r & c & dr & dc & -> & -> & Hfrm & Hto & _).
  split; [done|]. unfold direction_rank. rewrite Hfrm, Hto.
  replace (r + 2 * dr - r) with (dr * 2) by lia.
  replace (c + 2 * dc - c) with (dc * 2) by lia.
  by rewrite !Z.div_mul.
Qed.

(** On a well-formed board the moves come in ascending order of [from] and,
    for one [from], in the order of [DIRECTIONS]. *)
Lemma jumps_sorted (b : grid) : StronglySorted from_direction_order (jumps b).
Proof.
  unfold jumps. apply (StronglySorted_omap candidate_order); [|apply candidates_sorted].
  intros [item1 d1] [item2 d2] m1 m2 [H1 H1']%elem_of_candidates
         [H2 H2']%elem_of_candidates Hord Hm1 Hm2.
  apply jump_of_direction_rank in Hm1 as [Hf1 Hr1]; [|done..].
  apply jump_of_direction_rank in Hm2 as [Hf2 Hr2]; [|done..].
  unfold from_direction_order, candidate_order in *. simpl in *.
  rewrite Hf1, Hf2, Hr1, Hr2. done.
Qed.

Lemma successor_moves (kids : list (grid * move)) :
  (λ s : Z * Z * grid, (s.1.1, s.1.2))
    <$> ((λ bm : grid * move, (bm.2.1, bm.2.2, bm.1)) <$> kids)
  = kids.*2.
Proof. induction kids as [|[b' [f t]] l IH]; [done|]. csimpl. by rewrite IH. Qed.

(** C8, as amended.  For every well-formed board the sequence returned by
    [legal_moves] is sorted in ascending order of the [from] hole id, and
    among moves sharing the same [from], in the order of [DIRECTIONS]: up,
    down, left, right.  The successors [generate_successor_states] of
    [test.py] returns carry the same moves in the same order. *)
Theorem legal_moves_sorted_by_from_then_direction (b : grid) :
  well_formed b = true →
  ∃ ms successor_states,
    Grid.legal_moves b = Some ms ∧
    StronglySorted from_direction_order ms ∧
    TestPy.generate_successor_states b = Some successor_states ∧
    (λ s : Z * Z * grid, (s.1.1, s.1.2)) <$> successor_states = ms.
Proof.
  intros Hwf. eexists (jumps b), _. split; [by apply legal_moves_jumps|].
  split; [apply jumps_sorted|].
  split; [by apply generate_successor_states_children|].
  rewrite successor_moves. by apply children_of_moves.
Qed.

Lemma legal_moves_sorted_by_from_then_direction_witness :
  well_formed board_after_three = true ∧
  ∃ ms successor_states,
    Grid.legal_moves board_after_three = Some ms ∧
    StronglySorted from_direction_order ms ∧
    TestPy.generate_successor_states board_after_three = Some successor_states ∧
    (λ s : Z * Z * grid, (s.1.1, s.1.2)) <$> successor_states = ms.
Proof.
  split; [reflexivity|].
  apply (legal_moves_sorted_by_from_then_direction board_after_three). reflexivity.
Defined.

(** C8 as stated fails: after the moves (15, 17), (28, 16), (30, 28) from
    the initial board, [legal_moves] lists (17, 29), the jump down from hole
    17, before (17, 15), the jump left from it. *)
Lemma legal_moves_not_sorted_by_to :
  replay board [(15, 17); (28, 16); (30, 28)] = Some board_after_three ∧
  well_formed board_after_three = true ∧
  Grid.legal_moves board_after_three
    = Some [(9, 23); (17, 29); (17, 15); (18, 30); (21, 23); (25, 23); (31, 23)] ∧
  ¬ StronglySorted from_to_order
      [(9, 23); (17, 29); (17, 15); (18, 30); (21, 23); (25, 23); (31, 23)].
Proof.
  split; [reflexivity|]. split; [reflexivity|]. split; [reflexivity|].
  intros Hs. apply (bool_decide_pack _) in Hs. by vm_compute in Hs.
Qed.

(** ** The interactive legality checks *)

Lemma dict_in_false {K V} `{EqDecision K} (d : list (K * V)) (k : K) :
  dict_in k d = false ↔ dict_get d k = None.
Proof. unfold dict_in. destruct (dict_get d k); split; done. Qed.

Lemma half_of_two_step (x y : Z) :
  Z.abs (y - x) = 2 →
  ∃ d, (y - x) `div` 2 = d ∧ (x + y) `div` 2 = x + d ∧ Z.abs d = 1 ∧ y = x + 2 * d.
Proof.
  intros H. assert (y = x + 2 ∨ y = x - 2) as [-> | ->] by lia.
  - exists 1. replace (x + (x + 2)) with ((x + 1) * 2) by lia.
    replace (x + 2 - x) with (1 * 2) by lia. rewrite !Z.div_mul by done. lia.
  - exists (-1). replace (x + (x - 2)) with ((x - 1) * 2) by lia.
    replace (x - 2 - x) with (-1 * 2) by lia. rewrite !Z.div_mul by done. lia.
Qed.

Lemma half_of_no_step (x : Z) : (x + x) `div` 2 = x.
Proof. replace (x + x) with (x * 2) by lia. by rewrite Z.div_mul. Qed.

(** A move that is no legal jump: the answer [False] is right. *)
Lemma answer_false (b : grid) (frm to : Z) :
  ¬ legal_jump b frm to →
  ∃ v, Some false = Some v ∧ (v = true ↔ legal_jump b frm to).
Proof. intros Hno. exists false. split; [done|]. split; [done|]. intros H. by apply Hno in H. Qed.

(** [is_valid_move] of [soloT2.py] on a well-formed board: it raises nothing
    and answers whether the move is a legal jump. *)
Lemma soloT2_is_valid_move_legal (b : grid) (frm to : Z) :
  well_formed b = true →
  ∃ v, SoloT2.is_valid_move b frm to = Some v ∧ (v = true ↔ legal_jump b frm to).
Proof.
  intros Hwf. unfold SoloT2.is_valid_move.
  destruct (dict_in frm index_to_pos) eqn:Hfrm; cbn [negb orb].
  2:{ apply answer_false. intros (r1 & c1 & r2 & c2 & H1 & _).
      apply dict_in_false in Hfrm. congruence. }
  destruct (dict_in to index_to_pos) eqn:Hto; cbn [negb].
  2:{ apply answer_false. intros (r1 & c1 & r2 & c2 & _ & H2 & _).
      apply dict_in_false in Hto. congruence. }
  apply dict_in_Some in Hfrm as [[r1 c1] Hfrm], Hto as [[r2 c2] Hto].
  rewrite Hfrm, bind_Some_l, Hto, bind_Some_l.
  pose proof (index_to_pos_in_range _ _ _ Hfrm) as (_ & Hr1 & Hc1).
  pose proof (index_to_pos_in_range _ _ _ Hto) as (_ & Hr2 & Hc2).
  destruct (well_formed_cell b r1 c1 Hwf Hr1 Hc1) as (f & Hf & _).
  destruct (well_formed_cell b r2 c2 Hwf Hr2 Hc2) as (t & Ht & _).
  rewrite Hf, bind_Some_l.
  destruct (f =? 1) eqn:Hf1; cbn [negb]; rewrite ?bind_Some_l.
  2:{ apply Z.eqb_neq in Hf1. apply answer_false.
      intros (? & ? & ? & ? & H1 & _ & H3 & _). rewrite Hfrm in H1. simplify_eq. }
  apply Z.eqb_eq in Hf1 as ->.
  rewrite Ht, bind_Some_l. destruct (t =? 0) eqn:Ht0; cbn [negb].
  2:{ apply Z.eqb_neq in Ht0. apply answer_false.
      intros (? & ? & ? & ? & _ & H2 & _ & H4 & _). rewrite Hto in H2. simplify_eq. }
  apply Z.eqb_eq in Ht0 as ->.
  destruct ((Z.abs (r2 - r1) =? 2) && (c2 - c1 =? 0)) eqn:Hvert.
  { apply andb_true_iff in Hvert as [Hdr%Z.eqb_eq Hdc%Z.eqb_eq].
    assert (c2 = c1) as -> by lia.
    destruct (half_of_two_step r1 r2 Hdr) as (d & -> & Hhalf & Hone & Hr2').
    destruct (well_formed_cell b (r1 + d) c1 Hwf) as (m & Hm & _);
      [lia|done|].
    rewrite Hm, bind_Some_l. exists (m =? 1). split; [done|].
    rewrite Z.eqb_eq. split.
    - intros ->. exists r1, c1, r2, c1. repeat split; try done; [right; lia|].
      by rewrite Hhalf, half_of_no_step.
    - intros (? & ? & ? & ? & H1 & H2 & _ & _ & _ & H6).
      rewrite Hfrm in H1. rewrite Hto in H2. simplify_eq.
      rewrite Hhalf, half_of_no_step in H6. congruence. }
  destruct ((Z.abs (c2 - c1) =? 2) && (r2 - r1 =? 0)) eqn:Hhor.
  { apply andb_true_iff in Hhor as [Hdc%Z.eqb_eq Hdr%Z.eqb_eq].
    assert (r2 = r1) as -> by lia.
    destruct (half_of_two_step c1 c2 Hdc) as (d & -> & Hhalf & Hone & Hc2').
    destruct (well_formed_cell b r1 (c1 + d) Hwf) as (m & Hm & _);
      [done|lia|].
    rewrite Hm, bind_Some_l. exists (m =? 1). split; [done|].
    rewrite Z.eqb_eq. split.
    - intros ->. exists r1, c1, r1, c2. repeat split; try done; [left; lia|].
      by rewrite Hhalf, half_of_no_step.
    - intros (? & ? & ? & ? & H1 & H2 & _ & _ & _ & H6).
      rewrite Hfrm in H1. rewrite Hto in H2. simplify_eq.
      rewrite Hhalf, half_of_no_step in H6. congruence. }
  apply answer_false.
  intros (? & ? & ? & ? & H1 & H2 & _ & _ & Hgeo & _).
  rewrite Hfrm in H1. rewrite Hto in H2. simplify_eq.
  rewrite andb_false_iff, !Z.eqb_neq in Hvert, Hhor. lia.
Qed.

Lemma dict_get_is_Some_keys {K V} `{EqDecision K} (d : list (K * V)) (k : K) :
  is_Some (dict_get d k) ↔ k ∈ d.*1.
Proof.
  induction d as [|[k' v'] d IH].
  - split; [by intros [? ?]|]. by intros ?%elem_of_nil.
  - change (dict_get ((k', v') :: d) k)
      with (if decide (k' = k) then Some v' else dict_get d k).
    rewrite fmap_cons, elem_of_cons. simpl. case_decide as Hk.
    + split; [by left|by eexists].
    + rewrite IH. split; [by right|]. by intros [->|?].
Qed.

Lemma state_key_hole (st : list (Z * bool)) (i : Z) :
  well_formed_state st →
  is_Some (dict_get st i) ↔ is_Some (dict_get index_to_pos i).
Proof. intros Hst. rewrite !dict_get_is_Some_keys. by rewrite Hst. Qed.

Lemma state_item (st : list (Z * bool)) (i : Z) (v : bool) :
  well_formed_state st → (i, v) ∈ st ↔ dict_get st i = Some v.
Proof.
  intros Hst. split; [|apply dict_get_elem_of].
  apply elem_of_dict_get. rewrite Hst. apply index_to_pos_NoDup.
Qed.

Lemma state_at_hole (st : list (Z * bool)) (p : Z * Z) (i : Z) :
  well_formed_state st → dict_get pos_to_index p = Some i → is_Some (dict_get st i).
Proof.
  intros Hst Hp. apply state_key_hole; [done|]. destruct p as [r c].
  apply index_pos_inverse in Hp. by eexists.
Qed.

Lemma answer_false_state (st : list (Z * bool)) (frm to : Z) :
  ¬ legal_jump_state st frm to →
  ∃ v, Some false = Some v ∧ (v = true ↔ legal_jump_state st frm to).
Proof. intros Hno. exists false. split; [done|]. split; [done|]. intros H. by apply Hno in H. Qed.

(** [is_valid_move] of [soloT.py]: it raises nothing and answers whether the
    move is a legal jump on the state. *)
Lemma soloT_is_valid_move_legal (st : list (Z * bool)) (frm to : Z) :
  well_formed_state st →
  ∃ v, SoloT.is_valid_move st frm to = Some v ∧ (v = true ↔ legal_jump_state st frm to).
Proof.
  intros Hst. unfold SoloT.is_valid_move.
  destruct (dict_in frm st) eqn:Hfrm; cbn [negb orb].
  2:{ apply answer_false_state. intros (? & ? & ? & ? & ? & _ & _ & H3 & _).
      apply dict_in_false in Hfrm. congruence. }
  destruct (dict_in to st) eqn:Hto; cbn [negb].
  2:{ apply answer_false_state. intros (? & ? & ? & ? & ? & _ & _ & _ & H4 & _).
      apply dict_in_false in Hto. congruence. }
  apply dict_in_Some in Hfrm as Hfrm', Hto as Hto'.
  destruct Hfrm' as [f Hf], Hto' as [t Ht].
  apply dict_in_Some, state_key_hole in Hfrm as [[r1 c1] Hfrm]; [|done].
  apply dict_in_Some, state_key_hole in Hto as [[r2 c2] Hto]; [|done].
  rewrite Hf, bind_Some_l. destruct f; cbn [negb].
  2:{ rewrite bind_Some_l. apply answer_false_state.
      intros (? & ? & ? & ? & ? & _ & _ & H3 & _). congruence. }
  rewrite Ht, bind_Some_l. destruct t.
  { apply answer_false_state. intros (? & ? & ? & ? & ? & _ & _ & _ & H4 & _). congruence. }
  rewrite Hfrm, bind_Some_l, Hto, bind_Some_l.
  destruct ((Z.abs (r2 - r1) =? 2) && (c2 - c1 =? 0)) eqn:Hvert.
  { apply andb_true_iff in Hvert as [Hdr%Z.eqb_eq Hdc%Z.eqb_eq].
    assert (c2 = c1) as -> by lia.
    destruct (half_of_two_step r1 r2 Hdr) as (d & -> & Hhalf & Hone & Hr2').
    destruct (dict_in (r1 + d, c1) pos_to_index) eqn:Hmid; cbn [negb].
    - apply dict_in_Some in Hmid as [mid_idx Hmid]. rewrite Hmid, bind_Some_l.
      destruct (state_at_hole st _ _ Hst Hmid) as [m Hm]. exists m. split; [done|].
      split.
      + intros ->. exists r1, c1, r2, c1, mid_idx. repeat split; try done; [right; lia|].
        by rewrite Hhalf, half_of_no_step.
      + intros (? & ? & ? & ? & mid' & H1 & H2 & _ & _ & _ & H6 & H7).
        rewrite Hfrm in H1. rewrite Hto in H2. simplify_eq.
        rewrite Hhalf, half_of_no_step in H6. congruence.
    - apply answer_false_state.
      intros (? & ? & ? & ? & mid' & H1 & H2 & _ & _ & _ & H6 & _).
      rewrite Hfrm in H1. rewrite Hto in H2. simplify_eq.
      rewrite Hhalf, half_of_no_step in H6. apply dict_in_false in Hmid. congruence. }
  destruct ((Z.abs (c2 - c1) =? 2) && (r2 - r1 =? 0)) eqn:Hhor.
  { apply andb_true_iff in Hhor as [Hdc%Z.eqb_eq Hdr%Z.eqb_eq].
    assert (r2 = r1) as -> by lia.
    destruct (half_of_two_step c1 c2 Hdc) as (d & -> & Hhalf & Hone & Hc2').
    destruct (dict_in (r1, c1 + d) pos_to_index) eqn:Hmid; cbn [negb].
    - apply dict_in_Some in Hmid as [mid_idx Hmid]. rewrite Hmid, bind_Some_l.
      destruct (state_at_hole st _ _ Hst Hmid) as [m Hm]. exists m. split; [done|].
      split.
      + intros ->. exists r1, c1, r1, c2, mid_idx. repeat split; try done; [left; lia|].
        by rewrite Hhalf, half_of_no_step.
      + intros (? & ? & ? & ? & mid' & H1 & H2 & _ & _ & _ & H6 & H7).
        rewrite Hfrm in H1. rewrite Hto in H2. simplify_eq.
        rewrite Hhalf, half_of_no_step in H6. congruence.
    - apply answer_false_state.
      intros (? & ? & ? & ? & mid' & H1 & H2 & _ & _ & _ & H6 & _).
      rewrite Hfrm in H1. rewrite Hto in H2. simplify_eq.
      rewrite Hhalf, half_of_no_step in H6. apply dict_in_false in Hmid. congruence. }
  apply answer_false_state.
  intros (? & ? & ? & ? & ? & H1 & H2 & _ & _ & Hgeo & _).
  rewrite Hfrm in H1. rewrite Hto in H2. simplify_eq.
  rewrite andb_false_iff, !Z.eqb_neq in Hvert, Hhor. lia.
Qed.

(** One direction of one occupied hole in [legal_moves] of [soloT.py]. *)
Lemma soloT_try_direction_spec (st : list (Z * bool)) (i r c : Z) (d : Z * Z) :
  well_formed_state st →
  ∃ ms, SoloT.try_direction st i r c d = Some ms ∧
        ∀ m, m ∈ ms ↔
          m.1 = i ∧
          ∃ mid_idx,
            dict_get pos_to_index (r + d.1, c + d.2) = Some mid_idx ∧
            dict_get pos_to_index (r + 2 * d.1, c + 2 * d.2) = Some m.2 ∧
            dict_get st mid_idx = Some true ∧
            dict_get st m.2 = Some false.
Proof.
  intros Hst. destruct d as [dr dc]. unfold SoloT.try_direction. cbn [fst snd].
  destruct (dict_in (r + dr, c + dc) pos_to_index) eqn:Hmid; cbn [andb].
  2:{ apply dict_in_false in Hmid. exists []. split; [done|]. intros m.
      split; [by intros ?%elem_of_nil|]. intros (_ & ? & H1 & _). congruence. }
  destruct (dict_in (r + 2 * dr, c + 2 * dc) pos_to_index) eqn:Hdest.
  2:{ apply dict_in_false in Hdest. exists []. split; [done|]. intros m.
      split; [by intros ?%elem_of_nil|]. intros (_ & ? & _ & H2 & _). congruence. }
  apply dict_in_Some in Hmid as [mid_idx Hmid], Hdest as [dest_idx Hdest].
  rewrite Hmid, bind_Some_l, Hdest, bind_Some_l.
  destruct (state_at_hole st _ _ Hst Hmid) as [mv Hmv].
  destruct (state_at_hole st _ _ Hst Hdest) as [tv Htv].
  rewrite Hmv, bind_Some_l. destruct mv.
  2:{ exists []. split; [done|]. intros m.
      split; [by intros ?%elem_of_nil|]. intros (_ & ? & H1 & _ & H3 & _). congruence. }
  rewrite Htv, bind_Some_l. destruct tv; cbn [negb].
  { exists []. split; [done|]. intros m.
    split; [by intros ?%elem_of_nil|]. intros (_ & ? & _ & H2 & _ & H4). congruence. }
  exists [(i, dest_idx)]. split; [done|]. intros [f t]. rewrite list_elem_of_singleton.
  cbn [fst snd]. split.
  - intros [= -> ->]. split; [done|]. by exists mid_idx.
  - intros (-> & ? & _ & H2 & _). congruence.
Qed.

(** [legal_moves] of [soloT.py]: it raises nothing and returns exactly the
    legal jumps on the state. *)
Lemma soloT_legal_moves_legal (st : list (Z * bool)) :
  well_formed_state st →
  ∃ ms, SoloT.legal_moves st = Some ms ∧
        ∀ frm to, (frm, to) ∈ ms ↔ legal_jump_state st frm to.
Proof.
  intros Hst. unfold SoloT.legal_moves.
  destruct (mapM_concat_spec (SoloT.moves_from st) st
              (λ item m, legal_jump_state st m.1 m.2 ∧ m.1 = item.1))
    as (yss & Hyss & Hall).
  - intros [i occupied] Hitem. unfold SoloT.moves_from.
    apply state_item in Hitem; [|done].
    destruct occupied; cbn [negb].
    2:{ exists []. split; [done|]. intros m. split; [by intros ?%elem_of_nil|].
        intros [(? & ? & ? & ? & ? & _ & _ & H3 & _) Hm]. simpl in Hm. congruence. }
    destruct (proj1 (state_key_hole st i Hst)) as [[r c] Hpos]; [by eexists|].
    rewrite Hpos, bind_Some_l.
    destruct (mapM_concat_spec (SoloT.try_direction st i r c) DIRECTIONS
                (λ d m, m.1 = i ∧
                   ∃ mid_idx,
                     dict_get pos_to_index (r + d.1, c + d.2) = Some mid_idx ∧
                     dict_get pos_to_index (r + 2 * d.1, c + 2 * d.2) = Some m.2 ∧
                     dict_get st mid_idx = Some true ∧
                     dict_get st m.2 = Some false))
      as (dss & Hdss & Hdall).
    { intros d _. by apply soloT_try_direction_spec. }
    rewrite Hdss. exists (concat dss). split; [done|].
    intros [f t]. rewrite Hdall. cbn [fst snd]. split.
    + intros ([dr dc] & Hd & -> & mid_idx & Hmid & Hdest & Hmv & Htv).
      cbn [fst snd] in *. apply elem_of_DIRECTIONS in Hd. split; [|done].
      exists r, c, (r + 2 * dr), (c + 2 * dc), mid_idx.
      repeat split; try done.
      * by apply index_pos_inverse.
      * lia.
      * replace (r + (r + 2 * dr)) with ((r + dr) * 2) by lia.
        replace (c + (c + 2 * dc)) with ((c + dc) * 2) by lia.
        by rewrite !Z.div_mul.
    + intros [(r1 & c1 & r2 & c2 & mid_idx & H1 & H2 & H3 & H4 & Hgeo & H6 & H7) ->].
      rewrite Hpos in H1. injection H1 as <- <-.
      assert (∃ dr dc, r2 = r + 2 * dr ∧ c2 = c + 2 * dc ∧
                ((Z.abs dr = 1 ∧ dc = 0) ∨ (dr = 0 ∧ Z.abs dc = 1)))
        as (dr & dc & -> & -> & Hd).
      { destruct Hgeo as [[<- Hc]|[<- Hr]].
        - exists 0, (if decide (c < c2) then 1 else -1). case_decide; lia.
        - exists (if decide (r < r2) then 1 else -1), 0. case_decide; lia. }
      replace (r + (r + 2 * dr)) with ((r + dr) * 2) in H6 by lia.
      replace (c + (c + 2 * dc)) with ((c + dc) * 2) in H6 by lia.
      rewrite !Z.div_mul in H6 by done.
      exists (dr, dc). split; [by apply elem_of_DIRECTIONS|]. split; [done|].
      exists mid_idx. cbn [fst snd]. repeat split; try done. by apply index_pos_inverse.
  - rewrite Hyss. exists (concat yss). split; [done|].
    intros frm to. rewrite Hall. cbn [fst snd]. split.
    + by intros (item & _ & H & _).
    + intros H. pose proof H as (? & ? & ? & ? & ? & _ & _ & H3 & _).
      exists (frm, true). split; [by apply state_item|done].
Qed.

(** C10.  The interactive legality check agrees exactly with move
    enumeration, in [soloT.py] over every state [st] and in [soloT2.py] over
    every well-formed board [b]: for every pair (frm, to), [is_valid_move]
    returns [True] if and only if (frm, to) is an element of what
    [legal_moves] returns on that same state (and neither raises). *)
Theorem is_valid_move_agrees_with_legal_moves
    (st : list (Z * bool)) (b : grid) (frm to : Z) :
  well_formed_state st → well_formed b = true →
  (∃ v ms, SoloT.is_valid_move st frm to = Some v ∧
           SoloT.legal_moves st = Some ms ∧
           (v = true ↔ (frm, to) ∈ ms)) ∧
  (∃ v ms, SoloT2.is_valid_move b frm to = Some v ∧
           Grid.legal_moves b = Some ms ∧
           (v = true ↔ (frm, to) ∈ ms)).
Proof.
  intros Hst Hwf. split.
  - destruct (soloT_is_valid_move_legal st frm to Hst) as (v & Hv & Hiff).
    destruct (soloT_legal_moves_legal st Hst) as (ms & Hms & Hall).
    exists v, ms. by rewrite Hiff, Hall.
  - destruct (soloT2_is_valid_move_legal b frm to Hwf) as (v & Hv & Hiff).
    exists v, (jumps b). split; [done|]. split; [by apply legal_moves_jumps|].
    by rewrite Hiff, jumps_exactly_legal.
Qed.

Lemma is_valid_move_agrees_with_legal_moves_witness :
  (well_formed_state SoloT.state ∧ well_formed board = true) ∧
  (∃ v ms, SoloT.is_valid_move SoloT.state 5 17 = Some v ∧
           SoloT.legal_moves SoloT.state = Some ms ∧
           (v = true ↔ (5, 17) ∈ ms)) ∧
  (∃ v ms, SoloT2.is_valid_move board 5 17 = Some v ∧
           Grid.legal_moves board = Some ms ∧
           (v = true ↔ (5, 17) ∈ ms)).
Proof.
  split; [split; reflexivity|].
  apply (is_valid_move_agrees_with_legal_moves SoloT.state board 5 17); reflexivity.
Defined.

(** ** Boards as objects: copies and writes *)

Lemma dict_get_cons {K V} `{EqDecision K} (d : list (K * V)) (k k' : K) (v : V) :
  dict_get ((k', v) :: d) k = if decide (k' = k) then Some v else dict_get d k.
Proof. reflexivity. Qed.

Lemma holds_board_extend (h h' : gmap positive Heap.object) (bl : positive)
    (rows : list positive) (b : grid) :
  holds_board h bl rows b → h ⊆ h' → holds_board h' bl rows b.
Proof.
  intros (Hbl & Hnd & Hrows) Hsub. split; [|split; [done|]].
  - exact (lookup_weaken _ _ _ _ Hbl Hsub).
  - eapply Forall2_impl; [done|]. intros rl cells Hrl.
    exact (lookup_weaken _ _ _ _ Hrl Hsub).
Qed.

Lemma holds_board_load (h : gmap positive Heap.object) (bl : positive)
    (rows : list positive) (b : grid) :
  holds_board h bl rows b → Heap.load h bl = Some b.
Proof.
  intros (Hbl & _ & Hrows). unfold Heap.load, Heap.read_rows. rewrite Hbl, bind_Some_l.
  apply mapM_Some. eapply Forall2_impl; [done|].
  intros rl cells Hrl. unfold Heap.read_row. by rewrite Hrl.
Qed.

(** Copying the rows of a board whose rows are distinct: every row is
    copied to a new address, and no object that was there changes. *)
Lemma deepcopy_rows_spec (rows : list positive) :
  ∀ (h : gmap positive Heap.object) (memo : list (positive * positive)) (b : grid),
    NoDup rows →
    Forall2 (λ rl cells, h !! rl = Some (Heap.ORow cells)) rows b →
    (∀ rl, rl ∈ rows → dict_get memo rl = None) →
    ∃ out h',
      Heap.deepcopy_rows h memo rows = Some (out, h') ∧
      h ⊆ h' ∧ NoDup out ∧ (∀ rl, rl ∈ out → rl ∉ dom h) ∧
      Forall2 (λ rl cells, h' !! rl = Some (Heap.ORow cells)) out b.
Proof.
  induction rows as [|rl rows IH]; intros h memo b Hnd Hrows Hmemo.
  - apply Forall2_nil_inv_l in Hrows as ->. exists [], h.
    split; [done|]. split; [done|]. split; [constructor|]. split; [|constructor].
    by intros ? ?%elem_of_nil.
  - apply Forall2_cons_inv_l in Hrows as (cells & b' & Hrl & Hrows & ->).
    apply NoDup_cons in Hnd as [Hrl_notin Hnd].
    set (rl' := fresh (dom h)).
    assert (h !! rl' = None) as Hfresh by apply not_elem_of_dom, is_fresh.
    assert (h ⊆ <[rl' := Heap.ORow cells]> h) as Hsub1 by by apply insert_subseteq.
    destruct (IH (<[rl' := Heap.ORow cells]> h) ((rl, rl') :: memo) b') as
      (out & h' & Hout & Hsub & Hnd' & Hnew & Hheld).
    + done.
    + eapply Forall2_impl; [done|]. intros r cs Hr.
      exact (lookup_weaken _ _ _ _ Hr Hsub1).
    + intros r Hr. rewrite dict_get_cons, decide_False by (by intros ->).
      apply Hmemo. by right.
    + exists (rl' :: out), h'. split; [|split; [|split; [|split]]].
      * simpl. rewrite Hmemo by left. unfold Heap.read_row. rewrite Hrl, bind_Some_l.
        unfold Heap.alloc. fold rl'. by rewrite Hout.
      * by etrans.
      * apply NoDup_cons. split; [|done]. intros Hin%Hnew.
        apply Hin, elem_of_dom. rewrite lookup_insert_eq. by eexists.
      * intros r [->|Hr]%elem_of_cons; [apply is_fresh|].
        apply Hnew in Hr. intros Hd. apply Hr. rewrite dom_insert_L. set_solver.
      * constructor; [|done]. eapply lookup_weaken; [|done]. apply lookup_insert_eq.
Qed.

(** [copy.deepcopy] of a board: a new board object over new row objects,
    holding the same value; nothing that was there changes. *)
Lemma deepcopy_spec (h : gmap positive Heap.object) (bl : positive)
    (rows : list positive) (b : grid) :
  holds_board h bl rows b →
  ∃ y rows' h',
    Heap.deepcopy h bl = Some (y, h') ∧
    h ⊆ h' ∧ (y ∉ dom h) ∧ (∀ rl, rl ∈ rows' → rl ∉ dom h) ∧
    holds_board h' y rows' b.
Proof.
  intros (Hbl & Hnd & Hrows).
  set (y := fresh (dom h)).
  assert (h !! y = None) as Hfresh by apply not_elem_of_dom, is_fresh.
  assert (h ⊆ <[y := Heap.OBoard []]> h) as Hsub1 by by apply insert_subseteq.
  destruct (deepcopy_rows_spec rows (<[y := Heap.OBoard []]> h) [] b) as
    (out & h2 & Hout & Hsub & Hnd' & Hnew & Hheld).
  { done. }
  { eapply Forall2_impl; [done|]. intros r cs Hr.
    exact (lookup_weaken _ _ _ _ Hr Hsub1). }
  { done. }
  assert (∀ rl, rl ∈ out → rl ≠ y) as Hne.
  { intros rl Hin%Hnew ->. apply Hin, elem_of_dom. rewrite lookup_insert_eq. by eexists. }
  exists y, out, (<[y := Heap.OBoard out]> h2). split; [|split; [|split; [|split]]].
  - unfold Heap.deepcopy, Heap.read_rows. rewrite Hbl, bind_Some_l.
    unfold Heap.alloc. fold y. by rewrite Hout.
  - apply map_subseteq_spec. intros l o Hl.
    rewrite lookup_insert_ne by (intros <-; congruence).
    exact (lookup_weaken _ _ _ _ (lookup_weaken _ _ _ _ Hl Hsub1) Hsub).
  - apply is_fresh.
  - intros rl Hin%Hnew Hd. apply Hin. rewrite dom_insert_L. set_solver.
  - split; [apply lookup_insert_eq|]. split; [done|].
    apply Forall2_same_length_lookup. split; [by eapply Forall2_length|].
    intros i rl cells Hi Hc.
    pose proof (Forall2_lookup_lr _ _ _ i _ _ Hheld Hi Hc) as Hrl. simpl in Hrl.
    rewrite lookup_insert_ne; [done|].
    intros <-. eapply Hne; [|done]. by eapply list_elem_of_lookup_2.
Qed.

(** A write through a board object: it lands in the row object of that row,
    the board then holds what the same write gives on the value, and no
    object outside the board's rows changes. *)
Lemma store_spec (h : gmap positive Heap.object) (bl : positive)
    (rows : list positive) (b b' : grid) (r c v : Z) :
  holds_board h bl rows b → 0 ≤ r →
  Grid.set_cell b r c v = Some b' →
  ∃ h', Heap.store h bl r c v = Some h' ∧
        holds_board h' bl rows b' ∧
        (∀ l, l ∉ rows → h' !! l = h !! l).
Proof.
  intros (Hbl & Hnd & Hrows) Hr Hset.
  unfold Grid.set_cell in Hset. rewrite getitem_nonneg in Hset by done.
  destruct (b !! Z.to_nat r) as [row|] eqn:Hrow; [|done]. rewrite bind_Some_l in Hset.
  destruct (setitem row c v) as [row'|] eqn:Hrow'; [|done]. rewrite bind_Some_l in Hset.
  unfold setitem in Hset. rewrite (proj2 (Z.leb_le 0 r) Hr) in Hset.
  destruct (r <? Z.of_nat (length b)); [|done]. injection Hset as <-.
  destruct (Forall2_lookup_r _ _ _ _ _ Hrows Hrow) as (rl & Hrl & Hobj).
  exists (<[rl := Heap.ORow row']> h). split; [|split].
  - unfold Heap.store, Heap.read_rows. rewrite Hbl, bind_Some_l.
    rewrite getitem_nonneg, Hrl, bind_Some_l by done.
    unfold Heap.read_row. by rewrite Hobj, bind_Some_l, Hrow', bind_Some_l.
  - split; [|split; [done|]].
    + rewrite lookup_insert_ne; [done|]. intros <-. congruence.
    + apply Forall2_same_length_lookup. split.
      { rewrite length_insert. by eapply Forall2_length. }
      intros i x y Hx Hy. destruct (decide (i = Z.to_nat r)) as [->|Hne].
      * rewrite list_lookup_insert_eq in Hy by (by eapply lookup_lt_Some).
        simplify_eq. apply lookup_insert_eq.
      * rewrite list_lookup_insert_ne in Hy by done.
        rewrite lookup_insert_ne.
        { by apply (Forall2_lookup_lr _ _ _ i _ _ Hrows). }
        intros <-. apply Hne. by eapply NoDup_lookup.
  - intros l Hl. rewrite lookup_insert_ne; [done|].
    intros <-. apply Hl. by eapply list_elem_of_lookup_2.
Qed.

Lemma execute_move_heap (h : gmap positive Heap.object) (y : positive)
    (rows : list positive) (b b' : grid) (r1 c1 mr mc r2 c2 : Z) :
  holds_board h y rows b → 0 ≤ r1 → 0 ≤ mr → 0 ≤ r2 →
  Grid.execute_move b r1 c1 mr mc r2 c2 = Some b' →
  ∃ h', Heap.execute_move h y r1 c1 mr mc r2 c2 = Some h' ∧
        holds_board h' y rows b' ∧
        (∀ l, l ∉ rows → h' !! l = h !! l).
Proof.
  intros Hheld Hr1 Hmr Hr2 Hexec. unfold Grid.execute_move in Hexec.
  destruct (Grid.set_cell b r1 c1 0) as [b1|] eqn:Hb1; [|done].
  rewrite bind_Some_l in Hexec.
  destruct (Grid.set_cell b1 mr mc 0) as [b2|] eqn:Hb2; [|done].
  rewrite bind_Some_l in Hexec.
  destruct (store_spec h y rows b b1 r1 c1 0 Hheld Hr1 Hb1) as (h1 & Hs1 & Hheld1 & Hf1).
  destruct (store_spec h1 y rows b1 b2 mr mc 0 Hheld1 Hmr Hb2) as (h2 & Hs2 & Hheld2 & Hf2).
  destruct (store_spec h2 y rows b2 b' r2 c2 1 Hheld2 Hr2 Hexec) as (h3 & Hs3 & Hheld3 & Hf3).
  exists h3. split; [|split; [done|]].
  - unfold Heap.execute_move. by rewrite Hs1, bind_Some_l, Hs2, bind_Some_l.
  - intros l Hl. by rewrite Hf3, Hf2, Hf1.
Qed.

Lemma half_nonneg (x y : Z) : 0 ≤ x → 0 ≤ y → 0 ≤ (x + y) `div` 2.
Proof. intros Hx Hy. apply Z.div_pos; lia. Qed.

(** One child: the copy is a new board over new rows, the jump is written
    into the copy, and no object that was there changes. *)
Lemma child_board_heap (h : gmap positive Heap.object) (bl : positive)
    (rows : list positive) (b b' : grid) (m : move) :
  holds_board h bl rows b →
  Grid.child_board b m = Some b' →
  ∃ y rows' h',
    Heap.child_board h bl m = Some (y, h') ∧
    h ⊆ h' ∧ (y ∉ dom h) ∧ (∀ rl, rl ∈ rows' → rl ∉ dom h) ∧
    holds_board h' y rows' b'.
Proof.
  intros Hheld Hchild. destruct m as [from_idx to_idx].
  unfold Grid.child_board in Hchild.
  destruct (dict_get index_to_pos from_idx) as [[r1 c1]|] eqn:Hfrm; [|done].
  rewrite bind_Some_l in Hchild.
  destruct (dict_get index_to_pos to_idx) as [[r2 c2]|] eqn:Hto; [|done].
  rewrite bind_Some_l in Hchild.
  pose proof (index_to_pos_in_range _ _ _ Hfrm) as (_ & Hr1 & _).
  pose proof (index_to_pos_in_range _ _ _ Hto) as (_ & Hr2 & _).
  destruct (deepcopy_spec h bl rows b Hheld)
    as (y & rows' & h1 & Hcopy & Hsub & Hy & Hnew & Hheld1).
  destruct (execute_move_heap h1 y rows' b b' r1 c1 ((r1 + r2) `div` 2)
              ((c1 + c2) `div` 2) r2 c2 Hheld1) as (h2 & Hexec & Hheld2 & Hframe);
    [lia|apply half_nonneg; lia|lia|done|].
  exists y, rows', h2. split; [|split; [|split; [done|split; [done|done]]]].
  - unfold Heap.child_board.
    by rewrite Hcopy, bind_Some_l, Hfrm, bind_Some_l, Hto, bind_Some_l, Hexec.
  - apply map_subseteq_spec. intros l o Hl. rewrite Hframe.
    + exact (lookup_weaken _ _ _ _ Hl Hsub).
    + intros Hin%Hnew. apply Hin. by eapply elem_of_dom_2.
Qed.

Lemma objects_at_extend (h h' : gmap positive Heap.object) (y : positive) :
  h ⊆ h' → y ∈ dom h → objects_at h' y = objects_at h y.
Proof.
  intros Hsub [o Ho]%elem_of_dom. unfold objects_at.
  by rewrite (lookup_weaken _ _ _ _ Ho Hsub), Ho.
Qed.

Lemma objects_at_holds (h : gmap positive Heap.object) (y : positive)
    (rows : list positive) (b : grid) :
  holds_board h y rows b →
  objects_at h y = y :: rows ∧ NoDup (y :: rows) ∧ ∀ o, o ∈ y :: rows → o ∈ dom h.
Proof.
  intros (Hy & Hnd & Hrows). unfold objects_at. rewrite Hy. split; [done|]. split.
  - apply NoDup_cons. split; [|done]. intros Hin.
    apply list_elem_of_lookup in Hin as [i Hi].
    destruct (Forall2_lookup_l _ _ _ _ _ Hrows Hi) as (cells & _ & Hobj). congruence.
  - intros o [->|Hin]%elem_of_cons; [by eapply elem_of_dom_2|].
    apply list_elem_of_lookup in Hin as [i Hi].
    destruct (Forall2_lookup_l _ _ _ _ _ Hrows Hi) as (cells & _ & Hobj).
    by eapply elem_of_dom_2.
Qed.

(** The loop of [generate_child_boards]: the input board stays as it is,
    every child made so far stays as it is, and each new child is made of
    objects no board before it has. *)
Lemma add_children_spec (h0 : gmap positive Heap.object) (bl : positive)
    (rows : list positive) (b : grid) (ms : list move) :
  ∀ (h : gmap positive Heap.object) (acc : list (positive * move))
    (kids_acc kids : list (grid * move)),
    holds_board h bl rows b → h0 ⊆ h →
    Forall2 (new_board h0 h) acc kids_acc →
    NoDup (acc.*1 ≫= objects_at h) →
    (∀ o, o ∈ acc.*1 ≫= objects_at h → o ∈ dom h) →
    mapM (λ m, new_board ← Grid.child_board b m; Some (new_board, m)) ms = Some kids →
    ∃ children h',
      foldl (Heap.add_child bl) (Some (acc, h)) ms = Some (children, h') ∧
      h ⊆ h' ∧
      Forall2 (new_board h0 h') children (kids_acc ++ kids) ∧
      NoDup (children.*1 ≫= objects_at h').
Proof.
  induction ms as [|m ms IH]; intros h acc kids_acc kids Hheld Hsub0 Hacc Hnd Hdom Hkids.
  - injection Hkids as <-. exists acc, h. rewrite app_nil_r. done.
  - simpl in Hkids.
    destruct (Grid.child_board b m) as [b1|] eqn:Hb1; [|done]. simpl in Hkids.
    destruct (mapM _ ms) as [kids'|] eqn:Hkids'; [|done]. injection Hkids as <-.
    destruct (child_board_heap h bl rows b b1 m Hheld Hb1)
      as (y & rows1 & h1 & Hchild & Hsub & Hy & Hnew & Hheld1).
    destruct (objects_at_holds h1 y rows1 b1 Hheld1) as (Hobjs & Hnd1 & Hdom1).
    assert (acc.*1 ≫= objects_at h1 = acc.*1 ≫= objects_at h) as Hsame.
    { apply Forall_bind_ext, Forall_forall. intros l Hl.
      apply objects_at_extend; [done|]. apply Hdom.
      apply list_elem_of_bind. exists l. split; [|done].
      unfold objects_at. destruct (h !! l) as [[|]|]; left. }
    destruct (IH h1 (acc ++ [(y, m)]) (kids_acc ++ [(b1, m)]) kids')
      as (children & h' & Hfold & Hsub' & Hall & Hnd').
    + by eapply holds_board_extend.
    + by etrans.
    + apply Forall2_app.
      * eapply Forall2_impl; [done|]. intros lm bm (Hm & rows' & Hh & Hfresh).
        split; [done|]. exists rows'. split; [|done]. by eapply holds_board_extend.
      * constructor; [|constructor]. split; [done|]. exists rows1. split; [done|].
        split.
        -- intros Hin. apply Hy. by apply (subseteq_dom h0 h Hsub0).
        -- intros rl Hrl Hin. apply (Hnew rl Hrl). by apply (subseteq_dom h0 h Hsub0).
    + rewrite fmap_app, bind_app, Hsame. simpl. rewrite app_nil_r, Hobjs.
      apply NoDup_app. split; [done|]. split; [|done].
      intros o Ho%Hdom [->|Hin]%elem_of_cons; [done|]. by apply (Hnew o).
    + rewrite fmap_app, bind_app, Hsame. simpl. rewrite app_nil_r, Hobjs.
      intros o [Ho|Ho]%elem_of_app; [|by apply Hdom1].
      by apply (subseteq_dom h h1 Hsub), Hdom.
    + done.
    + exists children, h'. split; [|split; [by etrans|split; [|done]]].
      * change (foldl (Heap.add_child bl) (Heap.add_child bl (Some (acc, h)) m) ms
                = Some (children, h')).
        assert (Heap.add_child bl (Some (acc, h)) m = Some (acc ++ [(y, m)], h1)) as ->;
          [|done].
        unfold Heap.add_child. rewrite bind_Some_l. cbv beta iota.
        by rewrite Hchild.
      * by rewrite <-app_assoc in Hall.
Qed.

(** ** [generate_successor_states] of [test.py] on the heap *)

Lemma getitem_Forall2 {A B} (R : A → B → Prop) (l : list A) (k : list B) (i : Z) :
  Forall2 R l k → option_Forall2 R (getitem l i) (getitem k i).
Proof.
  intros H. unfold getitem. rewrite <-(Forall2_length _ _ _ H).
  destruct (0 <=? i); [by apply Forall2_lookup|].
  destruct (- Z.of_nat (length l) <=? i); [by apply Forall2_lookup|constructor].
Qed.

(** Reading a cell through the board object reads the cell of the value. *)
Lemma read_cell_heap (h : gmap positive Heap.object) (bl : positive)
    (rows : list positive) (b : grid) (r c : Z) :
  holds_board h bl rows b → Heap.read_cell h bl r c = Grid.cell b r c.
Proof.
  intros (Hbl & _ & Hrows). unfold Heap.read_cell, Grid.cell, Heap.read_rows.
  rewrite Hbl, bind_Some_l.
  pose proof (getitem_Forall2 _ rows b r Hrows) as H.
  destruct (getitem rows r) as [rl|], (getitem b r) as [cells|]; inversion H; subst; [|done].
  rewrite !bind_Some_l. unfold Heap.read_row.
  match goal with Hrl : h !! rl = _ |- _ => by rewrite Hrl, bind_Some_l end.
Qed.

(** The copy and the three writes of one jump. *)
Lemma copy_and_jump_heap (h : gmap positive Heap.object) (bl : positive)
    (rows : list positive) (b b' : grid) (r1 c1 mr mc r2 c2 : Z) :
  holds_board h bl rows b → 0 ≤ r1 → 0 ≤ mr → 0 ≤ r2 →
  Grid.execute_move b r1 c1 mr mc r2 c2 = Some b' →
  ∃ y rows' h1 h2,
    Heap.deepcopy h bl = Some (y, h1) ∧
    Heap.execute_move h1 y r1 c1 mr mc r2 c2 = Some h2 ∧
    h ⊆ h2 ∧ (y ∉ dom h) ∧ (∀ rl, rl ∈ rows' → rl ∉ dom h) ∧
    holds_board h2 y rows' b'.
Proof.
  intros Hheld Hr1 Hmr Hr2 Hexec.
  destruct (deepcopy_spec h bl rows b Hheld)
    as (y & rows' & h1 & Hcopy & Hsub & Hy & Hnew & Hheld1).
  destruct (execute_move_heap h1 y rows' b b' r1 c1 mr mc r2 c2 Hheld1)
    as (h2 & Hexec2 & Hheld2 & Hframe); [done..|].
  exists y, rows', h1, h2. split; [done|]. split; [done|].
  split; [|done].
  apply map_subseteq_spec. intros l o Hl. rewrite Hframe.
  - exact (lookup_weaken _ _ _ _ Hl Hsub).
  - intros Hin%Hnew. apply Hin. by eapply elem_of_dom_2.
Qed.

(** One more child keeps the state of the loop. *)
Lemma children_inv_snoc (h0 h h1 : gmap positive Heap.object) (bl : positive)
    (rows : list positive) (b : grid)
    (acc : list (positive * move)) (kids : list (grid * move))
    (y : positive) (rows1 : list positive) (b1 : grid) (m : move) :
  children_inv h0 h bl rows b acc kids →
  h ⊆ h1 → (y ∉ dom h) → (∀ rl, rl ∈ rows1 → rl ∉ dom h) →
  holds_board h1 y rows1 b1 →
  children_inv h0 h1 bl rows b (acc ++ [(y, m)]) (kids ++ [(b1, m)]).
Proof.
  intros (Hheld & Hsub0 & Hacc & Hnd & Hdom) Hsub Hy Hnew Hheld1.
  destruct (objects_at_holds h1 y rows1 b1 Hheld1) as (Hobjs & Hnd1 & Hdom1).
  assert (acc.*1 ≫= objects_at h1 = acc.*1 ≫= objects_at h) as Hsame.
  { apply Forall_bind_ext, Forall_forall. intros l Hl.
    apply objects_at_extend; [done|]. apply Hdom.
    apply list_elem_of_bind. exists l. split; [|done].
    unfold objects_at. destruct (h !! l) as [[|]|]; left. }
  split; [by eapply holds_board_extend|]. split; [by etrans|].
  split; [|split].
  - apply Forall2_app.
    + eapply Forall2_impl; [done|]. intros lm bm (Hm & rows' & Hh & Hfresh).
      split; [done|]. exists rows'. split; [|done]. by eapply holds_board_extend.
    + constructor; [|constructor]. split; [done|]. exists rows1. split; [done|].
      split.
      * intros Hin. apply Hy. by apply (subseteq_dom h0 h Hsub0).
      * intros rl Hrl Hin. apply (Hnew rl Hrl). by apply (subseteq_dom h0 h Hsub0).
  - rewrite fmap_app, bind_app, Hsame. simpl. rewrite app_nil_r, Hobjs.
    apply NoDup_app. split; [done|]. split; [|done].
    intros o Ho%Hdom [->|Hin]%elem_of_cons; [done|]. by apply (Hnew o).
  - rewrite fmap_app, bind_app, Hsame. simpl. rewrite app_nil_r, Hobjs.
    intros o [Ho|Ho]%elem_of_app; [|by apply Hdom1].
    by apply (subseteq_dom h h1 Hsub), Hdom.
Qed.

(** One pass of the loop over [DIRECTIONS]: what it appends on the heap are
    new boards for what it appends on the values. *)
Lemma heap_try_direction_spec (h0 h : gmap positive Heap.object) (bl : positive)
    (rows : list positive) (b : grid)
    (acc : list (Z * Z * positive)) (kids new : list (Z * Z * grid))
    (frm r c : Z) (d : Z * Z) :
  children_inv h0 h bl rows b (as_child <$> acc) (as_child <$> kids) →
  0 ≤ r → d ∈ DIRECTIONS →
  TestPy.try_direction b frm r c d = Some new →
  ∃ acc' h',
    Heap.try_direction bl frm r c (acc, h) d = Some (acc', h') ∧
    children_inv h0 h' bl rows b (as_child <$> acc') (as_child <$> kids ++ new).
Proof.
  intros Hinv Hr Hd Hnew. destruct d as [dr dc].
  apply elem_of_DIRECTIONS in Hd.
  pose proof Hinv as (Hheld & _).
  unfold TestPy.try_direction in Hnew. unfold Heap.try_direction. cbv zeta in Hnew |- *.
  destruct (negb _) eqn:Hb.
  { injection Hnew as <-. exists acc, h. by rewrite app_nil_r. }
  apply negb_false_iff in Hb. rewrite !andb_true_iff in Hb.
  destruct Hb as [[[Hr2%Z.leb_le _] _] _].
  rewrite !(read_cell_heap h bl rows b) by done.
  destruct (Grid.cell b (r + dr) (c + dc)) as [j|]; [|done].
  rewrite bind_Some_l in Hnew. rewrite bind_Some_l.
  destruct (j =? 1).
  2: { injection Hnew as <-. exists acc, h. by rewrite app_nil_r. }
  destruct (Grid.cell b (r + 2 * dr) (c + 2 * dc)) as [t|]; [|done].
  rewrite bind_Some_l in Hnew. rewrite bind_Some_l.
  destruct (t =? 0).
  2: { injection Hnew as <-. exists acc, h. by rewrite app_nil_r. }
  destruct (Grid.execute_move b r c (r + dr) (c + dc) (r + 2 * dr) (c + 2 * dc))
    as [b'|] eqn:Hexec; [|done].
  rewrite bind_Some_l in Hnew.
  destruct (dict_get pos_to_index (r + 2 * dr, c + 2 * dc)) as [to|] eqn:Hto; [|done].
  rewrite bind_Some_l in Hnew. injection Hnew as <-.
  destruct (copy_and_jump_heap h bl rows b b' r c (r + dr) (c + dc)
              (r + 2 * dr) (c + 2 * dc) Hheld)
    as (y & rows' & h1 & h2 & Hcopy & Hexec2 & Hsub & Hy & Hfresh & Hheld2);
    [lia..|done|].
  exists (acc ++ [(frm, to, y)]), h2. split.
  - rewrite Hcopy, bind_Some_l. cbv beta iota. by rewrite Hexec2, bind_Some_l.
  - rewrite !fmap_app. by apply (children_inv_snoc h0 h h2 bl rows b _ _ y rows' b').
Qed.

Lemma mapM_cons_Some {A B} (f : A → option B) (x : A) (l : list A) (ys : list B) :
  mapM f (x :: l) = Some ys →
  ∃ y ys', f x = Some y ∧ mapM f l = Some ys' ∧ ys = y :: ys'.
Proof.
  change (mapM f (x :: l)) with (y ← f x; k ← mapM f l; mret (y :: k)).
  destruct (f x) as [y|]; [|done]. rewrite bind_Some_l.
  destruct (mapM f l) as [ys'|]; [|done]. rewrite bind_Some_l.
  intros [= <-]. by exists y, ys'.
Qed.

(** A loop whose passes append to the children on the heap what a pass on
    the values appends keeps the state of the loop. *)
Lemma for_each_children {X} (h0 : gmap positive Heap.object) (bl : positive)
    (rows : list positive) (b : grid)
    (body : list (Z * Z * positive) * gmap positive Heap.object → X →
            option (list (Z * Z * positive) * gmap positive Heap.object))
    (f : X → option (list (Z * Z * grid))) (l : list X) :
  (∀ x h acc kids new,
     x ∈ l →
     children_inv h0 h bl rows b (as_child <$> acc) (as_child <$> kids) →
     f x = Some new →
     ∃ acc' h',
       body (acc, h) x = Some (acc', h') ∧
       children_inv h0 h' bl rows b (as_child <$> acc') (as_child <$> kids ++ new)) →
  ∀ h acc kids news,
    children_inv h0 h bl rows b (as_child <$> acc) (as_child <$> kids) →
    mapM f l = Some news →
    ∃ acc' h',
      for_each body (acc, h) l = Some (acc', h') ∧
      children_inv h0 h' bl rows b (as_child <$> acc') (as_child <$> kids ++ concat news).
Proof.
  induction l as [|x l IH]; intros Hbody h acc kids news Hinv Hnews.
  - injection Hnews as <-. exists acc, h. simpl. by rewrite app_nil_r.
  - apply mapM_cons_Some in Hnews as (new & news' & Hx & Hrest & ->).
    destruct (Hbody x h acc kids new) as (acc1 & h1 & Hstep & Hinv1); [left|done..|].
    destruct (IH (λ x' h' acc' kids' new' Hx', Hbody x' h' acc' kids' new'
                    (list_elem_of_further _ _ _ Hx'))
                 h1 acc1 (kids ++ new) news' Hinv1 Hrest)
      as (acc' & h' & Hrun & Hinv').
    exists acc', h'. split.
    + cbn [for_each]. by rewrite Hstep, bind_Some_l.
    + simpl. by rewrite app_assoc.
Qed.

Lemma heap_successors_from_spec (h0 h : gmap positive Heap.object) (bl : positive)
    (rows : list positive) (b : grid)
    (acc : list (Z * Z * positive)) (kids new : list (Z * Z * grid))
    (item : Z * (Z * Z)) :
  item ∈ index_to_pos →
  children_inv h0 h bl rows b (as_child <$> acc) (as_child <$> kids) →
  TestPy.successors_from b item = Some new →
  ∃ acc' h',
    Heap.successors_from bl (acc, h) item = Some (acc', h') ∧
    children_inv h0 h' bl rows b (as_child <$> acc') (as_child <$> kids ++ new).
Proof.
  intros Hitem Hinv Hnew. destruct item as [frm [r c]].
  assert (dict_get index_to_pos frm = Some (r, c)) as Hpos
    by (apply elem_of_dict_get; [apply index_to_pos_NoDup|done]).
  apply index_to_pos_in_range in Hpos as (_ & Hr & _).
  pose proof Hinv as (Hheld & _).
  unfold TestPy.successors_from in Hnew. unfold Heap.successors_from. cbn [snd].
  rewrite (read_cell_heap h bl rows b) by done.
  destruct (Grid.cell b r c) as [v|]; [|done].
  rewrite bind_Some_l in Hnew. rewrite bind_Some_l.
  destruct (negb (v =? 1)).
  - injection Hnew as <-. exists acc, h. by rewrite app_nil_r.
  - destruct (mapM (TestPy.try_direction b frm r c) DIRECTIONS) as [news|] eqn:Hnews;
      [|done].
    injection Hnew as <-.
    apply (for_each_children h0 bl rows b _ (TestPy.try_direction b frm r c));
      [|done..].
    intros d h1 acc1 kids1 new1 Hd Hinv1 Hd1.
    apply (heap_try_direction_spec h0 h1 bl rows b); [done|lia|done..].
Qed.

Lemma as_child_children (kids : list (grid * move)) :
  as_child <$> ((λ bm : grid * move, (bm.2.1, bm.2.2, bm.1)) <$> kids) = kids.
Proof. induction kids as [|[b' [f t]] l IH]; [done|]. csimpl. by rewrite IH. Qed.

(** [generate_successor_states] of [test.py]: every successor is made on a
    copy. *)
Lemma heap_generate_successor_states_spec (h : gmap positive Heap.object)
    (bl : positive) (rows : list positive) (b : grid) :
  holds_board h bl rows b → well_formed b = true →
  ∃ states h',
    Heap.generate_successor_states h bl = Some (states, h') ∧
    children_inv h h' bl rows b (as_child <$> states) (children_of b).
Proof.
  intros Hheld Hwf. pose proof (generate_successor_states_children b Hwf) as Hgen.
  unfold TestPy.generate_successor_states in Hgen.
  destruct (mapM (TestPy.successors_from b) index_to_pos) as [news|] eqn:Hnews; [|done].
  injection Hgen as Hgen.
  destruct (for_each_children h bl rows b (Heap.successors_from bl)
              (TestPy.successors_from b) index_to_pos) with (h := h) (acc := @nil (Z * Z * positive))
              (kids := @nil (Z * Z * grid)) (news := news)
    as (states & h' & Hrun & Hinv).
  - intros item h1 acc1 kids1 new1 Hitem Hinv1 Hnew1.
    by apply (heap_successors_from_spec h h1 bl rows b).
  - split; [done|]. split; [done|]. split; [constructor|]. split; [constructor|].
    by intros o Ho%elem_of_nil.
  - done.
  - exists states, h'. split; [done|].
    simpl in Hinv. by rewrite Hgen, as_child_children in Hinv.
Qed.

(** C3.  Move application during search is pure.  For every well-formed
    board held by a board object at [bl], [generate_child_boards] of [bfs.py]
    and [generate_successor_states] of [test.py] apply each legal move to a
    copy: every object of the heap they were called in, the input board and
    its rows among them, is left as it was, cell for cell; each child is a
    new board object over new row objects, holding the board value of that
    move; and no two children share an object. *)
Theorem generate_child_boards_leaves_input_unchanged
    (h : gmap positive Heap.object) (bl : positive) (rows : list positive) (b : grid) :
  holds_board h bl rows b → well_formed b = true →
  (∃ children h',
     Heap.generate_child_boards h bl = Some (children, h') ∧
     (∀ l o, h !! l = Some o → h' !! l = Some o) ∧
     Heap.load h' bl = Some b ∧
     Forall2 (new_board h h') children (children_of b) ∧
     NoDup (children.*1 ≫= objects_at h')) ∧
  (∃ successor_states h',
     Heap.generate_successor_states h bl = Some (successor_states, h') ∧
     (∀ l o, h !! l = Some o → h' !! l = Some o) ∧
     Heap.load h' bl = Some b ∧
     Forall2 (new_board h h') (as_child <$> successor_states) (children_of b) ∧
     NoDup (successor_states.*2 ≫= objects_at h')).
Proof.
  intros Hheld Hwf. split.
  - pose proof (generate_child_boards_children b Hwf) as Hkids.
    unfold BfsPy.generate_child_boards in Hkids.
    rewrite legal_moves_jumps, bind_Some_l in Hkids by done.
    destruct (add_children_spec h bl rows b (jumps b) h [] [] (children_of b))
      as (children & h' & Hfold & Hsub & Hall & Hnd); try done.
    { constructor. }
    { by intros o ?%elem_of_nil. }
    exists children, h'. split; [|split; [|split; [|done]]].
    + unfold Heap.generate_child_boards.
      rewrite (holds_board_load h bl rows b Hheld), bind_Some_l.
      by rewrite legal_moves_jumps, bind_Some_l.
    + intros l o Hl. exact (lookup_weaken _ _ _ _ Hl Hsub).
    + apply (holds_board_load h' bl rows). by eapply holds_board_extend.
  - destruct (heap_generate_successor_states_spec h bl rows b Hheld Hwf)
      as (states & h' & Hrun & Hheld' & Hsub & Hall & Hnd & _).
    exists states, h'. split; [done|]. split; [|split; [|split; [done|]]].
    + intros l o Hl. exact (lookup_weaken _ _ _ _ Hl Hsub).
    + by apply (holds_board_load h' bl rows).
    + by rewrite <-list_fmap_compose in Hnd.
Qed.

Lemma initial_heap_holds_board :
  holds_board initial_heap 8 [1; 2; 3; 4; 5; 6; 7]%positive board.
Proof.
  split; [reflexivity|]. split.
  - apply (bool_decide_unpack _). reflexivity.
  - repeat constructor.
Defined.

Lemma generate_child_boards_leaves_input_unchanged_witness :
  (holds_board initial_heap 8 [1; 2; 3; 4; 5; 6; 7]%positive board ∧
   well_formed board = true) ∧
  (∃ children h',
     Heap.generate_child_boards initial_heap 8 = Some (children, h') ∧
     (∀ l o, initial_heap !! l = Some o → h' !! l = Some o) ∧
     Heap.load h' 8 = Some board ∧
     Forall2 (new_board initial_heap h') children (children_of board) ∧
     NoDup (children.*1 ≫= objects_at h')) ∧
  (∃ successor_states h',
     Heap.generate_successor_states initial_heap 8 = Some (successor_states, h') ∧
     (∀ l o, initial_heap !! l = Some o → h' !! l = Some o) ∧
     Heap.load h' 8 = Some board ∧
     Forall2 (new_board initial_heap h') (as_child <$> successor_states)
       (children_of board) ∧
     NoDup (successor_states.*2 ≫= objects_at h')).
Proof.
  split; [split; [apply initial_heap_holds_board|reflexivity]|].
  apply (generate_child_boards_leaves_input_unchanged
           initial_heap 8 [1; 2; 3; 4; 5; 6; 7]%positive board).
  - apply initial_heap_holds_board.
  - reflexivity.
Defined.

(** ** Search loops *)

Section loops.
Context {S A : Type} (body : S → step S A) (I : S → Prop).
Hypothesis I_step : ∀ s s', I s → body s = Continue s' → I s'.

(** A run that came to its end left the loop from a state the invariant
    holds in. *)
Lemma loop_finished (fuel : nat) (s : S) (a : A) :
  I s → loop body fuel s = Finished a → ∃ s', I s' ∧ body s' = Break a.
Proof using I_step.
  revert s. induction fuel as [|fuel IH]; intros s Hs; [done|].
  simpl. destruct (body s) as [s'| a' |] eqn:Hbody; [|intros [= ->]; eauto|done].
  apply IH. by eapply I_step.
Qed.

Lemma loop_raised (fuel : nat) (s : S) :
  I s → loop body fuel s = Raised → ∃ s', I s' ∧ body s' = Raise.
Proof using I_step.
  revert s. induction fuel as [|fuel IH]; intros s Hs; [done|].
  simpl. destruct (body s) as [s'| a' |] eqn:Hbody; [|done|eauto].
  apply IH. by eapply I_step.
Qed.

Lemma passes_invariant (n : nat) (s s' : S) :
  I s → passes body n s = Some s' → I s'.
Proof using I_step.
  revert s. induction n as [|n IH]; intros s Hs; simpl; [by intros [= <-]|].
  destruct (body s) as [s1| |] eqn:Hbody; [|done..].
  apply IH. by eapply I_step.
Qed.

(** With a measure that every pass lowers, a run with more fuel than the
    measure is not cut short. *)
Lemma loop_terminates (μ : S → nat) :
  (∀ s s', I s → body s = Continue s' → (μ s' < μ s)%nat) →
  ∀ fuel s, I s → (μ s < fuel)%nat → loop body fuel s ≠ OutOfFuel.
Proof using I_step.
  intros Hμ fuel. induction fuel as [|fuel IH]; intros s Hs Hlt; [lia|].
  simpl. destruct (body s) as [s'| a' |] eqn:Hbody; [|done..].
  apply IH; [by eapply I_step|]. specialize (Hμ s s' Hs Hbody). lia.
Qed.
End loops.

(** More fuel does not change the end of a run. *)
Lemma loop_fuel_mono {S A} (body : S → step S A) (fuel fuel' : nat) (s : S) (r : run A) :
  loop body fuel s = r → r ≠ OutOfFuel → (fuel ≤ fuel')%nat → loop body fuel' s = r.
Proof.
  revert fuel' s. induction fuel as [|fuel IH]; intros fuel' s Hr Hne Hle.
  - simpl in Hr. by subst r.
  - destruct fuel' as [|fuel']; [lia|]. simpl in *.
    destruct (body s); [|done..]. apply IH; [done..|lia].
Qed.

(** ** Move sequences *)

Lemma legal_jump_jumps (b : grid) (m : move) :
  well_formed b = true → legal_jump b m.1 m.2 ↔ m ∈ jumps b.
Proof.
  intros _. destruct m as [f t]. by rewrite jumps_exactly_legal.
Qed.

Lemma reaches_snoc (b b1 b2 : grid) (ms : list move) (m : move) :
  reaches b ms b1 → legal_jump b1 m.1 m.2 → Grid.child_board b1 m = Some b2 →
  reaches b (ms ++ [m]) b2.
Proof.
  intros Hr Hm Hb2. induction Hr as [b|b ba b' m' ms Hm' Hba Hr IH]; simpl.
  - econstructor; [done..|constructor].
  - econstructor; [done..|]. by apply IH.
Qed.

(** Replaying a legal sequence with the move applicator gives the board it
    reaches. *)
Lemma reaches_replay (b b' : grid) (ms : list move) :
  reaches b ms b' → replay b ms = Some b'.
Proof.
  induction 1 as [b|b b1 b' m ms Hm Hb1 Hr IH]; [done|].
  simpl. by rewrite Hb1.
Qed.

(** Every legal move takes one peg off a well-formed board. *)
Lemma reaches_peg_count (b b' : grid) (ms : list move) :
  well_formed b = true → reaches b ms b' →
  well_formed b' = true ∧
  Grid.peg_count b' = Grid.peg_count b - Z.of_nat (length ms).
Proof.
  intros Hwf Hr. induction Hr as [b|b b1 b' m ms Hm Hb1 Hr IH].
  - split; [done|]. simpl. lia.
  - apply legal_jump_jumps in Hm; [|done].
    destruct (child_board_of_jump b m Hwf Hm) as (b1' & Hb1' & Hwf1 & Hpc & _).
    rewrite Hb1 in Hb1'. injection Hb1' as <-.
    destruct (IH Hwf1) as [Hwf' Hpc']. split; [done|].
    rewrite Hpc', Hpc. simpl length. lia.
Qed.

(** ** The termination measure *)

Lemma sumZ_nonneg (l : list Z) : Forall (λ x, 0 ≤ x) l → 0 ≤ sumZ l.
Proof. induction 1 as [|x l Hx Hl IH]; [done|]. unfold sumZ in *. simpl. lia. Qed.

Lemma peg_count_nonneg (b : grid) : 0 ≤ Grid.peg_count b.
Proof.
  rewrite peg_count_rows. apply sumZ_nonneg, Forall_fmap, Forall_forall.
  intros row _. simpl. apply sumZ_nonneg, Forall_fmap, Forall_forall.
  intros cell _. simpl. unfold is_peg. by destruct (cell =? 1).
Qed.

Lemma length_omap_le {A B} (f : A → option B) (l : list A) :
  (length (omap f l) ≤ length l)%nat.
Proof.
  induction l as [|x l IH]; [done|]. csimpl. destruct (f x); simpl; lia.
Qed.

Lemma children_of_length (b : grid) : (length (children_of b) ≤ 132)%nat.
Proof.
  unfold children_of, jumps.
  etrans; [apply length_omap_le|]. etrans; [apply length_omap_le|]. done.
Qed.

Lemma total_weight_app (l k : list grid) :
  total_weight (l ++ k) = (total_weight l + total_weight k)%nat.
Proof. apply sum_list_with_app. Qed.

Lemma total_weight_const (bs : list grid) (w : nat) :
  Forall (λ b, weight b = w) bs → total_weight bs = (length bs * w)%nat.
Proof.
  induction 1 as [|b bs Hb Hbs IH]; [done|].
  unfold total_weight in *. simpl. rewrite IH, Hb. lia.
Qed.

(** The children of a board together weigh less than the board. *)
Lemma children_weight (b : grid) :
  well_formed b = true → (total_weight (children_of b).*1 < weight b)%nat.
Proof.
  intros Hwf. pose proof (children_of_length b) as Hlen.
  pose proof (peg_count_nonneg b) as Hpc.
  destruct (children_of b) as [|[b1 m1] kids] eqn:Hkids.
  { unfold total_weight, weight. simpl. apply Nat.neq_0_lt_0, Nat.pow_nonzero. lia. }
  assert (1 ≤ Grid.peg_count b) as Hpos.
  { assert ((b1, m1) ∈ children_of b) as Hin by (rewrite Hkids; left).
    apply children_of_one_jump in Hin as (_ & _ & _ & Hpc1 & _); [|done].
    pose proof (peg_count_nonneg b1). lia. }
  rewrite <-Hkids.
  rewrite (total_weight_const _ (133 ^ (Z.to_nat (Grid.peg_count b) - 1))%nat).
  - rewrite length_fmap. unfold weight.
    replace (Z.to_nat (Grid.peg_count b)) with (S (Z.to_nat (Grid.peg_count b) - 1)) at 2
      by lia.
    rewrite Nat.pow_succ_r'.
    assert (0 < 133 ^ (Z.to_nat (Grid.peg_count b) - 1))%nat
      by (apply Nat.neq_0_lt_0, Nat.pow_nonzero; lia).
    pose proof (children_of_length b) as Hlen'.
    set (w := (133 ^ (Z.to_nat (Grid.peg_count b) - 1))%nat) in *.
    set (n := length (children_of b)) in *. nia.
  - apply Forall_fmap, Forall_forall. intros [b' m] Hin. simpl.
    apply children_of_one_jump in Hin as (_ & _ & _ & Hpc' & _); [|done].
    unfold weight. rewrite Hpc'. f_equal. lia.
Qed.

(** ** The breadth-first search of [test.py] *)

Lemma total_weight_sublist (l k : list grid) :
  sublist l k → (total_weight l ≤ total_weight k)%nat.
Proof.
  induction 1 as [|x l k Hs IH|x l k Hs IH]; [done|..];
    unfold total_weight in *; simpl; lia.
Qed.

(** The loop over the successors: the nodes appended are those of a
    sub-sequence of the successors, their keys are new and distinct, and
    they are what the visited set gains. *)
Lemma visit_fold (seq : list move) (succs : list (Z * Z * grid)) :
  ∀ s : TestPy.search,
  ∃ added,
    sublist added succs ∧
    TestPy.frontier_queue (foldl (TestPy.visit seq) s succs)
      = TestPy.frontier_queue s ++ ((λ x, (x.2, seq ++ [x.1])) <$> added) ∧
    TestPy.dequeued (foldl (TestPy.visit seq) s succs) = TestPy.dequeued s ∧
    NoDup ((λ x, Grid.serialize x.2) <$> added) ∧
    (∀ x, x ∈ added → Grid.serialize x.2 ∉ TestPy.visited_boards s) ∧
    (∀ k, k ∈ TestPy.visited_boards (foldl (TestPy.visit seq) s succs) ↔
          k ∈ TestPy.visited_boards s ∨ k ∈ (λ x, Grid.serialize x.2) <$> added).
Proof.
  induction succs as [|[[f t] b] succs IH]; intros s.
  - exists []. simpl. rewrite app_nil_r.
    split; [constructor|]. split; [done|]. split; [done|]. split; [apply NoDup_nil_2|].
    split.
    + by intros x ?%elem_of_nil.
    + intros k. split; [by left|]. by intros [?|?%elem_of_nil].
  - simpl. unfold TestPy.visit at 2. case_decide as Hnew.
    + set (s1 := TestPy.Search _ _ _).
      destruct (IH s1) as (added & Hsub & Hq & Hd & Hnd & Hfresh & Hvis).
      exists ((f, t, b) :: added). split; [by constructor|]. split; [|split; [done|split; [|split]]].
      * rewrite Hq. simpl. by rewrite <-app_assoc.
      * simpl. apply NoDup_cons. split; [|done].
        intros (x & Hx & Hin)%list_elem_of_fmap. apply (Hfresh x Hin).
        simpl. rewrite <-Hx. by apply elem_of_union_l, elem_of_singleton.
      * intros x [->|Hin]%elem_of_cons; [done|].
        intros Hk. apply (Hfresh x Hin). simpl. by apply elem_of_union_r.
      * intros k. rewrite Hvis. simpl.
        rewrite elem_of_cons, elem_of_union, elem_of_singleton. tauto.
    + destruct (IH s) as (added & Hsub & Hq & Hd & Hnd & Hfresh & Hvis).
      exists added. split; [by constructor|]. done.
Qed.

Lemma goal_reached_spec (b : grid) :
  well_formed b = true →
  ∃ v, TestPy.goal_reached b = Some v ∧ (v = true → Grid.peg_count b = 1).
Proof.
  intros Hwf. unfold TestPy.goal_reached.
  destruct (Grid.peg_count b =? 1) eqn:Hpc.
  - destruct (well_formed_cell b 3 3 Hwf) as (c & Hc & _); [lia..|].
    unfold Grid.cell in Hc.
    destruct (getitem b 3) as [row|]; [|done].
    rewrite bind_Some_l in Hc. rewrite bind_Some_l.
    rewrite Hc, bind_Some_l. exists (c =? 1). split; [done|].
    intros _. by apply Z.eqb_eq.
  - exists false. done.
Qed.

Lemma test_inv_start (b0 : grid) :
  well_formed b0 = true → test_inv b0 (TestPy.start b0).
Proof.
  intros Hwf. unfold TestPy.start, test_inv. simpl. split; [|split].
  - constructor; [|constructor]. split; [done|constructor].
  - apply NoDup_singleton.
  - intros b ->%list_elem_of_singleton. set_solver.
Qed.

(** One pass of the loop keeps the invariant and lowers the measure. *)
Lemma test_body_continue (b0 : grid) (s s' : TestPy.search) :
  test_inv b0 s → TestPy.BFS_body s = Continue s' →
  test_inv b0 s' ∧
  (total_weight (TestPy.frontier_queue s').*1
   < total_weight (TestPy.frontier_queue s).*1)%nat.
Proof.
  intros (Hq & Hnd & Hvis) Hbody. unfold TestPy.BFS_body in Hbody.
  destruct (TestPy.frontier_queue s) as [|[cur seq] rest] eqn:Hqueue; [done|].
  apply Forall_cons in Hq as [[Hwf Hreach] Hrest]. simpl in Hwf, Hreach.
  destruct (TestPy.goal_reached cur) as [[|]|]; [done| |done].
  rewrite generate_successor_states_children in Hbody by done.
  injection Hbody as <-.
  set (s1 := TestPy.Search rest (TestPy.visited_boards s) (TestPy.dequeued s ++ [cur])).
  set (succs := (λ bm : grid * move, (bm.2.1, bm.2.2, bm.1)) <$> children_of cur).
  destruct (visit_fold seq succs s1) as (added & Hsub & Hq' & Hd' & Hnd' & Hfresh & Hvis').
  assert (∀ x, x ∈ added →
            well_formed x.2 = true ∧ reaches b0 (seq ++ [x.1]) x.2) as Hadded.
  { intros x Hx. apply (elem_of_sublist _ _ _ Hx) in Hsub as Hx'. clear Hx.
    rename Hx' into Hx.
    apply list_elem_of_fmap in Hx as ([b' m] & -> & Hin). simpl.
    apply children_of_one_jump in Hin as (Hm & Hb' & Hwf' & _); [|done].
    split; [done|]. eapply reaches_snoc; [done| |].
    - apply legal_jump_jumps; [done|]. by destruct m.
    - by destruct m. }
  assert ((TestPy.dequeued s ++ [cur])
            ++ (rest ++ ((λ x : Z * Z * grid, (x.2, seq ++ [x.1])) <$> added)).*1
          = (TestPy.dequeued s ++ ((cur, seq) :: rest).*1)
            ++ ((λ x : Z * Z * grid, x.2) <$> added)) as Hpend.
  { rewrite fmap_app, <-list_fmap_compose. simpl. by rewrite <-!app_assoc. }
  split; [split; [|split]|].
  - rewrite Hq'. simpl. apply Forall_app. split; [done|].
    apply Forall_fmap, Forall_forall. intros x Hx. simpl. by apply Hadded.
  - rewrite Hq', Hd'. simpl. rewrite Hpend, fmap_app.
    apply NoDup_app. split; [done|]. split; [|by rewrite <-list_fmap_compose].
    intros k (b & -> & Hb)%list_elem_of_fmap (x & Hk & Hx)%list_elem_of_fmap.
    apply list_elem_of_fmap in Hx as (x' & -> & Hx').
    apply (Hfresh x' Hx'). simpl. rewrite <-Hk. by apply Hvis.
  - intros b Hb. apply Hvis'. rewrite Hq', Hd' in Hb. simpl in Hb.
    rewrite Hpend in Hb. apply elem_of_app in Hb as [Hb|Hb].
    + left. by apply Hvis.
    + right. apply list_elem_of_fmap in Hb as (x & -> & Hx).
      apply list_elem_of_fmap. by exists x.
  - assert (total_weight ((λ x : Z * Z * grid, (x.2, seq ++ [x.1])) <$> added).*1
            ≤ total_weight (children_of cur).*1)%nat as Hle.
    { apply total_weight_sublist. rewrite <-list_fmap_compose.
      replace (children_of cur).*1 with ((λ x : Z * Z * grid, x.2) <$> succs)
        by (unfold succs; by rewrite <-list_fmap_compose).
      by apply (fmap_sublist (λ x : Z * Z * grid, x.2)). }
    pose proof (children_weight cur Hwf) as Hlt.
    rewrite Hq'. cbn [TestPy.frontier_queue s1].
    rewrite fmap_app, total_weight_app, fmap_cons.
    change (total_weight ((cur, seq).1 :: rest.*1))
      with (weight cur + total_weight rest.*1)%nat.
    lia.
Qed.

Lemma test_body_no_raise (b0 : grid) (s : TestPy.search) :
  test_inv b0 s → TestPy.BFS_body s ≠ Raise.
Proof.
  intros (Hq & _ & _). unfold TestPy.BFS_body.
  destruct (TestPy.frontier_queue s) as [|[cur seq] rest]; [done|].
  apply Forall_cons in Hq as [[Hwf _] _]. simpl in Hwf.
  destruct (goal_reached_spec cur Hwf) as ([|] & -> & _); [done|].
  by rewrite generate_successor_states_children.
Qed.

(** The node the loop ends on: its move sequence reaches its board, which
    is a goal board. *)
Lemma test_body_break (b0 : grid) (s : TestPy.search) (g : grid) (seq : list move) :
  test_inv b0 s → TestPy.BFS_body s = Break (Some (g, seq)) →
  well_formed g = true ∧ reaches b0 seq g ∧ TestPy.goal_reached g = Some true.
Proof.
  intros (Hq & _ & _) Hbody. unfold TestPy.BFS_body in Hbody.
  destruct (TestPy.frontier_queue s) as [|[cur seq'] rest]; [done|].
  apply Forall_cons in Hq as [[Hwf Hreach] _]. simpl in Hwf, Hreach.
  destruct (TestPy.goal_reached cur) as [[|]|] eqn:Hgoal; [|by destruct
    (TestPy.generate_successor_states cur)|done].
  by injection Hbody as -> ->.
Qed.

(** ** The breadth-first search of [bfs.py] *)

Lemma serialize_Key (b : grid) : Grid.serialize b = Grid.Key b.
Proof.
  unfold Grid.serialize. f_equal.
  rewrite <-(list_fmap_id b) at 2. apply list_fmap_ext.
  intros i row _. apply list_fmap_id.
Qed.

#[global] Instance serialize_inj : Inj (=) (=) Grid.serialize.
Proof. intros b1 b2. rewrite !serialize_Key. by intros [= ->]. Qed.

Lemma py_in_grid_key (x : grid) (l : list Grid.key) : py_in x l = false.
Proof. unfold py_in. induction l as [|k l IH]; [done|]. simpl. by rewrite IH. Qed.

Lemma py_in_eq {A} `{EqDecision A} (x : A) (l : list A) :
  existsb (λ y, bool_decide (x = y)) l = bool_decide (x ∈ l).
Proof.
  induction l as [|y l IH]; [done|].
  cbn [existsb]. rewrite IH. destruct (decide (x = y)) as [->|Hne].
  - rewrite bool_decide_eq_true_2 by done. simpl. symmetry.
    apply bool_decide_eq_true. left.
  - rewrite (bool_decide_eq_false_2 (x = y)) by done. simpl.
    apply bool_decide_ext. rewrite elem_of_cons. split; [tauto|].
    by intros [?|?].
Qed.

Lemma py_in_grid (x : grid) (l : list grid) : py_in x l = bool_decide (x ∈ l).
Proof. apply py_in_eq. Qed.

Lemma py_in_key (x : Grid.key) (l : list Grid.key) : py_in x l = bool_decide (x ∈ l).
Proof. apply py_in_eq. Qed.

(** The loop over the children: the boards appended form a sub-sequence of
    the children; they are distinct, none was pending, and none has an
    explored key. *)
Lemma enqueue_children_spec (children : list grid) :
  ∀ g : BfsPy.globals,
  ∃ added,
    sublist added children ∧
    BfsPy.frontier (BfsPy.enqueue_children children g) = BfsPy.frontier g ++ added ∧
    BfsPy.explored (BfsPy.enqueue_children children g) = BfsPy.explored g ∧
    NoDup added ∧
    ∀ b, b ∈ added → (b ∉ BfsPy.frontier g) ∧ (Grid.serialize b ∉ BfsPy.explored g).
Proof.
  induction children as [|child children IH]; intros g.
  - exists []. simpl. rewrite app_nil_r.
    split; [constructor|]. split; [done|]. split; [done|]. split; [apply NoDup_nil_2|].
    by intros b ?%elem_of_nil.
  - change (BfsPy.enqueue_children (child :: children) g)
      with (BfsPy.enqueue_children children
              (if negb (py_in (Grid.serialize child) (BfsPy.explored g))
               then BfsPy.add_to_frontier child g else g)).
    rewrite py_in_key. unfold BfsPy.add_to_frontier.
    rewrite py_in_grid_key, py_in_grid. cbn [negb andb].
    destruct (decide (Grid.serialize child ∈ BfsPy.explored g)) as [Hexp|Hexp].
    { rewrite bool_decide_eq_true_2 by done. cbn [negb].
      destruct (IH g) as (added & Hsub & Hrest). exists added.
      split; [by constructor|done]. }
    rewrite bool_decide_eq_false_2 by done. cbn [negb].
    destruct (decide (child ∈ BfsPy.frontier g)) as [Hpend|Hpend].
    { rewrite bool_decide_eq_true_2 by done. cbn [negb].
      destruct (IH g) as (added & Hsub & Hrest). exists added.
      split; [by constructor|done]. }
    rewrite bool_decide_eq_false_2 by done. cbn [negb].
    destruct (IH (BfsPy.Globals (BfsPy.frontier g ++ [child]) (BfsPy.explored g)))
      as (added & Hsub & Hf & He & Hnd & Hnew).
    simpl in Hf, He, Hnew.
    exists (child :: added). split; [by constructor|]. split; [|split; [done|split]].
    + rewrite Hf. by rewrite <-app_assoc.
    + apply NoDup_cons. split; [|done]. intros Hin.
      destruct (Hnew child Hin) as [Hnot _]. apply Hnot, elem_of_app. right. left.
    + intros b [->|Hb]%elem_of_cons; [done|].
      destruct (Hnew b Hb) as [Hnot Hexp']. split; [|done].
      intros Hin. apply Hnot, elem_of_app. by left.
Qed.

Lemma bfs_inv_start (b0 : grid) :
  well_formed b0 = true → bfs_inv b0 (BfsPy.start b0).
Proof.
  intros Hwf. unfold BfsPy.start, BfsPy.add_to_frontier. simpl.
  rewrite list_fmap_id. split; simpl.
  - constructor; [|constructor]. split; [done|]. exists []. constructor.
  - apply NoDup_singleton.
Qed.

(** One pass of the loop keeps the invariant and lowers the measure. *)
Lemma bfs_body_continue (b0 : grid) (g g' : BfsPy.globals) :
  bfs_inv b0 g → BfsPy.BFS_body g = Continue g' →
  bfs_inv b0 g' ∧
  (total_weight (BfsPy.frontier g') < total_weight (BfsPy.frontier g))%nat.
Proof.
  intros (Hq & Hnd) Hbody. unfold BfsPy.BFS_body in Hbody.
  destruct (BfsPy.frontier g) as [|node rest] eqn:Hfrontier; [done|].
  apply Forall_cons in Hq as [[Hwf [seq Hreach]] Hrest].
  rewrite legal_moves_jumps in Hbody by done.
  destruct (Grid.peg_count node =? 1); [done|].
  rewrite generate_child_boards_children in Hbody by done.
  injection Hbody as <-.
  set (g1 := BfsPy.Globals rest (BfsPy.explored g ++ [Grid.serialize node])).
  destruct (enqueue_children_spec (children_of node).*1 g1)
    as (added & Hsub & Hf & He & Hnd' & Hnew).
  simpl in Hf, He, Hnew.
  split; [split|].
  - rewrite Hf. apply Forall_app. split; [done|]. apply Forall_forall.
    intros b Hb. apply (elem_of_sublist _ _ _ Hb) in Hsub.
    apply list_elem_of_fmap in Hsub as ([b' m] & -> & Hin). simpl.
    apply children_of_one_jump in Hin as (Hm & Hb' & Hwf' & _); [|done].
    split; [done|]. exists (seq ++ [m]).
    eapply reaches_snoc; [done| |done]. by apply legal_jump_jumps.
  - rewrite He, Hf, fmap_app, app_assoc.
    apply NoDup_app. split; [|split].
    + rewrite <-app_assoc. done.
    + intros k Hk (b & -> & Hb)%list_elem_of_fmap.
      destruct (Hnew b Hb) as [Hnot Hexp].
      apply elem_of_app in Hk as [Hk|Hk]; [done|].
      apply list_elem_of_fmap in Hk as (b' & Heq & Hb').
      apply (inj _) in Heq as ->. done.
    + by apply (NoDup_fmap_2 _).
  - rewrite Hf, total_weight_app.
    pose proof (total_weight_sublist _ _ Hsub) as Hle.
    pose proof (children_weight node Hwf) as Hlt.
    change (total_weight (node :: rest)) with (weight node + total_weight rest)%nat.
    lia.
Qed.

Lemma bfs_body_no_raise (b0 : grid) (g : BfsPy.globals) :
  bfs_inv b0 g → BfsPy.BFS_body g ≠ Raise.
Proof.
  intros (Hq & _). unfold BfsPy.BFS_body.
  destruct (BfsPy.frontier g) as [|node rest]; [done|].
  apply Forall_cons in Hq as [[Hwf _] _].
  rewrite legal_moves_jumps by done.
  destruct (Grid.peg_count node =? 1); [done|].
  by rewrite generate_child_boards_children.
Qed.

(** How the loop ends: it returns [None] either way; with an empty frontier
    it prints "No solution found", and it prints "You win" for a board with
    one peg that some legal move sequence reaches. *)
Lemma bfs_body_break (b0 : grid) (g : BfsPy.globals) (o : BfsPy.outcome) :
  bfs_inv b0 g → BfsPy.BFS_body g = Break o →
  BfsPy.returned o = None ∧
  NoDup (BfsPy.explored (BfsPy.final o)) ∧
  match BfsPy.printed o with
  | NoSolutionFound => BfsPy.frontier g = []
  | YouWin =>
      ∃ node seq, last (BfsPy.explored (BfsPy.final o)) = Some (Grid.serialize node) ∧
                  reaches b0 seq node ∧ Grid.peg_count node = 1
  end.
Proof.
  intros (Hq & Hnd) Hbody. unfold BfsPy.BFS_body in Hbody.
  destruct (BfsPy.frontier g) as [|node rest] eqn:Hfrontier.
  { injection Hbody as <-. simpl. split; [done|]. split; [|done].
    by rewrite app_nil_r in Hnd. }
  apply Forall_cons in Hq as [[Hwf [seq Hreach]] Hrest].
  rewrite legal_moves_jumps in Hbody by done.
  destruct (Grid.peg_count node =? 1) eqn:Hpc.
  - injection Hbody as <-. simpl. split; [done|]. split.
    + simpl in Hnd. rewrite cons_middle, app_assoc in Hnd.
      by apply NoDup_app in Hnd as (? & _ & _).
    + exists node, seq. split; [apply last_snoc|]. split; [done|]. by apply Z.eqb_eq.
  - by rewrite generate_child_boards_children in Hbody.
Qed.

(** ** The heuristic order of [HDFS.py] *)

(** The floating-point key 1/(n + 1) is strictly decreasing in [n] over the
    counts a board can have (at most 132 moves): [<] on the keys is [>] on
    the counts. *)
Lemma cost_of_lt (a b : nat) :
  (a ≤ 132)%nat → (b ≤ 132)%nat →
  PrimFloat.ltb (cost_of a) (cost_of b) = (b <? a)%nat.
Proof.
  intros Ha Hb.
  assert (forallb (λ a, forallb (λ b,
            bool_decide (PrimFloat.ltb (cost_of a) (cost_of b) = (b <? a)%nat))
            (seq 0 133)) (seq 0 133) = true) as Hall by (by vm_compute).
  assert (a ∈ seq 0 133) as Ha' by (apply elem_of_seq; lia).
  assert (b ∈ seq 0 133) as Hb' by (apply elem_of_seq; lia).
  apply (forallb_elem_of _ _ _ Hall) in Ha'.
  apply (forallb_elem_of _ _ _ Ha') in Hb'.
  by apply bool_decide_eq_true in Hb'.
Qed.

Section sort_desc.
Context {A : Type} (n : A → nat).

(** Python's sort over the keys [cost_of (n x)] is the insertion by
    descending [n]. *)
Lemma insert_by_key_desc (x : A) (l : list A) :
  (n x ≤ 132)%nat → Forall (λ y, n y ≤ 132)%nat l →
  insert_by_key (cost_of (n x)) x ((λ y, (cost_of (n y), y)) <$> l)
  = (λ y, (cost_of (n y), y)) <$> insert_desc n x l.
Proof.
  intros Hx Hl. induction Hl as [|y l Hy Hl IH]; [done|].
  rewrite fmap_cons. cbn [insert_by_key insert_desc]. rewrite cost_of_lt by done.
  destruct (n x <? n y)%nat; [|done]. by rewrite fmap_cons, IH.
Qed.

Lemma insert_desc_bound (x : A) (l : list A) :
  (n x ≤ 132)%nat → Forall (λ y, n y ≤ 132)%nat l →
  Forall (λ y, n y ≤ 132)%nat (insert_desc n x l).
Proof.
  intros Hx Hl. induction Hl as [|y l Hy Hl IH]; simpl.
  - by apply Forall_singleton.
  - destruct (n x <? n y)%nat.
    + by apply Forall_cons.
    + apply Forall_cons. split; [done|]. by apply Forall_cons.
Qed.

Lemma sorted_by_key_desc (l : list A) :
  Forall (λ y, n y ≤ 132)%nat l →
  sorted_by_key ((λ y, (cost_of (n y), y)) <$> l) = sort_desc n l.
Proof.
  intros Hl. unfold sorted_by_key.
  assert (foldr (λ kx acc, insert_by_key kx.1 kx.2 acc) []
            ((λ y, (cost_of (n y), y)) <$> l)
          = (λ y, (cost_of (n y), y)) <$> sort_desc n l
          ∧ Forall (λ y, n y ≤ 132)%nat (sort_desc n l)) as [-> _].
  { induction Hl as [|x l Hx Hl [IH Hb]]; [by split; [|constructor]|].
    rewrite fmap_cons. cbn [foldr fst snd]. rewrite IH.
    split; [by apply insert_by_key_desc|]. by apply insert_desc_bound. }
  rewrite <-list_fmap_compose. apply list_fmap_id.
Qed.

Lemma insert_desc_perm (x : A) (l : list A) : insert_desc n x l ≡ₚ x :: l.
Proof.
  induction l as [|y l IH]; simpl; [done|].
  destruct (n x <? n y)%nat; [|done]. rewrite IH. apply Permutation_swap.
Qed.

(** The sorted list has the elements of the list. *)
Lemma sort_desc_perm (l : list A) : sort_desc n l ≡ₚ l.
Proof.
  induction l as [|x l IH]; [done|].
  unfold sort_desc in *. simpl. by rewrite insert_desc_perm, IH.
Qed.

Lemma insert_desc_sorted (x : A) (l : list A) :
  StronglySorted (λ y z, n z ≤ n y)%nat l →
  StronglySorted (λ y z, n z ≤ n y)%nat (insert_desc n x l).
Proof.
  induction 1 as [|y l Hl IH Hy]; simpl; [constructor; constructor|].
  destruct (n x <? n y)%nat eqn:Hlt.
  - apply Nat.ltb_lt in Hlt. constructor; [done|].
    rewrite insert_desc_perm. constructor; [lia|done].
  - apply Nat.ltb_ge in Hlt. constructor; [by constructor|].
    constructor; [done|]. eapply List.Forall_impl; [|done]. simpl. lia.
Qed.

(** It is in descending order of [n]. *)
Lemma sort_desc_sorted (l : list A) :
  StronglySorted (λ y z, n z ≤ n y)%nat (sort_desc n l).
Proof.
  induction l as [|x l IH]; [constructor|].
  unfold sort_desc in *. simpl. by apply insert_desc_sorted.
Qed.

Lemma insert_desc_filter (k : nat) (x : A) (l : list A) :
  filter (λ y, n y = k) (insert_desc n x l)
  = filter (λ y, n y = k) (x :: l).
Proof.
  induction l as [|y l IH]; simpl; [done|].
  destruct (n x <? n y)%nat eqn:Hlt; [|done].
  apply Nat.ltb_lt in Hlt.
  rewrite (filter_cons _ y), IH, !(filter_cons _ x), (filter_cons _ y).
  repeat case_decide; (done || lia).
Qed.

(** It is stable: the elements with one count keep their order. *)
Lemma sort_desc_stable (k : nat) (l : list A) :
  filter (λ y, n y = k) (sort_desc n l) = filter (λ y, n y = k) l.
Proof.
  induction l as [|x l IH]; [done|].
  unfold sort_desc in *. simpl.
  by rewrite insert_desc_filter, !(filter_cons _ x), IH.
Qed.
End sort_desc.

(** ** The depth-first search of [HDFS.py] *)

Lemma mapM_fmap_total {A B} (f : A → option B) (g : A → B) (l : list A) :
  (∀ x, x ∈ l → f x = Some (g x)) → mapM f l = Some (g <$> l).
Proof.
  induction l as [|x l IH]; intros Hf; [done|].
  simpl. rewrite (Hf x) by left. simpl.
  rewrite IH by (intros x' Hx'; apply Hf; by right). done.
Qed.

Lemma mobility_jumps (b : grid) :
  well_formed b = true → mobility b = length (jumps b) ∧ (mobility b ≤ 132)%nat.
Proof.
  intros Hwf. unfold mobility. rewrite legal_moves_jumps by done. simpl.
  split; [done|]. unfold jumps. etrans; [apply length_omap_le|]. done.
Qed.

Lemma cost_spec (x : HdfsPy.treenodes) :
  well_formed (HdfsPy.tn_board x) = true →
  HdfsPy.cost x = Some (cost_of (mobility (HdfsPy.tn_board x))).
Proof.
  intros Hwf. unfold HdfsPy.cost, mobility, cost_of.
  by rewrite legal_moves_jumps.
Qed.

(** [heuristic_order] on nodes with well-formed boards: it raises nothing,
    and it returns the reverse of the stable sort by descending number of
    legal moves. *)
Lemma heuristic_order_spec (children : list HdfsPy.treenodes) :
  Forall (λ x, well_formed (HdfsPy.tn_board x) = true) children →
  HdfsPy.heuristic_order children
  = Some (reverse (sort_desc (λ x, mobility (HdfsPy.tn_board x)) children)).
Proof.
  intros Hwf. unfold HdfsPy.heuristic_order.
  rewrite (mapM_fmap_total _ (λ x, (cost_of (mobility (HdfsPy.tn_board x)), x))).
  - rewrite bind_Some_l. do 2 f_equal.
    apply (sorted_by_key_desc (λ x, mobility (HdfsPy.tn_board x))).
    eapply Forall_impl; [done|]. intros x Hx. by apply mobility_jumps.
  - intros x Hx. rewrite cost_spec; [done|].
    by apply (proj1 (Forall_forall _ _) Hwf).
Qed.

(** The children of a node: those of its board, each linked to the node. *)
Lemma hdfs_generate_child_boards (n : HdfsPy.treenodes) :
  well_formed (HdfsPy.tn_board n) = true →
  HdfsPy.generate_child_boards n
  = Some ((λ bm, HdfsPy.Treenodes bm.1 (Some n) (Some bm.2))
            <$> children_of (HdfsPy.tn_board n)).
Proof.
  intros Hwf. unfold HdfsPy.generate_child_boards.
  rewrite legal_moves_jumps, bind_Some_l by done.
  rewrite mapM_omap_total.
  - f_equal. unfold children_of. rewrite list_fmap_omap.
    apply list_omap_ext, Forall_Forall2_diag, Forall_forall. intros m _.
    by destruct (Grid.child_board (HdfsPy.tn_board n) m).
  - intros m Hm.
    destruct (child_board_of_jump _ m Hwf Hm) as (b' & -> & _). by eexists.
Qed.

(** Both membership tests of the loop over the children compare a tuple with
    nodes, or a node with tuples: they never find anything, and every child
    is pushed. *)
Lemma push_children_all (children : list HdfsPy.treenodes) :
  ∀ g, HdfsPy.push_children children g
       = HdfsPy.Globals (HdfsPy.frontier g ++ children)
                        (HdfsPy.chechked_boards g) (HdfsPy.explored g).
Proof.
  assert (∀ (k : Grid.key) (l : list HdfsPy.treenodes), py_in k l = false) as Hkn.
  { intros k l. unfold py_in. induction l as [|y l IH]; [done|]. simpl. by rewrite IH. }
  assert (∀ (x : HdfsPy.treenodes) (l : list Grid.key), py_in x l = false) as Hnk.
  { intros x l. unfold py_in. induction l as [|y l IH]; [done|]. simpl. by rewrite IH. }
  induction children as [|child children IH]; intros g.
  - destruct g. simpl. by rewrite app_nil_r.
  - change (HdfsPy.push_children (child :: children) g)
      with (HdfsPy.push_children children
              (if negb (py_in (Grid.serialize (HdfsPy.tn_board child)) (HdfsPy.explored g))
               then HdfsPy.add_to_frontier child g else g)).
    rewrite Hkn. cbn [negb]. unfold HdfsPy.add_to_frontier. rewrite Hnk. cbn [negb].
    rewrite IH. simpl. by rewrite <-app_assoc.
Qed.

Lemma pop_spec {A} (l : list A) :
  match pop l with
  | None => l = []
  | Some (x, rest) => l = rest ++ [x]
  end.
Proof.
  unfold pop. destruct (reverse l) as [|x r] eqn:Hrev.
  - apply (f_equal reverse) in Hrev. by rewrite reverse_involutive in Hrev.
  - apply (f_equal reverse) in Hrev.
    by rewrite reverse_involutive, reverse_cons in Hrev.
Qed.

(** A node of the search holds a well-formed board, which the moves on the
    way from the root reach; the boards on the way are well formed too. *)
Lemma node_ok_reaches (b0 : grid) (n : HdfsPy.treenodes) :
  well_formed b0 = true → node_ok b0 n →
  well_formed (HdfsPy.tn_board n) = true ∧
  reaches b0 (path_moves n) (HdfsPy.tn_board n) ∧
  Forall (λ step, well_formed (HdfsPy.tn_board step) = true) (HdfsPy.path_to_root n).
Proof.
  intros Hwf Hn. induction Hn as [|p m b' Hp (Hwfp & Hreach & Hpath) Hm Hb'].
  - split; [done|]. split; [constructor|]. by apply Forall_singleton.
  - assert (well_formed b' = true) as Hwf'.
    { apply legal_jump_jumps in Hm; [|done].
      destruct (child_board_of_jump _ m Hwfp Hm) as (b'' & Hb'' & Hwf'' & _).
      congruence. }
    split; [done|]. split.
    + unfold path_moves. simpl. rewrite reverse_cons, bind_app. simpl.
      eapply reaches_snoc; [done..].
    + simpl. by apply Forall_cons.
Qed.

(** [print_path] raises nothing and prints the moves on the way from the
    root. *)
Lemma print_path_spec (b0 : grid) (n : HdfsPy.treenodes) :
  well_formed b0 = true → node_ok b0 n →
  HdfsPy.print_path n = Some (path_moves n).
Proof.
  intros Hwf Hn. destruct (node_ok_reaches b0 n Hwf Hn) as (_ & _ & Hpath).
  unfold HdfsPy.print_path, path_moves. apply mapM_concat_bind.
  intros step Hstep. rewrite elem_of_reverse in Hstep.
  pose proof (proj1 (Forall_forall _ _) Hpath step Hstep) as Hwfs. simpl in Hwfs.
  rewrite legal_moves_jumps by done.
  rewrite bind_Some_l. by destruct (HdfsPy.tn_move step).
Qed.

Lemma dfs_inv_start (b0 : grid) : dfs_inv b0 (HdfsPy.start b0).
Proof.
  unfold dfs_inv, HdfsPy.start, HdfsPy.add_to_frontier. simpl.
  rewrite list_fmap_id. apply Forall_singleton. constructor.
Qed.

(** One pass of the loop keeps the invariant and lowers the measure. *)
Lemma dfs_body_continue (b0 : grid) (g g' : HdfsPy.globals) :
  well_formed b0 = true → dfs_inv b0 g → HdfsPy.DFS_body g = Continue g' →
  dfs_inv b0 g' ∧
  (total_weight (HdfsPy.tn_board <$> HdfsPy.frontier g')
   < total_weight (HdfsPy.tn_board <$> HdfsPy.frontier g))%nat.
Proof.
  intros Hwf0 Hinv Hbody. unfold dfs_inv in *. unfold HdfsPy.DFS_body in Hbody.
  pose proof (pop_spec (HdfsPy.frontier g)) as Hpop.
  destruct (pop (HdfsPy.frontier g)) as [[node rest]|]; [|done].
  rewrite Hpop in Hinv |- *. apply Forall_app in Hinv as [Hrest Hnode].
  rewrite Forall_singleton in Hnode.
  destruct (node_ok_reaches b0 node Hwf0 Hnode) as (Hwf & _ & _).
  rewrite legal_moves_jumps in Hbody by done.
  destruct (Grid.peg_count (HdfsPy.tn_board node) =? 1).
  { by destruct (HdfsPy.print_path node). }
  rewrite hdfs_generate_child_boards, bind_Some_l in Hbody by done.
  set (children := (λ bm : grid * move, HdfsPy.Treenodes bm.1 (Some node) (Some bm.2))
                     <$> children_of (HdfsPy.tn_board node)) in *.
  assert (Forall (node_ok b0) children) as Hkids.
  { apply Forall_fmap, Forall_forall. intros [b' m] Hin. simpl.
    apply children_of_one_jump in Hin as (Hm & Hb' & _); [|done].
    constructor; [done| |done]. by apply legal_jump_jumps. }
  rewrite heuristic_order_spec in Hbody.
  2:{ eapply Forall_impl; [done|]. intros x Hx. by apply (node_ok_reaches b0). }
  injection Hbody as <-. rewrite push_children_all. simpl.
  pose proof (sort_desc_perm (λ x, mobility (HdfsPy.tn_board x)) children) as Hperm.
  split.
  - apply Forall_app. split; [done|]. by rewrite reverse_Permutation, Hperm.
  - rewrite !fmap_app, !total_weight_app.
    assert (total_weight
              (HdfsPy.tn_board
                 <$> reverse (sort_desc (λ x, mobility (HdfsPy.tn_board x)) children))
            = total_weight (children_of (HdfsPy.tn_board node)).*1) as ->.
    { unfold total_weight. rewrite reverse_Permutation, Hperm.
      unfold children. by rewrite <-list_fmap_compose. }
    pose proof (children_weight _ Hwf) as Hlt.
    change (total_weight (HdfsPy.tn_board <$> [node]))
      with (weight (HdfsPy.tn_board node) + 0)%nat.
    lia.
Qed.

Lemma dfs_body_no_raise (b0 : grid) (g : HdfsPy.globals) :
  well_formed b0 = true → dfs_inv b0 g → HdfsPy.DFS_body g ≠ Raise.
Proof.
  intros Hwf0 Hinv. unfold dfs_inv in *. unfold HdfsPy.DFS_body.
  pose proof (pop_spec (HdfsPy.frontier g)) as Hpop.
  destruct (pop (HdfsPy.frontier g)) as [[node rest]|]; [|done].
  rewrite Hpop in Hinv. apply Forall_app in Hinv as [Hrest Hnode].
  rewrite Forall_singleton in Hnode.
  destruct (node_ok_reaches b0 node Hwf0 Hnode) as (Hwf & _ & _).
  rewrite legal_moves_jumps by done.
  destruct (Grid.peg_count (HdfsPy.tn_board node) =? 1).
  { by rewrite (print_path_spec b0). }
  rewrite hdfs_generate_child_boards, bind_Some_l by done.
  rewrite heuristic_order_spec; [done|].
  apply Forall_fmap, Forall_forall. intros [b' m] Hin. simpl.
  by apply children_of_one_jump in Hin as (_ & _ & ? & _).
Qed.

(** How the loop ends: it returns [None] either way; with an empty frontier
    it prints "No solution found"; on a node with one peg it prints "You
    win" and then the moves on the way from the root to that node, which is
    the last node explored. *)
Lemma dfs_body_break (b0 : grid) (g : HdfsPy.globals) (o : HdfsPy.outcome) :
  well_formed b0 = true → dfs_inv b0 g → HdfsPy.DFS_body g = Break o →
  HdfsPy.returned o = None ∧
  match HdfsPy.printed o with
  | NoSolutionFound => HdfsPy.frontier g = []
  | YouWin =>
      ∃ node, last (HdfsPy.explored (HdfsPy.final o)) = Some node ∧
              node_ok b0 node ∧
              HdfsPy.printed_path o = path_moves node ∧
              Grid.peg_count (HdfsPy.tn_board node) = 1
  end.
Proof.
  intros Hwf0 Hinv Hbody. unfold dfs_inv in *. unfold HdfsPy.DFS_body in Hbody.
  pose proof (pop_spec (HdfsPy.frontier g)) as Hpop.
  destruct (pop (HdfsPy.frontier g)) as [[node rest]|].
  2:{ injection Hbody as <-. done. }
  rewrite Hpop in Hinv. apply Forall_app in Hinv as [Hrest Hnode].
  rewrite Forall_singleton in Hnode.
  destruct (node_ok_reaches b0 node Hwf0 Hnode) as (Hwf & _ & _).
  rewrite legal_moves_jumps in Hbody by done.
  destruct (Grid.peg_count (HdfsPy.tn_board node) =? 1) eqn:Hpc.
  - rewrite (print_path_spec b0) in Hbody by done. injection Hbody as <-.
    simpl. split; [done|]. exists node. split; [apply last_snoc|].
    split; [done|]. split; [done|]. by apply Z.eqb_eq.
  - by destruct (HdfsPy.generate_child_boards node ≫= HdfsPy.heuristic_order).
Qed.

(** ** Runs of the three searches *)

(** A loop whose passes keep an invariant, lower a measure and raise nothing
    comes to its end. *)
Lemma loop_finishes {S A} (body : S → step S A) (I : S → Prop) (μ : S → nat) :
  (∀ s s', I s → body s = Continue s' → I s' ∧ (μ s' < μ s)%nat) →
  (∀ s, I s → body s ≠ Raise) →
  ∀ s, I s → ∃ a, loop body (Datatypes.S (μ s)) s = Finished a.
Proof.
  intros Hstep Hraise s Hs.
  assert (∀ s s', I s → body s = Continue s' → I s') as Hinv
    by (intros s1 s2 H1 H2; apply (Hstep s1 s2 H1 H2)).
  destruct (loop body (Datatypes.S (μ s)) s) as [a| |] eqn:Hrun.
  - by exists a.
  - apply (loop_raised body I Hinv) in Hrun as (s' & Hs' & Hbody); [|done].
    by apply Hraise in Hs'.
  - exfalso.
    apply (loop_terminates body I Hinv μ
             (λ s1 s2 H1 H2, proj2 (Hstep s1 s2 H1 H2)) (Datatypes.S (μ s)) s Hs);
      [lia|done].
Qed.

(** The end of a run is the break of its last pass. *)
Lemma loop_finished_passes {S A} (body : S → step S A) (fuel : nat) (s : S) (a : A) :
  loop body fuel s = Finished a →
  ∃ n s', passes body n s = Some s' ∧ body s' = Break a.
Proof.
  revert s. induction fuel as [|fuel IH]; intros s; [done|].
  simpl. destruct (body s) as [s1|a'|] eqn:Hbody; [|intros [= ->]|done].
  - intros (n & s' & Hn & Hs')%IH. exists (Datatypes.S n), s'. simpl. by rewrite Hbody.
  - by exists 0%nat, s.
Qed.

Lemma test_inv_step (b0 : grid) (s s' : TestPy.search) :
  test_inv b0 s → TestPy.BFS_body s = Continue s' → test_inv b0 s'.
Proof. intros Hs Hbody. by apply (test_body_continue b0 s s'). Qed.

Lemma bfs_inv_step (b0 : grid) (g g' : BfsPy.globals) :
  bfs_inv b0 g → BfsPy.BFS_body g = Continue g' → bfs_inv b0 g'.
Proof. intros Hg Hbody. by apply (bfs_body_continue b0 g g'). Qed.

Lemma dfs_inv_step (b0 : grid) (g g' : HdfsPy.globals) :
  well_formed b0 = true →
  dfs_inv b0 g → HdfsPy.DFS_body g = Continue g' → dfs_inv b0 g'.
Proof. intros Hwf Hg Hbody. by apply (dfs_body_continue b0 g g'). Qed.

Lemma goal_reached_true (g : grid) :
  TestPy.goal_reached g = Some true → Grid.peg_count g = 1.
Proof.
  unfold TestPy.goal_reached. destruct (Grid.peg_count g =? 1) eqn:Hpc; [|done].
  intros _. by apply Z.eqb_eq.
Qed.

(** The node the loop of [test.py] ends on, read off the value [BFS]
    returns. *)
Lemma test_BFS_Some (fuel : nat) (b0 : grid) (seq : list move) :
  TestPy.BFS fuel b0 = Finished (Some seq) →
  ∃ g, loop TestPy.BFS_body fuel (TestPy.start b0) = Finished (Some (g, seq)).
Proof.
  unfold TestPy.BFS.
  destruct (loop TestPy.BFS_body fuel (TestPy.start b0)) as [[[g seq']|]| |]; try done.
  intros [= ->]. by exists g.
Qed.

Lemma test_loop_goal (fuel : nat) (b0 g : grid) (seq : list move) :
  well_formed b0 = true →
  loop TestPy.BFS_body fuel (TestPy.start b0) = Finished (Some (g, seq)) →
  well_formed g = true ∧ reaches b0 seq g ∧ TestPy.goal_reached g = Some true.
Proof.
  intros Hwf Hrun.
  apply (loop_finished TestPy.BFS_body (test_inv b0)) in Hrun as (s & Hs & Hbody).
  - by apply (test_body_break b0 s).
  - apply test_inv_step.
  - by apply test_inv_start.
Qed.

(** Every legal move sequence from [b0] to a board with one peg has as many
    moves as [b0] has pegs, less one. *)
Lemma solution_length (b0 g : grid) (seq : list move) :
  well_formed b0 = true → reaches b0 seq g → Grid.peg_count g = 1 →
  Z.of_nat (length seq) = Grid.peg_count b0 - 1.
Proof.
  intros Hwf Hreach Hpc.
  destruct (reaches_peg_count b0 g seq Hwf Hreach) as [_ Hcount]. lia.
Qed.

(** C4.  If breadth-first search reports a solution, that solution has the
    minimum number of moves among all move sequences that reach a goal board
    from the initial board.  [BFS] of [test.py] returns the move sequence,
    and its goal is one peg in the centre; [BFS] of [bfs.py] prints "You win"
    for the board it explored last, and its goal is one peg anywhere. *)
Theorem bfs_solution_has_minimum_length (b0 : grid) (fuel : nat) :
  well_formed b0 = true →
  (∀ seq, TestPy.BFS fuel b0 = Finished (Some seq) →
     ∃ g, reaches b0 seq g ∧ TestPy.goal_reached g = Some true ∧
          ∀ seq' g', reaches b0 seq' g' → TestPy.goal_reached g' = Some true →
                     (length seq ≤ length seq')%nat) ∧
  (∀ o, BfsPy.BFS fuel b0 = Finished o → BfsPy.printed o = YouWin →
     ∃ node seq,
       last (BfsPy.explored (BfsPy.final o)) = Some (Grid.serialize node) ∧
       reaches b0 seq node ∧ Grid.peg_count node = 1 ∧
       ∀ seq' g', reaches b0 seq' g' → Grid.peg_count g' = 1 →
                  (length seq ≤ length seq')%nat).
Proof.
  intros Hwf. split.
  - intros seq [g Hrun]%test_BFS_Some.
    destruct (test_loop_goal fuel b0 g seq Hwf Hrun) as (_ & Hreach & Hgoal).
    exists g. split; [done|]. split; [done|].
    intros seq' g' Hreach' Hgoal'.
    pose proof (solution_length b0 g seq Hwf Hreach (goal_reached_true g Hgoal)).
    pose proof (solution_length b0 g' seq' Hwf Hreach' (goal_reached_true g' Hgoal')).
    lia.
  - intros o Hrun Hwin. unfold BfsPy.BFS in Hrun.
    apply (loop_finished BfsPy.BFS_body (bfs_inv b0)) in Hrun as (g & Hg & Hbody);
      [|apply bfs_inv_step|by apply bfs_inv_start].
    destruct (bfs_body_break b0 g o Hg Hbody) as (_ & _ & Hend).
    rewrite Hwin in Hend. destruct Hend as (node & seq & Hlast & Hreach & Hpc).
    exists node, seq. split; [done|]. split; [done|]. split; [done|].
    intros seq' g' Hreach' Hpc'.
    pose proof (solution_length b0 node seq Hwf Hreach Hpc).
    pose proof (solution_length b0 g' seq' Hwf Hreach' Hpc').
    lia.
Qed.

Lemma bfs_solution_has_minimum_length_witness :
  well_formed small_board = true ∧
  TestPy.BFS 10 small_board = Finished (Some [(8, 10); (5, 17)]) ∧
  ∃ g, reaches small_board [(8, 10); (5, 17)] g ∧
       TestPy.goal_reached g = Some true ∧
       ∀ seq' g', reaches small_board seq' g' → TestPy.goal_reached g' = Some true →
                  (length [(8, 10); (5, 17)] ≤ length seq')%nat.
Proof.
  split; [reflexivity|]. split; [reflexivity|].
  apply (bfs_solution_has_minimum_length small_board 10); reflexivity.
Defined.

(** C9.  Path reconstruction is consistent with board semantics: for the
    goal node a search ends on, replaying the reconstructed move sequence
    from the initial board with the move applicator yields exactly that
    node's board.  In [test.py] the sequence is the one the node carries and
    [BFS] returns; in [HDFS.py] it is what [print_path] prints from the
    parent links. *)
Theorem path_replay_reproduces_goal_board (b0 : grid) (fuel : nat) :
  well_formed b0 = true →
  (∀ g seq,
     loop TestPy.BFS_body fuel (TestPy.start b0) = Finished (Some (g, seq)) →
     TestPy.BFS fuel b0 = Finished (Some seq) ∧ replay b0 seq = Some g) ∧
  (∀ o, HdfsPy.DFS fuel b0 = Finished o → HdfsPy.printed o = YouWin →
     ∃ node, last (HdfsPy.explored (HdfsPy.final o)) = Some node ∧
             HdfsPy.print_path node = Some (HdfsPy.printed_path o) ∧
             replay b0 (HdfsPy.printed_path o) = Some (HdfsPy.tn_board node)).
Proof.
  intros Hwf. split.
  - intros g seq Hrun. split; [unfold TestPy.BFS; by rewrite Hrun|].
    destruct (test_loop_goal fuel b0 g seq Hwf Hrun) as (_ & Hreach & _).
    by apply reaches_replay.
  - intros o Hrun Hwin. unfold HdfsPy.DFS in Hrun.
    apply (loop_finished HdfsPy.DFS_body (dfs_inv b0)) in Hrun as (g & Hg & Hbody);
      [|exact (λ g1 g2, dfs_inv_step b0 g1 g2 Hwf)|apply dfs_inv_start].
    destruct (dfs_body_break b0 g o Hwf Hg Hbody) as (_ & Hend).
    rewrite Hwin in Hend. destruct Hend as (node & Hlast & Hnode & Hpath & _).
    exists node. split; [done|]. rewrite Hpath. split; [by apply (print_path_spec b0)|].
    apply reaches_replay. by apply (node_ok_reaches b0).
Qed.

Lemma path_replay_reproduces_goal_board_witness :
  well_formed small_board = true ∧
  (∃ g, loop TestPy.BFS_body 10 (TestPy.start small_board)
          = Finished (Some (g, [(8, 10); (5, 17)])) ∧
        replay small_board [(8, 10); (5, 17)] = Some g) ∧
  (∃ o node, HdfsPy.DFS 10 small_board = Finished o ∧
             last (HdfsPy.explored (HdfsPy.final o)) = Some node ∧
             HdfsPy.printed_path o = [(8, 10); (5, 17)] ∧
             replay small_board (HdfsPy.printed_path o) = Some (HdfsPy.tn_board node)).
Proof.
  split; [reflexivity|].
  destruct (path_replay_reproduces_goal_board small_board 10 eq_refl) as [Hbfs Hdfs].
  split.
  - assert (∃ g, loop TestPy.BFS_body 10 (TestPy.start small_board)
                 = Finished (Some (g, [(8, 10); (5, 17)]))) as [g Hrun]
      by (eexists; vm_compute; reflexivity).
    exists g. split; [done|]. by eapply Hbfs.
  - assert (∃ o, HdfsPy.DFS 10 small_board = Finished o ∧
                 HdfsPy.printed o = YouWin ∧
                 HdfsPy.printed_path o = [(8, 10); (5, 17)])
      as (o & Hrun & Hwin & Hpath)
      by (eexists; split; [vm_compute; reflexivity|split; reflexivity]).
    destruct (Hdfs o Hrun Hwin) as (node & Hlast & _ & Hreplay).
    exists o, node. split; [exact Hrun|]. split; [exact Hlast|].
    split; [exact Hpath|exact Hreplay].
Defined.

Lemma test_BFS_finishes (b0 : grid) :
  well_formed b0 = true → ∃ fuel r, TestPy.BFS fuel b0 = Finished r.
Proof.
  intros Hwf.
  destruct (loop_finishes TestPy.BFS_body (test_inv b0)
              (λ s, total_weight (TestPy.frontier_queue s).*1)
              (test_body_continue b0) (test_body_no_raise b0)
              (TestPy.start b0) (test_inv_start b0 Hwf)) as [a Ha].
  eexists. unfold TestPy.BFS. rewrite Ha. destruct a as [[g seq]|]; by eexists.
Qed.

Lemma test_BFS_no_raise (b0 : grid) (fuel : nat) :
  well_formed b0 = true → TestPy.BFS fuel b0 ≠ Raised.
Proof.
  intros Hwf. unfold TestPy.BFS.
  destruct (loop TestPy.BFS_body fuel (TestPy.start b0)) as [[[g seq]|]| |] eqn:Hrun;
    try done.
  apply (loop_raised TestPy.BFS_body (test_inv b0)) in Hrun as (s & Hs & Hbody);
    [|apply test_inv_step|by apply test_inv_start].
  by apply test_body_no_raise in Hs.
Qed.

Lemma test_BFS_None (b0 : grid) (fuel : nat) :
  TestPy.BFS fuel b0 = Finished None →
  ∃ n s, passes TestPy.BFS_body n (TestPy.start b0) = Some s ∧
         TestPy.frontier_queue s = [].
Proof.
  unfold TestPy.BFS.
  destruct (loop TestPy.BFS_body fuel (TestPy.start b0)) as [[[g seq]|]| |] eqn:Hrun;
    try done.
  intros _. apply loop_finished_passes in Hrun as (n & s & Hn & Hbody).
  exists n, s. split; [done|]. unfold TestPy.BFS_body in Hbody.
  destruct (TestPy.frontier_queue s) as [|[cur seq] rest]; [done|].
  destruct (TestPy.goal_reached cur) as [[|]|]; [done| |done].
  by destruct (TestPy.generate_successor_states cur).
Qed.

Lemma reaches_nil_inv (b g : grid) : reaches b [] g → g = b.
Proof. by inversion 1. Qed.

Lemma bfs_BFS_finishes (b0 : grid) :
  well_formed b0 = true → ∃ fuel o, BfsPy.BFS fuel b0 = Finished o.
Proof.
  intros Hwf.
  destruct (loop_finishes BfsPy.BFS_body (bfs_inv b0)
              (λ g, total_weight (BfsPy.frontier g))
              (bfs_body_continue b0) (bfs_body_no_raise b0)
              (BfsPy.start b0) (bfs_inv_start b0 Hwf)) as [o Ho].
  by eexists _, o.
Qed.

Lemma dfs_DFS_finishes (b0 : grid) :
  well_formed b0 = true → ∃ fuel o, HdfsPy.DFS fuel b0 = Finished o.
Proof.
  intros Hwf.
  destruct (loop_finishes HdfsPy.DFS_body (dfs_inv b0)
              (λ g, total_weight (HdfsPy.tn_board <$> HdfsPy.frontier g))
              (λ g g', dfs_body_continue b0 g g' Hwf)
              (λ g, dfs_body_no_raise b0 g Hwf)
              (HdfsPy.start b0) (dfs_inv_start b0)) as [o Ho].
  by eexists _, o.
Qed.

(** C6, as amended.  Every search entry point comes to its end and raises
    nothing.  [BFS] of [test.py] returns either an ordered sequence of moves
    from the initial board to a goal board, non-empty when the initial board
    is not a goal itself, or [None] when the frontier ran empty.  [BFS] of
    [bfs.py] and [DFS] of [HDFS.py] return [None] however they end: they
    report "You win" and "No solution found" by printing only. *)
Theorem search_entry_points_return (b0 : grid) :
  well_formed b0 = true →
  ((∃ fuel r, TestPy.BFS fuel b0 = Finished r) ∧
   (∀ fuel, TestPy.BFS fuel b0 ≠ Raised) ∧
   (∀ fuel seq, TestPy.BFS fuel b0 = Finished (Some seq) →
      (∃ g, reaches b0 seq g ∧ TestPy.goal_reached g = Some true) ∧
      (TestPy.goal_reached b0 = Some false → seq ≠ [])) ∧
   (∀ fuel, TestPy.BFS fuel b0 = Finished None →
      ∃ n s, passes TestPy.BFS_body n (TestPy.start b0) = Some s ∧
             TestPy.frontier_queue s = [])) ∧
  ((∃ fuel o, BfsPy.BFS fuel b0 = Finished o) ∧
   (∀ fuel, BfsPy.BFS fuel b0 ≠ Raised) ∧
   (∀ fuel o, BfsPy.BFS fuel b0 = Finished o → BfsPy.returned o = None)) ∧
  ((∃ fuel o, HdfsPy.DFS fuel b0 = Finished o) ∧
   (∀ fuel, HdfsPy.DFS fuel b0 ≠ Raised) ∧
   (∀ fuel o, HdfsPy.DFS fuel b0 = Finished o → HdfsPy.returned o = None)).
Proof.
  intros Hwf. split; [|split].
  - split; [by apply test_BFS_finishes|]. split; [intros fuel; by apply test_BFS_no_raise|].
    split; [|intros fuel; apply test_BFS_None].
    intros fuel seq [g Hrun]%test_BFS_Some.
    destruct (test_loop_goal fuel b0 g seq Hwf Hrun) as (_ & Hreach & Hgoal).
    split; [by exists g|]. intros Hnot ->.
    apply reaches_nil_inv in Hreach as ->. congruence.
  - split; [by apply bfs_BFS_finishes|]. split.
    + intros fuel Hrun. unfold BfsPy.BFS in Hrun.
      apply (loop_raised BfsPy.BFS_body (bfs_inv b0)) in Hrun as (g & Hg & Hbody);
        [|apply bfs_inv_step|by apply bfs_inv_start].
      by apply bfs_body_no_raise in Hg.
    + intros fuel o Hrun. unfold BfsPy.BFS in Hrun.
      apply (loop_finished BfsPy.BFS_body (bfs_inv b0)) in Hrun as (g & Hg & Hbody);
        [|apply bfs_inv_step|by apply bfs_inv_start].
      by destruct (bfs_body_break b0 g o Hg Hbody) as (? & _).
  - split; [by apply dfs_DFS_finishes|]. split.
    + intros fuel Hrun. unfold HdfsPy.DFS in Hrun.
      apply (loop_raised HdfsPy.DFS_body (dfs_inv b0)) in Hrun as (g & Hg & Hbody);
        [|exact (λ g1 g2, dfs_inv_step b0 g1 g2 Hwf)|apply dfs_inv_start].
      by apply (dfs_body_no_raise b0) in Hg.
    + intros fuel o Hrun. unfold HdfsPy.DFS in Hrun.
      apply (loop_finished HdfsPy.DFS_body (dfs_inv b0)) in Hrun as (g & Hg & Hbody);
        [|exact (λ g1 g2, dfs_inv_step b0 g1 g2 Hwf)|apply dfs_inv_start].
      by destruct (dfs_body_break b0 g o Hwf Hg Hbody) as (? & _).
Qed.

Lemma search_entry_points_return_witness :
  well_formed board = true ∧
  ((∃ fuel r, TestPy.BFS fuel board = Finished r) ∧
   (∀ fuel, TestPy.BFS fuel board ≠ Raised) ∧
   (∀ fuel seq, TestPy.BFS fuel board = Finished (Some seq) →
      (∃ g, reaches board seq g ∧ TestPy.goal_reached g = Some true) ∧
      (TestPy.goal_reached board = Some false → seq ≠ [])) ∧
   (∀ fuel, TestPy.BFS fuel board = Finished None →
      ∃ n s, passes TestPy.BFS_body n (TestPy.start board) = Some s ∧
             TestPy.frontier_queue s = [])) ∧
  ((∃ fuel o, BfsPy.BFS fuel board = Finished o) ∧
   (∀ fuel, BfsPy.BFS fuel board ≠ Raised) ∧
   (∀ fuel o, BfsPy.BFS fuel board = Finished o → BfsPy.returned o = None)) ∧
  ((∃ fuel o, HdfsPy.DFS fuel board = Finished o) ∧
   (∀ fuel, HdfsPy.DFS fuel board ≠ Raised) ∧
   (∀ fuel o, HdfsPy.DFS fuel board = Finished o → HdfsPy.returned o = None)).
Proof.
  split; [reflexivity|]. apply (search_entry_points_return board). reflexivity.
Defined.

(** C6 as stated fails: on the small board, [BFS] of [bfs.py] and [DFS] of
    [HDFS.py] both end on a board with one peg and print "You win", and both
    return [None], not a sequence of moves. *)
Lemma searches_return_none_on_a_win :
  well_formed small_board = true ∧
  (∃ o, BfsPy.BFS 10 small_board = Finished o ∧
        BfsPy.printed o = YouWin ∧ ¬ ∃ seq, BfsPy.returned o = Some seq) ∧
  (∃ o, HdfsPy.DFS 10 small_board = Finished o ∧
        HdfsPy.printed o = YouWin ∧
        HdfsPy.printed_path o = [(8, 10); (5, 17)] ∧
        ¬ ∃ seq, HdfsPy.returned o = Some seq).
Proof.
  split; [reflexivity|]. split.
  - eexists. split; [vm_compute; reflexivity|]. split; [reflexivity|].
    by intros [seq ?].
  - eexists. split; [vm_compute; reflexivity|]. split; [reflexivity|].
    split; [reflexivity|]. by intros [seq ?].
Qed.

Lemma pop_snoc {A} (l : list A) (x : A) : pop (l ++ [x]) = Some (x, l).
Proof. unfold pop. rewrite reverse_app. simpl. by rewrite reverse_involutive. Qed.

Lemma hdfs_children_moves (n : HdfsPy.treenodes) :
  well_formed (HdfsPy.tn_board n) = true →
  omap HdfsPy.tn_move
       ((λ bm : grid * move, HdfsPy.Treenodes bm.1 (Some n) (Some bm.2))
          <$> children_of (HdfsPy.tn_board n))
  = jumps (HdfsPy.tn_board n).
Proof.
  intros Hwf. rewrite <-(children_of_moves _ Hwf).
  induction (children_of (HdfsPy.tn_board n)) as [|[b m] l IH]; [done|].
  csimpl. by rewrite IH.
Qed.

(** C7, as amended.  In depth-first mode, for every expanded node (a node
    with a well-formed board that is not a goal, on top of the stack), all
    its freshly generated children are pushed, so that they leave the stack
    in the order [order]: children with a greater number of legal moves in
    their board are explored first, and children with equal legal-move counts
    are explored in their original enumeration order, which is ascending
    [from], then the order of [DIRECTIONS]. *)
Theorem heuristic_explores_most_mobile_first
    (node : HdfsPy.treenodes) (rest : list HdfsPy.treenodes)
    (checked : list Grid.key) (explored : list HdfsPy.treenodes) :
  well_formed (HdfsPy.tn_board node) = true →
  Grid.peg_count (HdfsPy.tn_board node) ≠ 1 →
  ∃ children order,
    HdfsPy.generate_child_boards node = Some children ∧
    HdfsPy.DFS_body (HdfsPy.Globals (rest ++ [node]) checked explored)
      = Continue (HdfsPy.Globals (rest ++ reverse order)
                    (checked ++ [Grid.serialize (HdfsPy.tn_board node)])
                    (explored ++ [node])) ∧
    (∀ x order', order = x :: order' →
       pop (rest ++ reverse order) = Some (x, rest ++ reverse order')) ∧
    order ≡ₚ children ∧
    StronglySorted
      (λ x y, mobility (HdfsPy.tn_board y) ≤ mobility (HdfsPy.tn_board x))%nat order ∧
    (∀ k, filter (λ x, mobility (HdfsPy.tn_board x) = k) order
          = filter (λ x, mobility (HdfsPy.tn_board x) = k) children) ∧
    StronglySorted from_direction_order (omap HdfsPy.tn_move children).
Proof.
  intros Hwf Hpc.
  set (children := (λ bm : grid * move, HdfsPy.Treenodes bm.1 (Some node) (Some bm.2))
                     <$> children_of (HdfsPy.tn_board node)).
  set (n := λ x, mobility (HdfsPy.tn_board x)).
  exists children, (sort_desc n children).
  assert (Forall (λ x, well_formed (HdfsPy.tn_board x) = true) children) as Hkids.
  { apply Forall_fmap, Forall_forall. intros [b' m] Hin. simpl.
    by apply children_of_one_jump in Hin as (_ & _ & ? & _). }
  split; [by apply hdfs_generate_child_boards|]. split; [|split; [|split; [|split; [|split]]]].
  - unfold HdfsPy.DFS_body. cbn [HdfsPy.frontier]. rewrite pop_snoc.
    rewrite legal_moves_jumps by done.
    apply Z.eqb_neq in Hpc. rewrite Hpc.
    rewrite hdfs_generate_child_boards, bind_Some_l by done.
    fold children. rewrite heuristic_order_spec by done.
    by rewrite push_children_all.
  - intros x order' ->. by rewrite reverse_cons, app_assoc, pop_snoc.
  - apply sort_desc_perm.
  - apply (sort_desc_sorted n).
  - intros k. apply (sort_desc_stable n).
  - unfold children. rewrite hdfs_children_moves by done. apply jumps_sorted.
Qed.

Lemma heuristic_explores_most_mobile_first_witness :
  (well_formed board = true ∧ Grid.peg_count board ≠ 1) ∧
  ∃ children order,
    HdfsPy.generate_child_boards (HdfsPy.Treenodes board None None) = Some children ∧
    HdfsPy.DFS_body (HdfsPy.Globals ([] ++ [HdfsPy.Treenodes board None None]) [] [])
      = Continue (HdfsPy.Globals ([] ++ reverse order)
                    ([] ++ [Grid.serialize board])
                    ([] ++ [HdfsPy.Treenodes board None None])) ∧
    (∀ x order', order = x :: order' →
       pop ([] ++ reverse order) = Some (x, [] ++ reverse order')) ∧
    order ≡ₚ children ∧
    StronglySorted
      (λ x y, mobility (HdfsPy.tn_board y) ≤ mobility (HdfsPy.tn_board x))%nat order ∧
    (∀ k, filter (λ x, mobility (HdfsPy.tn_board x) = k) order
          = filter (λ x, mobility (HdfsPy.tn_board x) = k) children) ∧
    StronglySorted from_direction_order (omap HdfsPy.tn_move children).
Proof.
  split; [split; [reflexivity|by vm_compute]|].
  apply (heuristic_explores_most_mobile_first (HdfsPy.Treenodes board None None) [] [] []).
  - reflexivity.
  - by vm_compute.
Defined.

(** C7 as stated fails on the run from the initial board.  The fifth node
    [DFS] expands is reached by (5, 17), (8, 10), (23, 9), (25, 23).  Its
    children leave the stack in the order below (move, number of legal
    moves): the children of (10, 24) and (10, 8) both have 11 legal moves, and
    (10, 24), the jump down, is explored before (10, 8), the jump left. *)
Lemma heuristic_ties_not_in_ascending_to_order :
  (g ← passes HdfsPy.DFS_body 4 (HdfsPy.start board);
   '(node, rest) ← pop (HdfsPy.frontier g);
   children ← HdfsPy.generate_child_boards node;
   pushed ← HdfsPy.heuristic_order children;
   Some (path_moves node,
         (λ x : HdfsPy.treenodes,
            (HdfsPy.tn_move x, Z.of_nat (mobility (HdfsPy.tn_board x))))
           <$> reverse pushed))
  = Some ([(5, 17); (8, 10); (23, 9); (25, 23)],
          [(Some (11, 25), 15); (Some (33, 25), 14); (Some (17, 5), 12);
           (Some (27, 25), 12); (Some (32, 24), 12); (Some (10, 24), 11);
           (Some (10, 8), 11); (Some (28, 16), 11); (Some (4, 16), 10);
           (Some (14, 16), 9); (Some (18, 16), 9); (Some (22, 8), 9);
           (Some (22, 24), 9)]) ∧
  ¬ from_to_order (10, 24) (10, 8).
Proof.
  split; [by vm_compute|]. unfold from_to_order. simpl. lia.
Qed.

(** ** No board is expanded twice: the two breadth-first searches *)





(** ** A board expanded twice: the depth-first search

    [add_to_frontier] of [HDFS.py] looks for a node among serialized boards,
    and the loop of [DFS] looks for a serialized board among nodes, so neither
    test ever finds anything and every child is pushed. *)

(** C5 on [DFS] of [HDFS.py], evaluated on the run from the initial board:
    after 35 passes of the loop 35 nodes have been taken from the frontier.
    The 30th and the 35th of them are reached by the same 26 moves followed
    by (9, 23), (24, 26) for the one and by (24, 26), (9, 23) for the other,
    two jumps that do not meet; they hold boards with the same canonical key,
    and so the canonical keys of the dequeued boards are not distinct. *)
Lemma dfs_expands_a_board_twice :
  (g ← passes HdfsPy.DFS_body 35 (HdfsPy.start board);
   n1 ← HdfsPy.explored g !! 29%nat;
   n2 ← HdfsPy.explored g !! 34%nat;
   Some (length (HdfsPy.explored g),
         bool_decide (take 26 (path_moves n1) = take 26 (path_moves n2)),
         drop 26 (path_moves n1), drop 26 (path_moves n2),
         bool_decide (Grid.serialize (HdfsPy.tn_board n1)
                      = Grid.serialize (HdfsPy.tn_board n2)),
         bool_decide (NoDup ((λ n, Grid.serialize (HdfsPy.tn_board n))
                               <$> HdfsPy.explored g))))
  = Some (35%nat, true, [(9, 23); (24, 26)], [(24, 26); (9, 23)], true, false).
Proof. by vm_compute. Qed.

(** * Further properties of the scripts *)

(** ** Sequences of legal moves *)

Lemma legal_replay_reaches (b b' : grid) (ms : list move) :
  well_formed b = true → legal_replay b ms = Some b' → reaches b ms b'.
Proof.
  revert b. induction ms as [|m ms IH]; intros b Hwf Hrun.
  - injection Hrun as <-. constructor.
  - simpl in Hrun. case_bool_decide as Hm; [|done].
    destruct (child_board_of_jump b m Hwf Hm) as (b1 & Hb1 & Hwf1 & _).
    rewrite Hb1, bind_Some_l in Hrun.
    econstructor; [by apply legal_jump_jumps|done|by apply IH].
Qed.

Lemma sumZ_lookup_le (l : list Z) (i : nat) (x : Z) :
  Forall (λ y, 0 ≤ y) l → l !! i = Some x → x ≤ sumZ l.
Proof.
  intros Hl. revert i. induction Hl as [|y l Hy Hl IH]; intros i Hi; [done|].
  change (sumZ (y :: l)) with (y + sumZ l).
  destruct i as [|i]; simpl in Hi.
  - injection Hi as ->. pose proof (sumZ_nonneg l Hl). lia.
  - specialize (IH i Hi). lia.
Qed.

(** A board with a peg somewhere counts at least one peg. *)
Lemma peg_count_cell (b : grid) (r c : Z) :
  0 ≤ r → 0 ≤ c → Grid.cell b r c = Some 1 → 1 ≤ Grid.peg_count b.
Proof.
  intros Hr Hc Hcell. rewrite cell_lookup in Hcell by done.
  destruct (b !! Z.to_nat r) as [row|] eqn:Hrow; [|done]. simpl in Hcell.
  rewrite peg_count_rows.
  etrans; [|apply (sumZ_lookup_le _ (Z.to_nat r) (sumZ (is_peg <$> row)))].
  - apply (sumZ_lookup_le _ (Z.to_nat c) (is_peg 1)).
    + apply Forall_fmap, Forall_forall. intros v _. simpl. unfold is_peg.
      by destruct (v =? 1).
    + by rewrite list_lookup_fmap, Hcell.
  - apply Forall_fmap, Forall_forall. intros row' _. simpl.
    apply sumZ_nonneg, Forall_fmap, Forall_forall. intros v _. simpl. unfold is_peg.
    by destruct (v =? 1).
  - by rewrite list_lookup_fmap, Hrow.
Qed.

(** The child of a jump, cell by cell: a peg where the jump lands, no peg
    where it started and over what it jumped, and every other cell as it
    was. *)
Lemma child_board_cells (b : grid) (m : move) :
  well_formed b = true → m ∈ jumps b →
  ∃ b' r c dr dc,
    dict_get index_to_pos m.1 = Some (r, c) ∧
    dict_get index_to_pos m.2 = Some (r + 2 * dr, c + 2 * dc) ∧
    ((Z.abs dr = 1 ∧ dc = 0) ∨ (dr = 0 ∧ Z.abs dc = 1)) ∧
    (0 ≤ r < 7 ∧ 0 ≤ c < 7) ∧
    (0 ≤ r + 2 * dr < 7 ∧ 0 ≤ c + 2 * dc < 7) ∧
    Grid.child_board b m = Some b' ∧
    well_formed b' = true ∧
    Grid.peg_count b' = Grid.peg_count b - 1 ∧
    ∀ r' c', 0 ≤ r' → 0 ≤ c' →
      Grid.cell b' r' c' =
        if decide ((r', c') = (r + 2 * dr, c + 2 * dc)) then Some 1
        else if decide ((r', c') = (r + dr, c + dc)) then Some 0
        else if decide ((r', c') = (r, c)) then Some 0
        else Grid.cell b r' c'.
Proof.
  intros Hwf (item & d & Hitem & Hd & Hj)%elem_of_jumps.
  destruct (jump_of_geometry b item d m Hitem Hd Hj)
    as (r & c & dr & dc & -> & -> & Hfrm & Hto & [Hr Hc] & [Hmr Hmc] & [Hr2 Hc2]
        & Hdir & Hpeg & Hmid & Hempty).
  destruct (execute_move_spec b r c (r + dr) (c + dc) (r + 2 * dr) (c + 2 * dc))
    as (b' & Hb' & Hwf' & Hcells & Hpc); try done.
  { intros [= ? ?]. lia. }
  { intros [= ? ?]. lia. }
  { intros [= ? ?]. lia. }
  exists b', r, c, dr, dc. destruct m as [frm to]. cbn [fst snd] in *.
  rewrite (child_board_execute b frm to r c dr dc) by done. done.
Qed.

(** A jump needs two pegs. *)
Lemma jump_needs_two_pegs (b : grid) (m : move) :
  well_formed b = true → m ∈ jumps b → 2 ≤ Grid.peg_count b.
Proof.
  intros Hwf Hm.
  destruct (child_board_cells b m Hwf Hm)
    as (b' & r & c & dr & dc & _ & _ & _ & _ & [Hr2 Hc2] & _ & _ & Hpc & Hcells).
  assert (1 ≤ Grid.peg_count b'); [|lia].
  apply (peg_count_cell b' (r + 2 * dr) (c + 2 * dc)); [lia..|].
  rewrite Hcells by lia. by rewrite decide_True.
Qed.

Lemma reaches_length (b b' : grid) (ms : list move) :
  well_formed b = true → reaches b ms b' →
  Z.of_nat (length ms) ≤ Z.max 0 (Grid.peg_count b - 1).
Proof.
  intros Hwf Hr. induction Hr as [b|b b1 b' m ms Hm Hb1 Hr IH]; [simpl; lia|].
  apply legal_jump_jumps in Hm; [|done].
  pose proof (jump_needs_two_pegs b m Hwf Hm) as Htwo.
  destruct (child_board_of_jump b m Hwf Hm) as (b1' & Hb1' & Hwf1 & Hpc & _).
  rewrite Hb1 in Hb1'. injection Hb1' as <-.
  specialize (IH Hwf1). simpl length. lia.
Qed.

(** Every legal move takes exactly one peg off the board: after a sequence
    of legal moves, each applied with the move applicator of the searches,
    the board is still a well-formed board, it has as many pegs fewer as
    moves were played, and so no sequence of legal moves is longer than the
    number of pegs less one. *)
Theorem legal_sequence_takes_one_peg_per_move (b b' : grid) (ms : list move) :
  well_formed b = true → reaches b ms b' →
  replay b ms = Some b' ∧
  well_formed b' = true ∧
  Grid.peg_count b' = Grid.peg_count b - Z.of_nat (length ms) ∧
  Z.of_nat (length ms) ≤ Z.max 0 (Grid.peg_count b - 1).
Proof.
  intros Hwf Hr. split; [by apply reaches_replay|].
  destruct (reaches_peg_count b b' ms Hwf Hr) as [Hwf' Hpc].
  split; [done|]. split; [done|]. by apply (reaches_length b b').
Qed.

Lemma small_board_solution :
  ∃ g, reaches small_board [(8, 10); (5, 17)] g ∧ Grid.peg_count g = 1.
Proof.
  assert (∃ g, legal_replay small_board [(8, 10); (5, 17)] = Some g ∧
               Grid.peg_count g = 1) as (g & Hg & Hpc)
    by (eexists; split; [vm_compute; reflexivity|reflexivity]).
  exists g. split; [|exact Hpc]. by apply legal_replay_reaches.
Defined.

Lemma legal_sequence_takes_one_peg_per_move_witness :
  well_formed small_board = true ∧
  ∃ g, reaches small_board [(8, 10); (5, 17)] g ∧
       replay small_board [(8, 10); (5, 17)] = Some g ∧
       well_formed g = true ∧
       Grid.peg_count g = Grid.peg_count small_board - 2 ∧
       2 ≤ Z.max 0 (Grid.peg_count small_board - 1).
Proof.
  split; [reflexivity|].
  destruct small_board_solution as (g & Hg & _).
  exists g. split; [exact Hg|].
  exact (legal_sequence_takes_one_peg_per_move small_board g [(8, 10); (5, 17)]
           eq_refl Hg).
Defined.

(** ** The move enumeration *)

Lemma from_direction_order_irrefl (m : move) : ¬ from_direction_order m m.
Proof. unfold from_direction_order. lia. Qed.

Lemma StronglySorted_NoDup {A} (R : A → A → Prop) (l : list A) :
  (∀ x, ¬ R x x) → StronglySorted R l → NoDup l.
Proof.
  intros Hirr. induction 1 as [|x l Hl IH Hx]; constructor; [|done].
  intros Hin. eapply Hirr, Forall_forall; done.
Qed.

(** [legal_moves] lists no move twice, and it lists no move at all on a
    board with fewer than two pegs: a won position is a position without
    moves. *)
Theorem legal_moves_no_duplicates (b : grid) :
  well_formed b = true →
  ∃ ms, Grid.legal_moves b = Some ms ∧ NoDup ms ∧
        (Grid.peg_count b ≤ 1 → ms = []).
Proof.
  intros Hwf. exists (jumps b). split; [by apply legal_moves_jumps|]. split.
  - apply (StronglySorted_NoDup from_direction_order);
      [apply from_direction_order_irrefl|apply jumps_sorted].
  - intros Hpc. destruct (jumps b) as [|m ms] eqn:Hj; [done|].
    assert (m ∈ jumps b) as Hm by (rewrite Hj; left).
    pose proof (jump_needs_two_pegs b m Hwf Hm). lia.
Qed.

Lemma legal_moves_no_duplicates_witness :
  well_formed board = true ∧
  ∃ ms, Grid.legal_moves board = Some ms ∧ NoDup ms ∧
        (Grid.peg_count board ≤ 1 → ms = []).
Proof.
  split; [reflexivity|]. apply (legal_moves_no_duplicates board). reflexivity.
Defined.

(** ** The searches miss no solution *)

Lemma elem_of_children_of (b b' : grid) (m : move) :
  m ∈ jumps b → Grid.child_board b m = Some b' → (b', m) ∈ children_of b.
Proof.
  intros Hm Hb'. unfold children_of. apply list_elem_of_omap.
  exists m. split; [done|]. by rewrite Hb'.
Qed.

(** A set of boards that holds all children of its boards holds everything
    reached from them. *)
Lemma closed_reaches (P : grid → Prop) :
  (∀ b bm, P b → well_formed b = true → bm ∈ children_of b → P bm.1) →
  ∀ b seq g, reaches b seq g → well_formed b = true → P b → P g.
Proof.
  intros Hclosed b seq g Hr. induction Hr as [b|b b1 b' m ms Hm Hb1 Hr IH]; [done|].
  intros Hwf Hb. apply legal_jump_jumps in Hm; [|done].
  pose proof (elem_of_children_of b b1 m Hm Hb1) as Hin.
  apply IH.
  - by apply (children_of_one_jump b b1 m Hwf) in Hin as (_ & _ & ? & _).
  - exact (Hclosed b (b1, m) Hb Hwf Hin).
Qed.

(** *** [test.py] *)

Lemma visit_covers (seq : list move) (succs : list (Z * Z * grid)) :
  ∀ (s : TestPy.search) (x : Z * Z * grid),
    x ∈ succs →
    Grid.serialize x.2 ∈ TestPy.visited_boards (foldl (TestPy.visit seq) s succs).
Proof.
  induction succs as [|y succs IH]; intros s x Hx; [by apply elem_of_nil in Hx|].
  apply elem_of_cons in Hx as [->|Hx]; [|by apply IH].
  destruct y as [[f t] b'].
  change (foldl (TestPy.visit seq) s ((f, t, b') :: succs))
    with (foldl (TestPy.visit seq) (TestPy.visit seq s (f, t, b')) succs).
  destruct (visit_fold seq succs (TestPy.visit seq s (f, t, b')))
    as (added & _ & _ & _ & _ & _ & Hvis).
  apply Hvis. left. unfold TestPy.visit. cbn [snd].
  case_decide as Hk.
  - cbn [TestPy.visited_boards]. by apply elem_of_union_l, elem_of_singleton.
  - done.
Qed.

Lemma test_closed_start (b0 : grid) : test_closed b0 (TestPy.start b0).
Proof.
  unfold test_closed, TestPy.start. simpl. split; [by apply elem_of_singleton|].
  split; [|constructor].
  intros k ->%elem_of_singleton. left.
Qed.

Lemma test_closed_step (b0 : grid) (s s' : TestPy.search) :
  test_inv b0 s ∧ test_closed b0 s → TestPy.BFS_body s = Continue s' →
  test_inv b0 s' ∧ test_closed b0 s'.
Proof.
  intros [Hinv (Hb0 & Hseen & Hdone)] Hbody.
  split; [by apply (test_body_continue b0 s s')|].
  destruct Hinv as (Hq & _ & _). unfold TestPy.BFS_body in Hbody.
  destruct (TestPy.frontier_queue s) as [|[cur seq] rest] eqn:Hqueue; [done|].
  apply Forall_cons in Hq as [[Hwf Hreach] Hrest]. simpl in Hwf, Hreach.
  destruct (TestPy.goal_reached cur) as [[|]|] eqn:Hgoal; [done| |done].
  rewrite generate_successor_states_children in Hbody by done.
  injection Hbody as <-.
  set (s1 := TestPy.Search rest (TestPy.visited_boards s) (TestPy.dequeued s ++ [cur])).
  set (succs := (λ bm : grid * move, (bm.2.1, bm.2.2, bm.1)) <$> children_of cur).
  destruct (visit_fold seq succs s1) as (added & Hsub & Hq' & Hd' & _ & _ & Hvis').
  split; [|split].
  - apply Hvis'. by left.
  - intros k [Hk|Hk]%Hvis'.
    + apply Hseen, list_elem_of_fmap in Hk as (d & -> & Hd).
      apply list_elem_of_fmap. exists d. split; [done|].
      rewrite Hq', Hd'. simpl. simpl in Hd.
      rewrite fmap_app, !elem_of_app, list_elem_of_singleton.
      rewrite elem_of_app, elem_of_cons in Hd. tauto.
    + apply list_elem_of_fmap in Hk as (x & -> & Hx).
      apply list_elem_of_fmap. exists x.2. split; [done|].
      rewrite Hq', Hd'. simpl. rewrite fmap_app, !elem_of_app. right. right.
      apply list_elem_of_fmap. exists (x.2, seq ++ [x.1]). split; [done|].
      apply list_elem_of_fmap. by exists x.
  - rewrite Hd'. simpl. apply Forall_app. split.
    + eapply Forall_impl; [done|]. intros d (Hwfd & Hgd & Hkids).
      split; [done|]. split; [done|]. intros bm Hbm. apply Hvis'. left. by apply Hkids.
    + apply Forall_singleton. split; [done|]. split; [done|].
      intros bm Hbm.
      apply (visit_covers seq succs s1 (bm.2.1, bm.2.2, bm.1)).
      apply list_elem_of_fmap. by exists bm.
Qed.

(** With an empty queue, everything reached from the start board has been
    dequeued, and none of it was a goal. *)
Lemma test_closed_no_goal (b0 : grid) (s : TestPy.search) (seq : list move) (g : grid) :
  well_formed b0 = true → test_closed b0 s → TestPy.frontier_queue s = [] →
  reaches b0 seq g → TestPy.goal_reached g ≠ Some true.
Proof.
  intros Hwf (Hb0 & Hseen & Hdone) Hempty Hr.
  rewrite Hempty in Hseen. simpl in Hseen. rewrite app_nil_r in Hseen.
  assert (∀ b, Grid.serialize b ∈ TestPy.visited_boards s → b ∈ TestPy.dequeued s) as Hdeq.
  { intros b (d & Heq & Hd)%Hseen%list_elem_of_fmap. by apply (inj _) in Heq as ->. }
  assert (Grid.serialize g ∈ TestPy.visited_boards s) as Hg.
  { apply (closed_reaches (λ b, Grid.serialize b ∈ TestPy.visited_boards s))
      with (b := b0) (seq := seq); [|done..].
    intros b bm Hb _ Hbm. apply Hdeq in Hb.
    rewrite Forall_forall in Hdone. by apply (Hdone b Hb). }
  apply Hdeq in Hg. rewrite Forall_forall in Hdone.
  destruct (Hdone g Hg) as (_ & Hgoal & _). congruence.
Qed.

Lemma test_BFS_None_no_goal (b0 : grid) (fuel : nat) (seq : list move) (g : grid) :
  well_formed b0 = true → TestPy.BFS fuel b0 = Finished None →
  reaches b0 seq g → TestPy.goal_reached g ≠ Some true.
Proof.
  intros Hwf (n & s & Hn & Hempty)%test_BFS_None.
  apply (passes_invariant TestPy.BFS_body (λ s, test_inv b0 s ∧ test_closed b0 s))
    in Hn as [_ Hclosed].
  - by apply (test_closed_no_goal b0 s).
  - apply test_closed_step.
  - split; [by apply test_inv_start|apply test_closed_start].
Qed.

(** [BFS] of [test.py] misses no solution: when it returns [None], no
    sequence of legal moves leads from the start board to a board with one
    peg, in the centre; and when there is such a sequence, it returns one. *)
Theorem test_BFS_returns_None_only_without_solution (b0 : grid) :
  well_formed b0 = true →
  (∀ fuel, TestPy.BFS fuel b0 = Finished None →
     ∀ seq g, reaches b0 seq g → TestPy.goal_reached g ≠ Some true) ∧
  ((∃ seq g, reaches b0 seq g ∧ TestPy.goal_reached g = Some true) →
   ∃ fuel seq', TestPy.BFS fuel b0 = Finished (Some seq')).
Proof.
  intros Hwf. split.
  - intros fuel Hrun seq g. by apply (test_BFS_None_no_goal b0 fuel).
  - intros (seq & g & Hr & Hgoal).
    destruct (test_BFS_finishes b0 Hwf) as (fuel & [seq'|] & Hrun); [by eauto|].
    by destruct (test_BFS_None_no_goal b0 fuel seq g Hwf Hrun Hr).
Qed.

Lemma test_BFS_returns_None_only_without_solution_witness :
  well_formed stuck_board = true ∧
  TestPy.BFS 5 stuck_board = Finished None ∧
  (∀ fuel, TestPy.BFS fuel stuck_board = Finished None →
     ∀ seq g, reaches stuck_board seq g → TestPy.goal_reached g ≠ Some true) ∧
  ((∃ seq g, reaches stuck_board seq g ∧ TestPy.goal_reached g = Some true) →
   ∃ fuel seq', TestPy.BFS fuel stuck_board = Finished (Some seq')).
Proof.
  split; [reflexivity|]. split; [vm_compute; reflexivity|].
  apply (test_BFS_returns_None_only_without_solution stuck_board). reflexivity.
Defined.

(** *** [bfs.py] *)

Lemma enqueue_children_covers (children : list grid) :
  ∀ (g : BfsPy.globals) (c : grid),
    c ∈ children →
    Grid.serialize c
      ∈ BfsPy.explored g
        ++ (Grid.serialize <$> BfsPy.frontier (BfsPy.enqueue_children children g)).
Proof.
  induction children as [|y children IH]; intros g c Hc; [by apply elem_of_nil in Hc|].
  change (BfsPy.enqueue_children (y :: children) g)
    with (BfsPy.enqueue_children children
            (if negb (py_in (Grid.serialize y) (BfsPy.explored g))
             then BfsPy.add_to_frontier y g else g)).
  set (g1 := if negb (py_in (Grid.serialize y) (BfsPy.explored g))
             then BfsPy.add_to_frontier y g else g).
  assert (BfsPy.explored g1 = BfsPy.explored g) as He1.
  { unfold g1, BfsPy.add_to_frontier.
    destruct (negb (py_in (Grid.serialize y) (BfsPy.explored g))); [|done].
    by destruct (negb (py_in y (BfsPy.explored g)) && negb (py_in y (BfsPy.frontier g))). }
  apply elem_of_cons in Hc as [->|Hc].
  - destruct (enqueue_children_spec children g1) as (added & _ & Hf & _).
    rewrite Hf, fmap_app, !elem_of_app.
    unfold g1, BfsPy.add_to_frontier.
    rewrite py_in_key, py_in_grid_key, py_in_grid. cbn [negb andb].
    case_bool_decide as Hexp; cbn [negb]; [by left|].
    case_bool_decide as Hfr; cbn [negb]; right; left.
    + apply list_elem_of_fmap. by exists y.
    + simpl. rewrite fmap_app, elem_of_app. right. by left.
  - rewrite <-He1. by apply IH.
Qed.

Lemma bfs_closed_start (b0 : grid) : bfs_closed b0 (BfsPy.start b0).
Proof.
  unfold bfs_closed, BfsPy.start, BfsPy.add_to_frontier. simpl.
  rewrite list_fmap_id. simpl. split; [by left|].
  by intros d Hd%elem_of_nil.
Qed.

Lemma bfs_closed_step (b0 : grid) (g g' : BfsPy.globals) :
  bfs_inv b0 g ∧ bfs_closed b0 g → BfsPy.BFS_body g = Continue g' →
  bfs_inv b0 g' ∧ bfs_closed b0 g'.
Proof.
  intros [Hinv (Hb0 & Hdone)] Hbody.
  split; [by apply (bfs_body_continue b0 g g')|].
  destruct Hinv as (Hq & _). unfold BfsPy.BFS_body in Hbody.
  destruct (BfsPy.frontier g) as [|node rest] eqn:Hfrontier; [done|].
  apply Forall_cons in Hq as [[Hwf _] _].
  rewrite legal_moves_jumps in Hbody by done.
  destruct (Grid.peg_count node =? 1) eqn:Hpc; [done|]. apply Z.eqb_neq in Hpc.
  rewrite generate_child_boards_children in Hbody by done.
  injection Hbody as <-.
  set (g1 := BfsPy.Globals rest (BfsPy.explored g ++ [Grid.serialize node])).
  destruct (enqueue_children_spec (children_of node).*1 g1)
    as (added & _ & Hf & He & _).
  simpl in Hf, He.
  assert (∀ k, k ∈ BfsPy.explored g ++ (Grid.serialize <$> node :: rest) →
               k ∈ BfsPy.explored (BfsPy.enqueue_children (children_of node).*1 g1)
                   ++ (Grid.serialize
                         <$> BfsPy.frontier
                               (BfsPy.enqueue_children (children_of node).*1 g1)))
    as Hmono.
  { intros k. rewrite He, Hf, fmap_app, fmap_cons, !elem_of_app, elem_of_cons.
    rewrite list_elem_of_singleton. tauto. }
  split; [by apply Hmono|].
  intros d Hd. rewrite He in Hd.
  apply elem_of_app in Hd as [Hd| ->%list_elem_of_singleton%(inj _)].
  - destruct (Hdone d Hd) as (Hwfd & Hpcd & Hkids).
    split; [done|]. split; [done|]. intros bm Hbm. by apply Hmono, Hkids.
  - split; [done|]. split; [done|]. intros bm Hbm. rewrite He.
    apply (enqueue_children_covers (children_of node).*1 g1 bm.1).
    apply list_elem_of_fmap. by exists bm.
Qed.

Lemma bfs_closed_no_goal (b0 : grid) (g : BfsPy.globals) (seq : list move) (gl : grid) :
  well_formed b0 = true → bfs_closed b0 g → BfsPy.frontier g = [] →
  reaches b0 seq gl → Grid.peg_count gl ≠ 1.
Proof.
  intros Hwf (Hb0 & Hdone) Hempty Hr.
  rewrite Hempty in Hb0, Hdone. simpl in Hb0, Hdone. rewrite app_nil_r in Hb0.
  assert (Grid.serialize gl ∈ BfsPy.explored g) as Hg.
  { apply (closed_reaches (λ b, Grid.serialize b ∈ BfsPy.explored g))
      with (b := b0) (seq := seq); [|done..].
    intros b bm Hb _ Hbm. destruct (Hdone b Hb) as (_ & _ & Hkids).
    specialize (Hkids bm Hbm). by rewrite app_nil_r in Hkids. }
  by destruct (Hdone gl Hg) as (_ & ? & _).
Qed.

Lemma bfs_BFS_no_solution_no_goal (b0 : grid) (fuel : nat) (o : BfsPy.outcome)
    (seq : list move) (gl : grid) :
  well_formed b0 = true → BfsPy.BFS fuel b0 = Finished o →
  BfsPy.printed o = NoSolutionFound →
  reaches b0 seq gl → Grid.peg_count gl ≠ 1.
Proof.
  intros Hwf Hrun Hprinted. unfold BfsPy.BFS in Hrun.
  apply (loop_finished BfsPy.BFS_body (λ g, bfs_inv b0 g ∧ bfs_closed b0 g))
    in Hrun as (g & [Hinv Hclosed] & Hbody).
  - destruct (bfs_body_break b0 g o Hinv Hbody) as (_ & _ & Hend).
    rewrite Hprinted in Hend. by apply (bfs_closed_no_goal b0 g).
  - apply bfs_closed_step.
  - split; [by apply bfs_inv_start|apply bfs_closed_start].
Qed.

(** [BFS] of [bfs.py] misses no solution: when it prints "No solution
    found.", no sequence of legal moves leads from the start board to a board
    with one peg; and when there is such a sequence, it ends with "You
    win". *)
Theorem bfs_BFS_no_solution_found_only_without_solution (b0 : grid) :
  well_formed b0 = true →
  (∀ fuel o, BfsPy.BFS fuel b0 = Finished o → BfsPy.printed o = NoSolutionFound →
     ∀ seq g, reaches b0 seq g → Grid.peg_count g ≠ 1) ∧
  ((∃ seq g, reaches b0 seq g ∧ Grid.peg_count g = 1) →
   ∃ fuel o, BfsPy.BFS fuel b0 = Finished o ∧ BfsPy.printed o = YouWin).
Proof.
  intros Hwf. split.
  - intros fuel o Hrun Hprinted seq g. by apply (bfs_BFS_no_solution_no_goal b0 fuel o).
  - intros (seq & g & Hr & Hgoal).
    destruct (bfs_BFS_finishes b0 Hwf) as (fuel & o & Hrun).
    exists fuel, o. split; [done|].
    destruct (BfsPy.printed o) eqn:Hprinted; [|done].
    by destruct (bfs_BFS_no_solution_no_goal b0 fuel o seq g Hwf Hrun Hprinted Hr).
Qed.

Lemma bfs_BFS_no_solution_found_only_without_solution_witness :
  well_formed stuck_board = true ∧
  (∃ o, BfsPy.BFS 5 stuck_board = Finished o ∧ BfsPy.printed o = NoSolutionFound) ∧
  (∀ fuel o, BfsPy.BFS fuel stuck_board = Finished o →
     BfsPy.printed o = NoSolutionFound →
     ∀ seq g, reaches stuck_board seq g → Grid.peg_count g ≠ 1) ∧
  ((∃ seq g, reaches stuck_board seq g ∧ Grid.peg_count g = 1) →
   ∃ fuel o, BfsPy.BFS fuel stuck_board = Finished o ∧ BfsPy.printed o = YouWin).
Proof.
  split; [reflexivity|].
  split; [eexists; split; [vm_compute; reflexivity|reflexivity]|].
  apply (bfs_BFS_no_solution_found_only_without_solution stuck_board). reflexivity.
Defined.

(** *** [HDFS.py] *)

Lemma dfs_covers_start (b0 : grid) : dfs_covers b0 (HdfsPy.start b0).
Proof.
  intros seq gl Hr _. unfold HdfsPy.start, HdfsPy.add_to_frontier. simpl.
  rewrite list_fmap_id. exists (HdfsPy.Treenodes b0 None None), seq.
  split; [by apply list_elem_of_singleton|done].
Qed.

Lemma dfs_covers_step (b0 : grid) (g g' : HdfsPy.globals) :
  well_formed b0 = true →
  dfs_inv b0 g ∧ dfs_covers b0 g → HdfsPy.DFS_body g = Continue g' →
  dfs_inv b0 g' ∧ dfs_covers b0 g'.
Proof.
  intros Hwf0 [Hinv Hcov] Hbody.
  split; [by apply (dfs_body_continue b0 g g')|].
  unfold dfs_inv, dfs_covers in *. unfold HdfsPy.DFS_body in Hbody.
  pose proof (pop_spec (HdfsPy.frontier g)) as Hpop.
  destruct (pop (HdfsPy.frontier g)) as [[node rest]|]; [|done].
  rewrite Hpop in Hinv, Hcov. apply Forall_app in Hinv as [Hrest Hnode].
  rewrite Forall_singleton in Hnode.
  destruct (node_ok_reaches b0 node Hwf0 Hnode) as (Hwf & _ & _).
  rewrite legal_moves_jumps in Hbody by done.
  destruct (Grid.peg_count (HdfsPy.tn_board node) =? 1) eqn:Hpc.
  { by destruct (HdfsPy.print_path node). }
  apply Z.eqb_neq in Hpc.
  rewrite hdfs_generate_child_boards, bind_Some_l in Hbody by done.
  set (children := (λ bm : grid * move, HdfsPy.Treenodes bm.1 (Some node) (Some bm.2))
                     <$> children_of (HdfsPy.tn_board node)) in *.
  assert (Forall (λ x, well_formed (HdfsPy.tn_board x) = true) children) as Hkids.
  { apply Forall_fmap, Forall_forall. intros [b' m] Hin. simpl.
    by apply children_of_one_jump in Hin as (_ & _ & ? & _). }
  rewrite heuristic_order_spec in Hbody by done.
  injection Hbody as <-. rewrite push_children_all. simpl.
  pose proof (sort_desc_perm (λ x, mobility (HdfsPy.tn_board x)) children) as Hperm.
  intros seq gl Hr Hgoal.
  destruct (Hcov seq gl Hr Hgoal) as (n & suffix & [Hn| ->%list_elem_of_singleton]%elem_of_app & Hsuffix).
  - exists n, suffix. split; [|done]. apply elem_of_app. by left.
  - inversion Hsuffix as [b|b b1 b' m ms Hm Hb1 Hrest']; subst; [done|].
    apply legal_jump_jumps in Hm; [|done].
    exists (HdfsPy.Treenodes b1 (Some node) (Some m)), ms. split; [|done].
    apply elem_of_app. right. rewrite elem_of_reverse, Hperm.
    apply list_elem_of_fmap. exists (b1, m). split; [done|].
    by apply elem_of_children_of.
Qed.

Lemma dfs_DFS_no_solution_no_goal (b0 : grid) (fuel : nat) (o : HdfsPy.outcome)
    (seq : list move) (gl : grid) :
  well_formed b0 = true → HdfsPy.DFS fuel b0 = Finished o →
  HdfsPy.printed o = NoSolutionFound →
  reaches b0 seq gl → Grid.peg_count gl ≠ 1.
Proof.
  intros Hwf Hrun Hprinted Hr Hgoal. unfold HdfsPy.DFS in Hrun.
  apply (loop_finished HdfsPy.DFS_body (λ g, dfs_inv b0 g ∧ dfs_covers b0 g))
    in Hrun as (g & [Hinv Hcov] & Hbody).
  - destruct (dfs_body_break b0 g o Hwf Hinv Hbody) as (_ & Hend).
    rewrite Hprinted in Hend.
    destruct (Hcov seq gl Hr Hgoal) as (n & _ & Hn & _).
    rewrite Hend in Hn. by apply elem_of_nil in Hn.
  - intros g1 g2. by apply dfs_covers_step.
  - split; [apply dfs_inv_start|apply dfs_covers_start].
Qed.

(** [DFS] of [HDFS.py] misses no solution: when it prints "No solution
    found.", no sequence of legal moves leads from the start board to a board
    with one peg; and when there is such a sequence, it ends with "You win"
    and the printed path is a sequence of legal moves to a board with one
    peg. *)
Theorem dfs_DFS_no_solution_found_only_without_solution (b0 : grid) :
  well_formed b0 = true →
  (∀ fuel o, HdfsPy.DFS fuel b0 = Finished o → HdfsPy.printed o = NoSolutionFound →
     ∀ seq g, reaches b0 seq g → Grid.peg_count g ≠ 1) ∧
  ((∃ seq g, reaches b0 seq g ∧ Grid.peg_count g = 1) →
   ∃ fuel o g', HdfsPy.DFS fuel b0 = Finished o ∧ HdfsPy.printed o = YouWin ∧
                reaches b0 (HdfsPy.printed_path o) g' ∧ Grid.peg_count g' = 1).
Proof.
  intros Hwf. split.
  - intros fuel o Hrun Hprinted seq g. by apply (dfs_DFS_no_solution_no_goal b0 fuel o).
  - intros (seq & g & Hr & Hgoal).
    destruct (dfs_DFS_finishes b0 Hwf) as (fuel & o & Hrun).
    destruct (HdfsPy.printed o) eqn:Hprinted.
    { by destruct (dfs_DFS_no_solution_no_goal b0 fuel o seq g Hwf Hrun Hprinted Hr). }
    pose proof Hrun as Hrun'. unfold HdfsPy.DFS in Hrun'.
    apply (loop_finished HdfsPy.DFS_body (dfs_inv b0)) in Hrun' as (g1 & Hg1 & Hbody);
      [|exact (λ g1 g2, dfs_inv_step b0 g1 g2 Hwf)|apply dfs_inv_start].
    destruct (dfs_body_break b0 g1 o Hwf Hg1 Hbody) as (_ & Hend).
    rewrite Hprinted in Hend. destruct Hend as (node & _ & Hnode & Hpath & Hpc).
    exists fuel, o, (HdfsPy.tn_board node). split; [done|]. split; [done|].
    split; [|done]. rewrite Hpath. by apply (node_ok_reaches b0).
Qed.

Lemma dfs_DFS_no_solution_found_only_without_solution_witness :
  well_formed small_board = true ∧
  (∃ seq g, reaches small_board seq g ∧ Grid.peg_count g = 1) ∧
  (∀ fuel o, HdfsPy.DFS fuel small_board = Finished o →
     HdfsPy.printed o = NoSolutionFound →
     ∀ seq g, reaches small_board seq g → Grid.peg_count g ≠ 1) ∧
  ((∃ seq g, reaches small_board seq g ∧ Grid.peg_count g = 1) →
   ∃ fuel o g', HdfsPy.DFS fuel small_board = Finished o ∧
                HdfsPy.printed o = YouWin ∧
                reaches small_board (HdfsPy.printed_path o) g' ∧
                Grid.peg_count g' = 1).
Proof.
  split; [reflexivity|]. split.
  - destruct small_board_solution as (g & Hg & Hpc). by exists [(8, 10); (5, 17)], g.
  - apply (dfs_DFS_no_solution_found_only_without_solution small_board). reflexivity.
Defined.

(** ** [make_move] of [soloT2.py] *)

Lemma not_true_false (v : bool) (P : Prop) : (v = true ↔ P) → ¬ P → v = false.
Proof. destruct v; [|done]. intros [H _] Hno. destruct Hno. by apply H. Qed.

(** After its guard, [make_move] is the move applicator of the searches. *)
Lemma soloT2_make_move_child_board (b : grid) (frm to : Z) :
  SoloT2.is_valid_move b frm to = Some true →
  SoloT2.make_move b frm to = (b' ← Grid.child_board b (frm, to); Some (b', true)).
Proof.
  intros Hv. unfold SoloT2.make_move, Grid.child_board. rewrite Hv, bind_Some_l.
  cbn [negb]. destruct (dict_get index_to_pos frm) as [[r1 c1]|]; [|done].
  rewrite !bind_Some_l. by destruct (dict_get index_to_pos to) as [[r2 c2]|].
Qed.

(** [make_move] of [soloT2.py] plays legal jumps and nothing else.  On a
    well-formed board it raises nothing; it answers [True] exactly for a
    legal jump; on [False] the board is as it was; on [True] the board is the
    one the move applicator of the searches gives, again well formed, with
    one peg fewer, and on it neither the same move nor the move back is
    valid. *)
Theorem soloT2_make_move_plays_legal_jumps_only (b : grid) (frm to : Z) :
  well_formed b = true →
  ∃ b' ok,
    SoloT2.make_move b frm to = Some (b', ok) ∧
    (ok = true ↔ legal_jump b frm to) ∧
    (ok = false → b' = b) ∧
    (ok = true →
       Grid.child_board b (frm, to) = Some b' ∧
       well_formed b' = true ∧
       Grid.peg_count b' = Grid.peg_count b - 1 ∧
       SoloT2.is_valid_move b' frm to = Some false ∧
       SoloT2.is_valid_move b' to frm = Some false).
Proof.
  intros Hwf. destruct (soloT2_is_valid_move_legal b frm to Hwf) as ([|] & Hv & Hiff).
  2:{ exists b, false. unfold SoloT2.make_move. rewrite Hv, bind_Some_l.
      split; [done|]. split; [done|]. split; done. }
  assert ((frm, to) ∈ jumps b) as Hm.
  { apply legal_jump_jumps; [done|]. by apply Hiff. }
  destruct (child_board_cells b (frm, to) Hwf Hm)
    as (b' & r & c & dr & dc & Hfrm & Hto & Hdir & [Hr Hc] & [Hr2 Hc2] & Hb' & Hwf'
        & Hpc & Hcells).
  cbn [fst snd] in Hfrm, Hto.
  exists b', true. rewrite (soloT2_make_move_child_board b frm to Hv), Hb', bind_Some_l.
  split; [done|]. split; [done|]. split; [done|]. intros _.
  split; [done|]. split; [done|]. split; [done|].
  split.
  - destruct (soloT2_is_valid_move_legal b' frm to Hwf') as (v & -> & Hiff').
    f_equal. apply (not_true_false _ _ Hiff').
    intros (r1 & c1 & r2 & c2 & Hfrm' & _ & Hpeg & _).
    rewrite Hfrm in Hfrm'. injection Hfrm' as <- <-.
    rewrite Hcells in Hpeg by lia.
    rewrite decide_False in Hpeg by (intros [= ? ?]; lia).
    rewrite decide_False in Hpeg by (intros [= ? ?]; lia).
    by rewrite decide_True in Hpeg.
  - destruct (soloT2_is_valid_move_legal b' to frm Hwf') as (v & -> & Hiff').
    f_equal. apply (not_true_false _ _ Hiff').
    intros (r1 & c1 & r2 & c2 & Hto' & Hfrm' & _ & _ & _ & Hmid).
    rewrite Hfrm in Hfrm'. injection Hfrm' as <- <-.
    rewrite Hto in Hto'. injection Hto' as <- <-.
    replace (r + 2 * dr + r) with ((r + dr) * 2) in Hmid by lia.
    replace (c + 2 * dc + c) with ((c + dc) * 2) in Hmid by lia.
    rewrite !Z.div_mul in Hmid by done.
    rewrite Hcells in Hmid by lia.
    rewrite decide_False in Hmid by (intros [= ? ?]; lia).
    by rewrite decide_True in Hmid.
Qed.

Lemma soloT2_make_move_plays_legal_jumps_only_witness :
  well_formed board = true ∧
  ∃ b' ok,
    SoloT2.make_move board 5 17 = Some (b', ok) ∧
    (ok = true ↔ legal_jump board 5 17) ∧
    (ok = false → b' = board) ∧
    (ok = true →
       Grid.child_board board (5, 17) = Some b' ∧
       well_formed b' = true ∧
       Grid.peg_count b' = Grid.peg_count board - 1 ∧
       SoloT2.is_valid_move b' 5 17 = Some false ∧
       SoloT2.is_valid_move b' 17 5 = Some false).
Proof.
  split; [reflexivity|].
  apply (soloT2_make_move_plays_legal_jumps_only board 5 17). reflexivity.
Defined.

(** ** [soloT.py] and [soloT2.py] play the same game *)

Lemma dict_get_fmap_values {K A B} `{EqDecision K} (f : K → A → B)
    (l : list (K * A)) (k : K) :
  dict_get ((λ kv : K * A, (kv.1, f kv.1 kv.2)) <$> l) k = f k <$> dict_get l k.
Proof.
  induction l as [|[k' x] l IH]; [done|].
  rewrite fmap_cons. cbn [fst snd]. rewrite !dict_get_cons.
  case_decide as Hk; [by subst|done].
Qed.

Lemma state_of_board_get (b : grid) (i : Z) :
  dict_get (state_of_board b) i
  = (λ p : Z * Z, bool_decide (Grid.cell b p.1 p.2 = Some 1)) <$> dict_get index_to_pos i.
Proof.
  exact (dict_get_fmap_values
           (λ (_ : Z) (p : Z * Z), bool_decide (Grid.cell b p.1 p.2 = Some 1))
           index_to_pos i).
Qed.

Lemma state_of_board_well_formed (b : grid) : well_formed_state (state_of_board b).
Proof. unfold well_formed_state, state_of_board. by rewrite <-list_fmap_compose. Qed.

Lemma in_bounds_true (x y : Z) :
  0 ≤ x < 7 → 0 ≤ y < 7 →
  (0 <=? x) && (x <? ROWS) && (0 <=? y) && (y <? COLS) = true.
Proof.
  intros Hx Hy. unfold ROWS, COLS. rewrite !andb_true_iff.
  repeat split; try apply Z.leb_le; try apply Z.ltb_lt; lia.
Qed.

Lemma in_bounds_false (x y : Z) :
  ¬ (0 ≤ x < 7 ∧ 0 ≤ y < 7) →
  (0 <=? x) && (x <? ROWS) && (0 <=? y) && (y <? COLS) = false.
Proof.
  intros Hno. apply not_true_is_false. unfold ROWS, COLS. rewrite !andb_true_iff.
  intros [[[H1%Z.leb_le H2%Z.ltb_lt] H3%Z.leb_le] H4%Z.ltb_lt]. apply Hno. lia.
Qed.

Lemma hole_in_range (p : Z * Z) (i : Z) :
  dict_get pos_to_index p = Some i → 0 ≤ p.1 < 7 ∧ 0 ≤ p.2 < 7.
Proof.
  destruct p as [r c]. intros H%index_pos_inverse.
  by apply index_to_pos_in_range in H as (_ & ? & ?).
Qed.

Lemma bool_decide_peg (v : Z) : bool_decide (Some v = Some 1) = (v =? 1).
Proof.
  destruct (v =? 1) eqn:Hv.
  - apply Z.eqb_eq in Hv as ->. by apply bool_decide_eq_true.
  - apply Z.eqb_neq in Hv. apply bool_decide_eq_false. by intros [= ?].
Qed.

(** The loop over [DIRECTIONS] of [soloT.py] on the state appends what the
    loop of [soloT2.py] appends on the board. *)
Lemma soloT_try_direction_board (b : grid) (i r c : Z) (d : Z * Z) :
  well_formed b = true → 0 ≤ r < 7 → 0 ≤ c < 7 → d ∈ DIRECTIONS →
  SoloT.try_direction (state_of_board b) i r c d = Grid.try_direction b i r c d.
Proof.
  intros Hwf Hr Hc Hd. destruct d as [dr dc]. apply elem_of_DIRECTIONS in Hd.
  unfold SoloT.try_direction, Grid.try_direction. cbv zeta beta iota.
  destruct (decide (0 ≤ r + 2 * dr < 7 ∧ 0 ≤ c + 2 * dc < 7)) as [[Hr2 Hc2]|Hout].
  2:{ rewrite in_bounds_false by done.
      destruct (dict_in (r + 2 * dr, c + 2 * dc) pos_to_index) eqn:Hdest;
        [|by rewrite andb_false_r].
      apply dict_in_Some in Hdest as [j Hj]. apply hole_in_range in Hj. by destruct Hout. }
  rewrite in_bounds_true by done.
  destruct (well_formed_cell b (r + dr) (c + dc) Hwf) as (m & Hm & Hmok); [lia..|].
  destruct (well_formed_cell b (r + 2 * dr) (c + 2 * dc) Hwf) as (t & Ht & Htok);
    [lia..|].
  rewrite Hm, Ht, !bind_Some_l.
  destruct (dict_in (r + dr, c + dc) pos_to_index) eqn:Hmid.
  2:{ subst m. cbn [andb Z.eqb]. done. }
  destruct (dict_in (r + 2 * dr, c + 2 * dc) pos_to_index) eqn:Hdest; cbn [andb].
  2:{ subst t. by destruct (m =? 1). }
  apply dict_in_Some in Hmid as [mid_idx Hmi], Hdest as [dest_idx Hdi].
  rewrite Hmi, Hdi, !bind_Some_l, !state_of_board_get.
  apply index_pos_inverse in Hmi as Hmi', Hdi as Hdi'.
  rewrite Hmi', Hdi'. cbn [fmap option_fmap option_map fst snd].
  rewrite Hm, Ht, !bind_Some_l, !bool_decide_peg.
  destruct (m =? 1); [|done].
  destruct Htok as [-> | ->]; done.
Qed.

Lemma mapM_ext_in {A B} (f g : A → option B) (l : list A) :
  (∀ x, x ∈ l → f x = g x) → mapM f l = mapM g l.
Proof.
  induction l as [|x l IH]; intros Hfg; [done|].
  change (mapM f (x :: l)) with (y ← f x; k ← mapM f l; mret (y :: k)).
  change (mapM g (x :: l)) with (y ← g x; k ← mapM g l; mret (y :: k)).
  rewrite (Hfg x) by left. rewrite IH; [done|]. intros y Hy. apply Hfg. by right.
Qed.

Lemma mapM_fmap_arg {A B C} (f : B → option C) (g : A → B) (l : list A) :
  mapM f (g <$> l) = mapM (λ x, f (g x)) l.
Proof.
  induction l as [|x l IH]; [done|].
  rewrite fmap_cons.
  change (mapM f (g x :: (g <$> l))) with (y ← f (g x); k ← mapM f (g <$> l); mret (y :: k)).
  by rewrite IH.
Qed.

Lemma soloT_moves_from_board (b : grid) (item : Z * (Z * Z)) :
  well_formed b = true → item ∈ index_to_pos →
  SoloT.moves_from (state_of_board b)
    (item.1, bool_decide (Grid.cell b item.2.1 item.2.2 = Some 1))
  = Grid.moves_from b item.
Proof.
  intros Hwf Hitem. destruct item as [i [r c]]. cbn [fst snd].
  assert (dict_get index_to_pos i = Some (r, c)) as Hpos
    by (apply elem_of_dict_get; [apply index_to_pos_NoDup|done]).
  pose proof (index_to_pos_in_range _ _ _ Hpos) as (_ & Hr & Hc).
  destruct (well_formed_cell b r c Hwf Hr Hc) as (v & Hv & _).
  unfold SoloT.moves_from, Grid.moves_from.
  rewrite Hv, bind_Some_l, bool_decide_peg.
  destruct (negb (v =? 1)); [done|].
  rewrite Hpos, bind_Some_l. f_equal. apply mapM_ext_in.
  intros d Hd. by apply soloT_try_direction_board.
Qed.

Lemma soloT_legal_moves_board (b : grid) :
  well_formed b = true →
  SoloT.legal_moves (state_of_board b) = Grid.legal_moves b.
Proof.
  intros Hwf. unfold SoloT.legal_moves, Grid.legal_moves. f_equal.
  unfold state_of_board at 2. rewrite mapM_fmap_arg. apply mapM_ext_in.
  intros item Hitem. by apply (soloT_moves_from_board b item).
Qed.

(** The rule of the game reads the same on the state and on the board. *)
Lemma legal_jump_state_board (b : grid) (frm to : Z) :
  well_formed b = true →
  legal_jump_state (state_of_board b) frm to ↔ legal_jump b frm to.
Proof.
  intros Hwf. split.
  - intros (r1 & c1 & r2 & c2 & mid_idx & Hfrm & Hto & Hf & Ht & Hgeo & Hmid & Hm).
    pose proof (index_to_pos_in_range _ _ _ Hfrm) as (_ & Hr1 & Hc1).
    pose proof (index_to_pos_in_range _ _ _ Hto) as (_ & Hr2 & Hc2).
    rewrite state_of_board_get, Hfrm in Hf. rewrite state_of_board_get, Hto in Ht.
    apply index_pos_inverse in Hmid. rewrite state_of_board_get, Hmid in Hm.
    cbn [fmap option_fmap option_map fst snd] in Hf, Ht, Hm.
    injection Hf as Hf%bool_decide_eq_true. injection Ht as Ht%bool_decide_eq_false.
    injection Hm as Hm%bool_decide_eq_true.
    exists r1, c1, r2, c2. split; [done|]. split; [done|]. split; [done|].
    split; [|done].
    destruct (well_formed_cell b r2 c2 Hwf Hr2 Hc2) as (v & Hv & Hok).
    apply index_pos_inverse in Hto.
    assert (dict_in (r2, c2) pos_to_index = true) as Hin
      by (apply dict_in_Some; by eexists).
    rewrite Hin in Hok. destruct Hok as [-> | ->]; [done|by destruct Ht].
  - intros (r1 & c1 & r2 & c2 & Hfrm & Hto & Hf & Ht & Hgeo & Hm).
    pose proof (index_to_pos_in_range _ _ _ Hfrm) as (_ & Hr1 & Hc1).
    pose proof (index_to_pos_in_range _ _ _ Hto) as (_ & Hr2 & Hc2).
    destruct (well_formed_hole b ((r1 + r2) `div` 2) ((c1 + c2) `div` 2) 1 Hwf)
      as [mid_idx Hmid]; [| |done|by right|].
    { destruct Hgeo as [[-> H]|[-> H]]; [rewrite half_of_no_step; lia|].
      apply half_of_two_step in H as (d & _ & -> & ? & ?). lia. }
    { destruct Hgeo as [[-> H]|[-> H]]; [|rewrite half_of_no_step; lia].
      apply half_of_two_step in H as (d & _ & -> & ? & ?). lia. }
    exists r1, c1, r2, c2, mid_idx. split; [done|]. split; [done|].
    rewrite !state_of_board_get, Hfrm, Hto.
    apply index_pos_inverse in Hmid as Hmid'. rewrite Hmid'.
    cbn [fmap option_fmap option_map fst snd].
    split; [by rewrite bool_decide_eq_true_2|].
    split; [rewrite bool_decide_eq_false_2; [done|congruence]|].
    split; [done|]. split; [done|]. by rewrite bool_decide_eq_true_2.
Qed.

Lemma soloT_is_valid_move_board (b : grid) (frm to : Z) :
  well_formed b = true →
  SoloT.is_valid_move (state_of_board b) frm to = SoloT2.is_valid_move b frm to.
Proof.
  intros Hwf.
  destruct (soloT_is_valid_move_legal (state_of_board b) frm to
              (state_of_board_well_formed b)) as (v & -> & Hv).
  destruct (soloT2_is_valid_move_legal b frm to Hwf) as (v' & -> & Hv').
  f_equal. rewrite legal_jump_state_board in Hv by done.
  destruct v, v'; try done.
  - symmetry. apply Hv', Hv. done.
  - apply Hv, Hv'. done.
Qed.

Lemma dict_set_fmap_values {K A B} `{EqDecision K} (f : K → A → B)
    (l : list (K * A)) (k : K) (v : B) :
  NoDup l.*1 → k ∈ l.*1 →
  dict_set ((λ kv : K * A, (kv.1, f kv.1 kv.2)) <$> l) k v
  = (λ kv : K * A, (kv.1, if decide (kv.1 = k) then v else f kv.1 kv.2)) <$> l.
Proof.
  induction l as [|[k' x] l IH]; intros Hnd Hk; [by apply elem_of_nil in Hk|].
  rewrite !fmap_cons in *. cbn [fst snd] in *. apply NoDup_cons in Hnd as [Hk' Hnd].
  cbn [dict_set]. case_decide as Heq.
  - subst k'. f_equal. apply list_fmap_ext. intros j [k2 x2] Hj. cbn [fst snd].
    rewrite decide_False; [done|]. intros ->. apply Hk'.
    apply list_elem_of_fmap. exists (k, x2). split; [done|].
    by eapply list_elem_of_lookup_2.
  - f_equal. apply IH; [done|]. apply elem_of_cons in Hk as [->|Hk]; done.
Qed.

(** The three writes of [make_move] of [soloT.py] on the state of a board
    give the state of the board after the jump. *)
Lemma soloT_make_move_board (b : grid) (frm to : Z) :
  well_formed b = true →
  SoloT.make_move (state_of_board b) frm to
  = (λ bo : grid * bool, (state_of_board bo.1, bo.2)) <$> SoloT2.make_move b frm to.
Proof.
  intros Hwf. unfold SoloT.make_move. rewrite soloT_is_valid_move_board by done.
  destruct (soloT2_is_valid_move_legal b frm to Hwf) as ([|] & Hv & Hiff).
  2:{ unfold SoloT2.make_move. by rewrite Hv, !bind_Some_l. }
  rewrite (soloT2_make_move_child_board b frm to Hv), Hv, bind_Some_l. cbn [negb].
  assert ((frm, to) ∈ jumps b) as Hm.
  { apply legal_jump_jumps; [done|]. by apply Hiff. }
  pose proof Hm as (item & d & Hitem & Hd & Hj)%elem_of_jumps.
  destruct (jump_of_geometry b item d (frm, to) Hitem Hd Hj)
    as (r & c & dr & dc & -> & -> & Hfrm & Hto & [Hr Hc] & [Hmr Hmc] & [Hr2 Hc2]
        & Hdir & Hpeg & Hmid & Hempty).
  cbn [fst snd] in Hfrm, Hto.
  destruct (child_board_cells b (frm, to) Hwf Hm)
    as (b' & r' & c' & dr' & dc' & Hfrm' & Hto' & _ & _ & _ & Hb' & Hwf' & _ & Hcells).
  cbn [fst snd] in Hfrm', Hto'.
  rewrite Hfrm in Hfrm'. injection Hfrm' as <- <-.
  rewrite Hto in Hto'. injection Hto' as Hdr Hdc.
  assert (dr' = dr) as -> by lia. assert (dc' = dc) as -> by lia. clear Hdr Hdc.
  rewrite Hb', Hfrm, Hto, !bind_Some_l. cbn [fmap option_fmap option_map fst snd].
  replace (r + (r + 2 * dr)) with ((r + dr) * 2) by lia.
  replace (c + (c + 2 * dc)) with ((c + dc) * 2) by lia.
  rewrite !Z.div_mul by done.
  destruct (well_formed_hole b (r + dr) (c + dc) 1 Hwf) as [mid_idx Hmi];
    [done..|by right|].
  rewrite Hmi, bind_Some_l. cbv zeta. f_equal. f_equal.
  pose proof index_to_pos_NoDup as Hnd.
  assert (∀ j p, dict_get index_to_pos j = Some p → j ∈ index_to_pos.*1) as Hkey.
  { intros j p Hjp. apply dict_get_is_Some_keys. by eexists. }
  apply index_pos_inverse in Hmi as Hmi'.
  unfold state_of_board.
  pose proof (dict_set_fmap_values
                (λ (_ : Z) (p : Z * Z), bool_decide (Grid.cell b p.1 p.2 = Some 1))
                index_to_pos frm false Hnd (Hkey _ _ Hfrm)) as H1.
  cbv beta in H1. rewrite H1. clear H1.
  pose proof (dict_set_fmap_values
                (λ (j : Z) (p : Z * Z),
                   if decide (j = frm) then false
                   else bool_decide (Grid.cell b p.1 p.2 = Some 1))
                index_to_pos mid_idx false Hnd (Hkey _ _ Hmi')) as H1.
  cbv beta in H1. rewrite H1. clear H1.
  pose proof (dict_set_fmap_values
                (λ (j : Z) (p : Z * Z),
                   if decide (j = mid_idx) then false
                   else if decide (j = frm) then false
                   else bool_decide (Grid.cell b p.1 p.2 = Some 1))
                index_to_pos to true Hnd (Hkey _ _ Hto)) as H1.
  cbv beta in H1. rewrite H1. clear H1.
  apply list_fmap_ext. intros k [j [rj cj]] Hj'%list_elem_of_lookup_2. cbn [fst snd].
  f_equal.
  assert (dict_get index_to_pos j = Some (rj, cj)) as Hjp
    by (by apply elem_of_dict_get).
  pose proof (index_to_pos_in_range _ _ _ Hjp) as (_ & Hrj & Hcj).
  rewrite Hcells by lia.
  assert (∀ j' p', dict_get index_to_pos j' = Some p' →
                   j = j' ↔ (rj, cj) = p') as Hsame.
  { intros j' [r' c'] Hj''. split; [intros <-; congruence|].
    intros [= <- <-]. apply index_pos_inverse in Hjp, Hj''. congruence. }
  pose proof (Hsame _ _ Hto) as S1. pose proof (Hsame _ _ Hmi') as S2.
  pose proof (Hsame _ _ Hfrm) as S3.
  repeat case_decide; try (exfalso; tauto); try done;
    try (by rewrite bool_decide_eq_true_2); by rewrite bool_decide_eq_false_2.
Qed.

(** *** Counting the pegs *)

Lemma sumZ_filter_split {A} (f : A → Z) (P : A → Prop) `{∀ x, Decision (P x)}
    (l : list A) :
  sumZ (f <$> l) = sumZ (f <$> filter P l) + sumZ (f <$> filter (λ x, ¬ P x) l).
Proof.
  induction l as [|x l IH]; [done|].
  rewrite fmap_cons, !filter_cons.
  change (sumZ (f x :: (f <$> l))) with (f x + sumZ (f <$> l)). rewrite IH.
  destruct (decide (P x)) as [Hx|Hx].
  - rewrite decide_False by tauto. rewrite fmap_cons.
    change (sumZ (f x :: (f <$> filter P l))) with (f x + sumZ (f <$> filter P l)). lia.
  - rewrite decide_True by done. rewrite fmap_cons.
    change (sumZ (f x :: (f <$> filter (λ x, ¬ P x) l)))
      with (f x + sumZ (f <$> filter (λ x, ¬ P x) l)). lia.
Qed.

Lemma sumZ_zero (l : list Z) : Forall (λ x, x = 0) l → sumZ l = 0.
Proof.
  induction 1 as [|x l -> _ IH]; [done|].
  change (sumZ (0 :: l)) with (0 + sumZ l). lia.
Qed.

Lemma length_7_inv {A} (l : list A) :
  length l = 7%nat → ∃ x0 x1 x2 x3 x4 x5 x6, l = [x0; x1; x2; x3; x4; x5; x6].
Proof.
  intros H. do 8 (destruct l as [|? l]; try done). by eexists _, _, _, _, _, _, _.
Qed.

(** The count of [peg_count], cell by cell over the 49 positions. *)
Lemma peg_count_positions (b : grid) :
  shape b →
  Grid.peg_count b
  = sumZ ((λ p : Z * Z, from_option is_peg 0 (Grid.cell b p.1 p.2)) <$> positions).
Proof.
  intros [Hlen Hrows]. unfold Grid.peg_count. rewrite foldl_add_sumZ.
  apply length_7_inv in Hlen as (r0 & r1 & r2 & r3 & r4 & r5 & r6 & ->).
  repeat match goal with H : Forall _ (_ :: _) |- _ => apply Forall_cons in H as [? H] end.
  repeat match goal with
         | H : length _ = 7%nat |- _ =>
             apply length_7_inv in H as (? & ? & ? & ? & ? & ? & ? & ->)
         end.
  reflexivity.
Qed.

Lemma holes_of_positions :
  filter (λ p : Z * Z, dict_in p pos_to_index = true) positions = index_to_pos.*2.
Proof. by vm_compute. Qed.

Lemma soloT_peg_count_board (b : grid) :
  well_formed b = true → SoloT.peg_count (state_of_board b) = Grid.peg_count b.
Proof.
  intros Hwf. rewrite (peg_count_positions b) by by apply well_formed_shape.
  rewrite (sumZ_filter_split _ (λ p : Z * Z, dict_in p pos_to_index = true)).
  rewrite holes_of_positions, (sumZ_zero (_ <$> filter _ positions)), Z.add_0_r.
  - unfold SoloT.peg_count, state_of_board. rewrite foldl_add_sumZ, Z.add_0_l.
    rewrite <-!list_fmap_compose. f_equal. apply list_fmap_ext.
    intros k [i [r c]] _. unfold compose. cbn [fst snd].
    destruct (Grid.cell b r c) as [v|]; [|done]. cbn [from_option].
    rewrite bool_decide_peg. done.
  - apply Forall_fmap, Forall_forall. intros [r c] [Hno Hp]%list_elem_of_filter.
    apply elem_of_positions in Hp as [Hr Hc]. unfold compose. cbn [fst snd].
    destruct (well_formed_cell b r c Hwf Hr Hc) as (v & -> & Hok).
    destruct (dict_in (r, c) pos_to_index); [done|]. by subst v.
Qed.

Lemma soloT_state_board : SoloT.state = state_of_board board.
Proof. by vm_compute. Qed.

(** [soloT.py], which keeps a dictionary from hole ids to booleans, and
    [soloT2.py], which keeps the 7x7 grid, read a position alike: on the
    state that shows a well-formed board, [legal_moves] returns the same
    moves in the same order, [is_valid_move] gives the same answer for every
    pair of numbers, and [peg_count] counts the same pegs.  The two scripts
    start from such a pair. *)
Theorem soloT_reads_the_state_as_soloT2_the_board (b : grid) :
  well_formed b = true →
  SoloT.state = state_of_board board ∧
  well_formed_state (state_of_board b) ∧
  SoloT.legal_moves (state_of_board b) = Grid.legal_moves b ∧
  (∀ frm to,
     SoloT.is_valid_move (state_of_board b) frm to = SoloT2.is_valid_move b frm to) ∧
  SoloT.peg_count (state_of_board b) = Grid.peg_count b.
Proof.
  intros Hwf. split; [apply soloT_state_board|].
  split; [apply state_of_board_well_formed|].
  split; [by apply soloT_legal_moves_board|].
  split; [|by apply soloT_peg_count_board].
  intros frm to. by apply soloT_is_valid_move_board.
Qed.

Lemma soloT_reads_the_state_as_soloT2_the_board_witness :
  well_formed board_after_three = true ∧
  SoloT.state = state_of_board board ∧
  well_formed_state (state_of_board board_after_three) ∧
  SoloT.legal_moves (state_of_board board_after_three)
    = Grid.legal_moves board_after_three ∧
  (∀ frm to,
     SoloT.is_valid_move (state_of_board board_after_three) frm to
     = SoloT2.is_valid_move board_after_three frm to) ∧
  SoloT.peg_count (state_of_board board_after_three)
    = Grid.peg_count board_after_three.
Proof.
  split; [reflexivity|].
  apply (soloT_reads_the_state_as_soloT2_the_board board_after_three). reflexivity.
Defined.

(** *** Sessions *)

Lemma played_cons (m : move) (ms : list move) (ok : bool) (oks : list bool) :
  played (m :: ms) (ok :: oks) = (if ok then [m] else []) ++ played ms oks.
Proof.
  unfold played. cbn [zip zip_with]. rewrite filter_cons. cbn [snd].
  destruct ok; [by rewrite decide_True|by rewrite decide_False].
Qed.

Lemma sessions_agree (ms : list move) :
  ∀ b, well_formed b = true →
  ∃ b' oks,
    soloT2_session b ms = Some (b', oks) ∧
    soloT_session (state_of_board b) ms = Some (state_of_board b', oks) ∧
    length oks = length ms ∧
    reaches b (played ms oks) b'.
Proof.
  induction ms as [|[frm to] ms IH]; intros b Hwf.
  - exists b, []. split; [done|]. split; [done|]. split; [done|]. constructor.
  - cbn [soloT2_session soloT_session fst snd].
    rewrite soloT_make_move_board by done.
    destruct (soloT2_is_valid_move_legal b frm to Hwf) as ([|] & Hv & Hiff).
    + assert ((frm, to) ∈ jumps b) as Hm.
      { apply legal_jump_jumps; [done|]. by apply Hiff. }
      destruct (child_board_of_jump b (frm, to) Hwf Hm) as (b1 & Hb1 & Hwf1 & _).
      rewrite (soloT2_make_move_child_board b frm to Hv), Hb1, !bind_Some_l.
      cbn [fmap option_fmap option_map fst snd]. rewrite !bind_Some_l.
      destruct (IH b1 Hwf1) as (b' & oks & -> & -> & Hlen & Hr).
      exists b', (true :: oks). split; [done|]. split; [done|].
      split; [simpl; by rewrite Hlen|]. rewrite played_cons.
      econstructor; [by apply Hiff|done|done].
    + unfold SoloT2.make_move. rewrite Hv, !bind_Some_l. cbn [negb].
      cbn [fmap option_fmap option_map fst snd]. rewrite !bind_Some_l.
      destruct (IH b Hwf) as (b' & oks & -> & -> & Hlen & Hr).
      exists b', (false :: oks). split; [done|]. split; [done|].
      split; [simpl; by rewrite Hlen|]. by rewrite played_cons.
Qed.

(** Whatever pairs of numbers the player enters, the two games stay
    together: fed the same pairs, [make_move] of [soloT.py] and of
    [soloT2.py] raise nothing and give the same answers; the state of the one
    shows the board of the other after every call; and the board at the end
    is the board reached by the moves answered [True], which are legal moves,
    each taking one peg. *)
Theorem soloT_and_soloT2_sessions_agree (b : grid) (ms : list move) :
  well_formed b = true →
  ∃ b' oks,
    soloT2_session b ms = Some (b', oks) ∧
    soloT_session (state_of_board b) ms = Some (state_of_board b', oks) ∧
    length oks = length ms ∧
    reaches b (played ms oks) b' ∧
    well_formed b' = true ∧
    Grid.peg_count b' = Grid.peg_count b - Z.of_nat (length (played ms oks)) ∧
    SoloT.peg_count (state_of_board b') = Grid.peg_count b'.
Proof.
  intros Hwf. destruct (sessions_agree ms b Hwf) as (b' & oks & H2 & H1 & Hlen & Hr).
  destruct (reaches_peg_count b b' _ Hwf Hr) as [Hwf' Hpc].
  exists b', oks. repeat (split; [done|]). by apply soloT_peg_count_board.
Qed.

Lemma soloT_and_soloT2_sessions_agree_witness :
  well_formed board = true ∧
  ∃ b' oks,
    soloT2_session board [(5, 17); (5, 17); (12, 10); (40, 2)] = Some (b', oks) ∧
    soloT_session (state_of_board board) [(5, 17); (5, 17); (12, 10); (40, 2)]
      = Some (state_of_board b', oks) ∧
    length oks = 4%nat ∧
    reaches board (played [(5, 17); (5, 17); (12, 10); (40, 2)] oks) b' ∧
    well_formed b' = true ∧
    Grid.peg_count b'
      = Grid.peg_count board
        - Z.of_nat (length (played [(5, 17); (5, 17); (12, 10); (40, 2)] oks)) ∧
    SoloT.peg_count (state_of_board b') = Grid.peg_count b'.
Proof.
  split; [reflexivity|].
  apply (soloT_and_soloT2_sessions_agree board [(5, 17); (5, 17); (12, 10); (40, 2)]).
  reflexivity.
Defined.

(** ** [list_moves] *)

Lemma dict_get_set {K V} `{EqDecision K} (d : list (K * V)) (k k' : K) (v : V) :
  dict_get (dict_set d k v) k' = if decide (k = k') then Some v else dict_get d k'.
Proof.
  induction d as [|[k0 v0] d IH].
  - cbn [dict_set]. rewrite dict_get_cons. by case_decide.
  - cbn [dict_set]. destruct (decide (k0 = k)) as [->|Hne].
    + rewrite !dict_get_cons. by case_decide.
    + rewrite !dict_get_cons, IH. repeat case_decide; congruence.
Qed.

Lemma dict_set_keys {K V} `{EqDecision K} (d : list (K * V)) (k : K) (v : V) :
  (dict_set d k v).*1 = if decide (k ∈ d.*1) then d.*1 else d.*1 ++ [k].
Proof.
  induction d as [|[k0 v0] d IH].
  - cbn [dict_set]. rewrite decide_False; [done|]. by intros ?%elem_of_nil.
  - cbn [dict_set]. destruct (decide (k0 = k)) as [->|Hne].
    + rewrite fmap_cons. cbn [fst]. rewrite decide_True; [done|]. rewrite fmap_cons. left.
    + rewrite !fmap_cons, IH. cbn [fst]. destruct (decide (k ∈ d.*1)) as [Hin|Hout].
      * rewrite decide_True; [done|]. by right.
      * rewrite decide_False; [done|]. intros [->|?]%elem_of_cons; done.
Qed.

Lemma targets_of_cons (f : Z) (m : move) (lm : list move) :
  targets_of f (m :: lm) = (if decide (m.1 = f) then [m.2] else []) ++ targets_of f lm.
Proof. unfold targets_of. rewrite filter_cons. by case_decide. Qed.

Lemma elem_of_targets_of (f t : Z) (lm : list move) :
  t ∈ targets_of f lm ↔ (f, t) ∈ lm.
Proof.
  unfold targets_of. rewrite list_elem_of_fmap. split.
  - intros ([f' t'] & -> & [Hf Hm]%list_elem_of_filter). simpl in Hf. by subst f'.
  - intros Hm. exists (f, t). split; [done|]. by apply list_elem_of_filter.
Qed.

Lemma targets_of_NoDup (f : Z) (lm : list move) : NoDup lm → NoDup (targets_of f lm).
Proof.
  intros Hnd. unfold targets_of. apply NoDup_fmap_2_strong; [|by apply NoDup_filter].
  intros [f1 t1] [f2 t2] [Hf1 _]%list_elem_of_filter [Hf2 _]%list_elem_of_filter.
  simpl in *. congruence.
Qed.

(** What the loop over [lm] leaves in [by_from]: the holes some move starts
    in, each once, each with the targets of its moves. *)
Lemma setdefault_append_fold (lm : list move) :
  ∀ acc : list (Z * list Z),
    NoDup acc.*1 →
    NoDup (foldl Grid.setdefault_append acc lm).*1 ∧
    ∀ f, dict_get (foldl Grid.setdefault_append acc lm) f
         = match dict_get acc f with
           | Some tos => Some (tos ++ targets_of f lm)
           | None => if decide (f ∈ lm.*1) then Some (targets_of f lm) else None
           end.
Proof.
  induction lm as [|[f0 t0] lm IH]; intros acc Hnd.
  - split; [done|]. intros f. simpl. destruct (dict_get acc f) as [tos|].
    + unfold targets_of. by rewrite app_nil_r.
    + done.
  - change (foldl Grid.setdefault_append acc ((f0, t0) :: lm))
      with (foldl Grid.setdefault_append (Grid.setdefault_append acc (f0, t0)) lm).
    set (acc1 := Grid.setdefault_append acc (f0, t0)).
    assert (NoDup acc1.*1 ∧
            ∀ f, dict_get acc1 f
                 = if decide (f0 = f)
                   then Some (default [] (dict_get acc f0) ++ [t0])
                   else dict_get acc f) as [Hnd1 Hget1].
    { unfold acc1, Grid.setdefault_append.
      destruct (dict_get acc f0) as [tos|] eqn:Hf0.
      - split; [|intros f; by rewrite dict_get_set].
        rewrite dict_set_keys, decide_True; [done|].
        apply dict_get_is_Some_keys. by eexists.
      - split; [|intros f; by rewrite dict_get_set].
        rewrite dict_set_keys, decide_False.
        + apply NoDup_app. split; [done|]. split; [|apply NoDup_singleton].
          intros k Hk ->%list_elem_of_singleton.
          apply dict_get_is_Some_keys in Hk as [? ?]. congruence.
        + intros [? ?]%dict_get_is_Some_keys. congruence. }
    destruct (IH acc1 Hnd1) as [Hnd' Hget']. split; [done|].
    intros f. rewrite Hget', Hget1, targets_of_cons. cbn [fst snd fmap].
    rewrite fmap_cons. cbn [fst].
    destruct (decide (f0 = f)) as [->|Hne].
    + destruct (dict_get acc f) as [tos|]; simpl.
      * by rewrite <-app_assoc.
      * rewrite decide_True; [done|]. left.
    + destruct (dict_get acc f) as [tos|]; [done|].
      destruct (decide (f ∈ lm.*1)) as [Hin|Hout].
      * rewrite decide_True; [done|]. by right.
      * rewrite decide_False; [done|]. intros [->|?]%elem_of_cons; done.
Qed.

Lemma sorted_strictly (l : list Z) : NoDup l → StronglySorted Z.lt (sorted l).
Proof.
  intros Hnd. unfold sorted.
  assert (NoDup (merge_sort Z.le l)) as Hnd' by by rewrite merge_sort_Permutation.
  pose proof (StronglySorted_merge_sort Z.le l) as Hs.
  induction Hs as [|x l' Hl' IH Hx]; [constructor|].
  apply NoDup_cons in Hnd' as [Hx' Hnd'].
  constructor; [by apply IH|].
  apply Forall_forall. intros y Hy. rewrite Forall_forall in Hx.
  specialize (Hx y Hy). assert (x ≠ y) by (by intros ->). lia.
Qed.

Lemma elem_of_sorted (x : Z) (l : list Z) : x ∈ sorted l ↔ x ∈ l.
Proof. unfold sorted. by rewrite merge_sort_Permutation. Qed.

(** [list_moves] shows the legal moves, all of them and nothing else.  On a
    well-formed board without legal moves it prints "No legal moves.";
    otherwise it prints one line for each hole that some legal move starts
    in, the holes in ascending order, and on the line of a hole the targets
    of its moves in ascending order, each once. *)
Theorem list_moves_shows_the_legal_moves (b : grid) :
  well_formed b = true →
  ∃ lm lines,
    Grid.legal_moves b = Some lm ∧
    Grid.list_moves b = Some lines ∧
    (lm = [] → lines = ["No legal moves."%string]) ∧
    (lm ≠ [] →
     ∃ groups : list (Z * list Z),
       lines = listing_line <$> groups ∧
       StronglySorted Z.lt groups.*1 ∧
       Forall (λ g, StronglySorted Z.lt g.2 ∧ g.2 ≠ []) groups ∧
       ∀ f t, (∃ tos, (f, tos) ∈ groups ∧ t ∈ tos) ↔ (f, t) ∈ lm).
Proof.
  intros Hwf. exists (jumps b).
  assert (NoDup (jumps b)) as Hnd.
  { apply (StronglySorted_NoDup from_direction_order);
      [apply from_direction_order_irrefl|apply jumps_sorted]. }
  unfold Grid.list_moves. rewrite legal_moves_jumps, bind_Some_l by done.
  set (lm := jumps b) in *.
  destruct (setdefault_append_fold lm [] (NoDup_nil_2)) as [Hkeys Hget].
  set (by_from := foldl Grid.setdefault_append [] lm) in *.
  assert (∀ f, dict_get by_from f
               = if decide (f ∈ lm.*1) then Some (targets_of f lm) else None) as Hget'.
  { intros f. by rewrite Hget. }
  assert (∀ f, f ∈ by_from.*1 ↔ f ∈ lm.*1) as Hin.
  { intros f. rewrite <-dict_get_is_Some_keys, Hget'.
    case_decide as Hf; [split; [done|by eexists]|split; [by intros [? ?]|done]]. }
  case_bool_decide as Hlm.
  { eexists. split; [done|]. split; [done|]. split; done. }
  set (groups := (λ f, (f, sorted (targets_of f lm))) <$> sorted by_from.*1).
  exists (listing_line <$> groups). split; [done|]. split.
  { cbv zeta. unfold groups. rewrite <-list_fmap_compose. apply mapM_fmap_total.
    intros f Hf%elem_of_sorted%Hin. rewrite Hget', decide_True by done. done. }
  split; [done|]. intros _. exists groups. split; [done|].
  assert (groups.*1 = sorted by_from.*1) as Hfst.
  { unfold groups. rewrite <-list_fmap_compose. apply list_fmap_id. }
  split; [rewrite Hfst; by apply sorted_strictly|]. split.
  - apply Forall_fmap, Forall_forall. intros f Hf%elem_of_sorted%Hin. simpl. split.
    + by apply sorted_strictly, targets_of_NoDup.
    + apply list_elem_of_fmap in Hf as ([f' t] & -> & Hm). simpl.
      intros Hnil. assert (t ∈ sorted (targets_of f' lm)) as Ht
        by (by apply elem_of_sorted, elem_of_targets_of).
      rewrite Hnil in Ht. by apply elem_of_nil in Ht.
  - intros f t. split.
    + intros (tos & (f' & [= -> ->] & Hf)%list_elem_of_fmap & Ht).
      by apply elem_of_sorted, elem_of_targets_of in Ht.
    + intros Hm. exists (sorted (targets_of f lm)). split.
      * apply list_elem_of_fmap. exists f. split; [done|].
        apply elem_of_sorted, Hin, list_elem_of_fmap. by exists (f, t).
      * by apply elem_of_sorted, elem_of_targets_of.
Qed.

Lemma list_moves_shows_the_legal_moves_witness :
  well_formed board_after_three = true ∧
  Grid.list_moves board_after_three
    = Some ["9 -> 23"; "17 -> 15, 29"; "18 -> 30"; "21 -> 23"; "25 -> 23";
            "31 -> 23"]%string ∧
  ∃ lm lines,
    Grid.legal_moves board_after_three = Some lm ∧
    Grid.list_moves board_after_three = Some lines ∧
    (lm = [] → lines = ["No legal moves."%string]) ∧
    (lm ≠ [] →
     ∃ groups : list (Z * list Z),
       lines = listing_line <$> groups ∧
       StronglySorted Z.lt groups.*1 ∧
       Forall (λ g, StronglySorted Z.lt g.2 ∧ g.2 ≠ []) groups ∧
       ∀ f t, (∃ tos, (f, tos) ∈ groups ∧ t ∈ tos) ↔ (f, t) ∈ lm).
Proof.
  split; [reflexivity|]. split; [vm_compute; reflexivity|].
  apply (list_moves_shows_the_legal_moves board_after_three). reflexivity.
Defined.

(** ** [render] *)

Lemma string_app_length (s t : string) :
  String.length (s +:+ t) = (String.length s + String.length t)%nat.
Proof. induction s as [|a s IH]; [done|]. simpl. by rewrite IH. Qed.

Lemma string_app_inj_length (s1 s2 t1 t2 : string) :
  String.length s1 = String.length s2 → s1 +:+ t1 = s2 +:+ t2 → s1 = s2 ∧ t1 = t2.
Proof.
  revert s2. induction s1 as [|a s1 IH]; intros [|a' s2] Hlen Happ; try done.
  simpl in Hlen, Happ. injection Hlen as Hlen. injection Happ as -> Happ.
  destruct (IH s2 Hlen Happ) as [-> ->]. done.
Qed.

Lemma cell_text_glyph (val : Z) : cell_text val = String (glyph val) (String " " "").
Proof. unfold cell_text, glyph. by destruct (val =? -1), (val =? 1). Qed.

Lemma glyph_inj (x y : Z) :
  x = -1 ∨ x = 0 ∨ x = 1 → y = -1 ∨ y = 0 ∨ y = 1 → glyph x = glyph y → x = y.
Proof. intros [->|[->| ->]] [->|[->| ->]]; by vm_compute. Qed.

Lemma row_text_cons (x : Z) (row : list Z) :
  row_text (x :: row) = String (glyph x) (String " " (row_text row)).
Proof.
  unfold row_text. rewrite fmap_cons. destruct row as [|y row].
  - simpl. apply cell_text_glyph.
  - rewrite fmap_cons. cbn [String.concat]. by rewrite cell_text_glyph.
Qed.

Lemma row_text_length (row : list Z) :
  String.length (row_text row) = (2 * length row)%nat.
Proof.
  induction row as [|x row IH]; [done|]. rewrite row_text_cons. simpl. rewrite IH. lia.
Qed.

Lemma row_text_inj (row row' : list Z) :
  Forall (λ x, x = -1 ∨ x = 0 ∨ x = 1) row →
  Forall (λ x, x = -1 ∨ x = 0 ∨ x = 1) row' →
  row_text row = row_text row' → row = row'.
Proof.
  intros Hrow. revert row'. induction Hrow as [|x row Hx Hrow IH]; intros row' Hrow' Heq.
  - destruct row' as [|y row']; [done|]. by rewrite row_text_cons in Heq.
  - destruct Hrow' as [|y row' Hy Hrow']; rewrite !row_text_cons in Heq; [done|].
    injection Heq as Hg Heq. f_equal; [by apply glyph_inj|by apply IH].
Qed.

Lemma board_text_cons (row row' : list Z) (rows : grid) :
  board_text (row :: row' :: rows)
  = row_text row +:+ newline +:+ board_text (row' :: rows).
Proof. done. Qed.

Lemma board_text_inj (b b' : grid) :
  Forall tidy_row b → Forall tidy_row b' → length b = length b' →
  board_text b = board_text b' → b = b'.
Proof.
  intros Hb. revert b'. induction Hb as [|row b [Hlen Hrow] Hb IH]; intros b' Hb' Hl Heq.
  - by destruct b'.
  - destruct Hb' as [|row' b' [Hlen' Hrow'] Hb']; [done|].
    simpl in Hl. injection Hl as Hl.
    destruct b as [|r1 b], b' as [|r1' b']; try done.
    + f_equal. by apply row_text_inj.
    + rewrite !board_text_cons in Heq.
      apply string_app_inj_length in Heq as [Hr Heq];
        [|by rewrite !row_text_length, Hlen, Hlen'].
      apply (inj _) in Heq. f_equal; [by apply row_text_inj|by apply IH].
Qed.

Lemma well_formed_tidy (b : grid) : well_formed b = true → Forall tidy_row b.
Proof.
  intros Hwf. apply Forall_forall. intros row Hrow.
  pose proof (well_formed_row b row Hwf Hrow) as Hlen. split; [done|].
  apply Forall_forall. intros x Hx.
  apply list_elem_of_lookup in Hrow as [r Hr], Hx as [c Hc].
  pose proof (lookup_lt_Some _ _ _ Hr) as Hr7. pose proof (lookup_lt_Some _ _ _ Hc) as Hc7.
  rewrite (well_formed_length b Hwf) in Hr7. rewrite Hlen in Hc7.
  destruct (well_formed_cell b (Z.of_nat r) (Z.of_nat c) Hwf) as (v & Hv & Hok); [lia..|].
  rewrite cell_lookup, !Nat2Z.id, Hr in Hv by lia. simpl in Hv. rewrite Hc in Hv.
  injection Hv as <-. destruct (dict_in _ pos_to_index); lia.
Qed.

(** On a board of seven rows of seven cells [render] raises nothing and
    returns the picture of the rows, line by line. *)
Lemma render_board_text (b : grid) : shape b → Grid.render b = Some (board_text b).
Proof.
  intros [Hlen Hrows].
  apply length_7_inv in Hlen as (r0 & r1 & r2 & r3 & r4 & r5 & r6 & ->).
  repeat match goal with H : Forall _ (_ :: _) |- _ => apply Forall_cons in H as [? H] end.
  repeat match goal with
         | H : length _ = 7%nat |- _ =>
             apply length_7_inv in H as (? & ? & ? & ? & ? & ? & ? & ->)
         end.
  reflexivity.
Qed.

Lemma board_text_length (b : grid) :
  Forall tidy_row b → length b = 7%nat → String.length (board_text b) = 104%nat.
Proof.
  intros Hb Hlen.
  apply length_7_inv in Hlen as (r0 & r1 & r2 & r3 & r4 & r5 & r6 & ->).
  repeat match goal with H : Forall _ (_ :: _) |- _ => apply Forall_cons in H as [[? _] H] end.
  rewrite !board_text_cons, !string_app_length.
  change (board_text [r6]) with (row_text r6).
  rewrite !row_text_length.
  repeat match goal with H : length _ = 7%nat |- _ => rewrite H; clear H end.
  reflexivity.
Qed.

(** [render] shows the whole position.  On a well-formed board it raises
    nothing and returns a text of 104 characters, seven lines of fourteen;
    and two well-formed boards with the same text are the same board. *)
Theorem render_shows_the_whole_board (b b' : grid) :
  well_formed b = true → well_formed b' = true →
  (∃ s, Grid.render b = Some s ∧ String.length s = 104%nat) ∧
  (Grid.render b = Grid.render b' → b = b').
Proof.
  intros Hwf Hwf'. rewrite !render_board_text by by apply well_formed_shape. split.
  - eexists. split; [done|].
    apply board_text_length; [by apply well_formed_tidy|by apply well_formed_length].
  - intros [= Heq]. apply board_text_inj; [by apply well_formed_tidy..| |done].
    by rewrite !well_formed_length.
Qed.

Lemma render_shows_the_whole_board_witness :
  (well_formed board = true ∧ well_formed board_after_three = true) ∧
  (∃ s, Grid.render board = Some s ∧ String.length s = 104%nat) ∧
  (Grid.render board = Grid.render board_after_three → board = board_after_three).
Proof.
  split; [split; reflexivity|].
  apply (render_shows_the_whole_board board board_after_three); reflexivity.
Defined.

(** ** [render] of [soloT2.py] and [test.py] *)

Lemma mapM_ext_bind {A B C} (f g : A → option B) (k : list B → option C) (l : list A) :
  (∀ x, x ∈ l → f x = g x) → (mapM f l ≫= k) = (mapM g l ≫= k).
Proof. intros Hfg. by rewrite (mapM_ext_in f g l Hfg). Qed.

Lemma elem_of_rows (r : Z) : r ∈ seqZ 0 ROWS → 0 ≤ r < 7.
Proof. intros H%elem_of_seqZ. unfold ROWS in H. lia. Qed.

Lemma elem_of_cols (c : Z) : c ∈ seqZ 0 COLS → 0 ≤ c < 7.
Proof. intros H%elem_of_seqZ. unfold COLS in H. lia. Qed.

(** [render] with and without numbers.  Without them it is [render] of
    [bfs.py] on every board.  With them it shows, on every well-formed board,
    the same picture whatever the position: no peg is on it, and every hole
    has its two-digit id at its place, line [r], column [2 c]. *)
Theorem soloT2_render_with_and_without_numbers (b : grid) :
  well_formed b = true →
  SoloT2.render false b = Grid.render b ∧
  SoloT2.render true b = Some numbered_picture ∧
  ∀ i r c, dict_get index_to_pos i = Some (r, c) →
    String.substring (Z.to_nat (15 * r + 2 * c)) 2 numbered_picture = format_02d i.
Proof.
  intros Hwf. split; [|split].
  - unfold SoloT2.render, Grid.render. apply mapM_ext_bind. intros r _.
    apply mapM_ext_bind. intros c _.
    destruct (Grid.cell b r c) as [val|]; [|done]. rewrite !bind_Some_l.
    by destruct (val =? -1).
  - change (Some numbered_picture) with (SoloT2.render true board).
    unfold SoloT2.render. apply mapM_ext_bind. intros r Hr%elem_of_rows.
    apply mapM_ext_bind. intros c Hc%elem_of_cols.
    destruct (well_formed_cell b r c Hwf Hr Hc) as (v & -> & Hv).
    destruct (well_formed_cell board r c eq_refl Hr Hc) as (v0 & -> & Hv0).
    rewrite !bind_Some_l. destruct (dict_in (r, c) pos_to_index).
    + by destruct Hv as [-> | ->], Hv0 as [-> | ->].
    + by subst.
  - intros i r c Hi%dict_get_elem_of.
    assert (forallb (λ ip : Z * (Z * Z),
                       bool_decide (String.substring (Z.to_nat (15 * ip.2.1 + 2 * ip.2.2)) 2
                                      numbered_picture = format_02d ip.1))
                    index_to_pos = true) as Hall by (by vm_compute).
    apply (forallb_elem_of _ _ _ Hall) in Hi. by apply bool_decide_eq_true in Hi.
Qed.

Lemma soloT2_render_with_and_without_numbers_witness :
  well_formed board_after_three = true ∧
  SoloT2.render false board_after_three = Grid.render board_after_three ∧
  SoloT2.render true board_after_three = Some numbered_picture ∧
  ∀ i r c, dict_get index_to_pos i = Some (r, c) →
    String.substring (Z.to_nat (15 * r + 2 * c)) 2 numbered_picture = format_02d i.
Proof.
  split; [reflexivity|].
  apply (soloT2_render_with_and_without_numbers board_after_three). reflexivity.
Defined.

(** ** Numbers that are no holes *)

Lemma not_a_hole (i : Z) : ¬ (1 ≤ i ≤ 33) → dict_in i index_to_pos = false.
Proof.
  intros Hi. apply dict_in_false. destruct (dict_get index_to_pos i) as [[r c]|] eqn:H; [|done].
  apply index_to_pos_in_range in H as [H _]. by destruct Hi.
Qed.

Lemma not_in_state (st : list (Z * bool)) (i : Z) :
  well_formed_state st → ¬ (1 ≤ i ≤ 33) → dict_in i st = false.
Proof.
  intros Hst Hi. apply not_true_is_false. intros H%dict_in_Some%state_key_hole; [|done].
  apply dict_in_Some in H. by rewrite not_a_hole in H.
Qed.

(** A pair of numbers of which one is not the id of a hole is no move, and
    no error either: [is_valid_move] answers [False] before it looks anything
    up, on every board (well formed or not) and every state, and [make_move]
    answers [False] and changes nothing. *)
Theorem moves_between_unknown_holes_are_rejected
    (b : grid) (st : list (Z * bool)) (frm to : Z) :
  well_formed_state st →
  ¬ (1 ≤ frm ≤ 33) ∨ ¬ (1 ≤ to ≤ 33) →
  SoloT2.is_valid_move b frm to = Some false ∧
  SoloT2.make_move b frm to = Some (b, false) ∧
  SoloT.is_valid_move st frm to = Some false ∧
  SoloT.make_move st frm to = Some (st, false).
Proof.
  intros Hst Hbad.
  assert (SoloT2.is_valid_move b frm to = Some false) as H2.
  { unfold SoloT2.is_valid_move. destruct Hbad as [Hf|Ht].
    - by rewrite (not_a_hole frm Hf).
    - rewrite (not_a_hole to Ht). by destruct (dict_in frm index_to_pos). }
  assert (SoloT.is_valid_move st frm to = Some false) as H1.
  { unfold SoloT.is_valid_move. destruct Hbad as [Hf|Ht].
    - by rewrite (not_in_state st frm Hst Hf).
    - rewrite (not_in_state st to Hst Ht). by destruct (dict_in frm st). }
  split; [done|]. split; [|split; [done|]].
  - unfold SoloT2.make_move. by rewrite H2.
  - unfold SoloT.make_move. by rewrite H1.
Qed.

Lemma moves_between_unknown_holes_are_rejected_witness :
  (well_formed_state SoloT.state ∧ (¬ (1 ≤ 40 ≤ 33) ∨ ¬ (1 ≤ 2 ≤ 33))) ∧
  SoloT2.is_valid_move [] 40 2 = Some false ∧
  SoloT2.make_move [] 40 2 = Some ([], false) ∧
  SoloT.is_valid_move SoloT.state 40 2 = Some false ∧
  SoloT.make_move SoloT.state 40 2 = Some (SoloT.state, false).
Proof.
  split; [split; [reflexivity|left; lia]|].
  apply (moves_between_unknown_holes_are_rejected [] SoloT.state 40 2);
    [reflexivity|left; lia].
Defined.

(** ** The building loop *)

Lemma dict_set_fresh {K V} `{EqDecision K} (d : list (K * V)) (k : K) (v : V) :
  k ∉ d.*1 → dict_set d k v = d ++ [(k, v)].
Proof.
  induction d as [|[k0 v0] d IH]; intros Hk; [done|].
  rewrite fmap_cons in Hk. cbn [fst] in Hk. apply not_elem_of_cons in Hk as [Hne Hk].
  cbn [dict_set]. rewrite decide_False by done. by rewrite IH.
Qed.

Lemma dict_get_snoc {K V} `{EqDecision K} (d : list (K * V)) (k k' : K) (v : V) :
  dict_get (d ++ [(k, v)]) k'
  = match dict_get d k' with
    | Some x => Some x
    | None => if decide (k = k') then Some v else None
    end.
Proof.
  induction d as [|[k0 v0] d IH]; [done|].
  rewrite <-app_comm_cons, !dict_get_cons.
  destruct (decide (k0 = k')); [done|apply IH].
Qed.

Lemma enumerate_from_snoc {A} (i : Z) (l : list A) (x : A) :
  enumerate_from i (l ++ [x]) = enumerate_from i l ++ [(i + Z.of_nat (length l), x)].
Proof.
  revert i. induction l as [|y l IH]; intros i; simpl.
  - by rewrite Z.add_0_r.
  - rewrite IH. by replace (i + 1 + Z.of_nat (length l))
      with (i + Z.of_nat (S (length l))) by lia.
Qed.

Lemma enumerate_from_keys {A} (i : Z) (l : list A) :
  (enumerate_from i l).*1 = seqZ i (Z.of_nat (length l)).
Proof.
  revert i. induction l as [|y l IH]; intros i; [done|].
  cbn [enumerate_from length]. rewrite fmap_cons, IH, (seqZ_cons i) by lia.
  cbn [fst]. by replace (Z.pred (Z.of_nat (S (length l)))) with (Z.of_nat (length l)) by lia.
Qed.

Lemma enumerate_from_values {A} (i : Z) (l : list A) : (enumerate_from i l).*2 = l.
Proof. revert i. induction l as [|y l IH]; intros i; [done|]. simpl. by rewrite IH. Qed.

Lemma cell_replicate (r c : Z) :
  0 ≤ r < 7 → 0 ≤ c < 7 →
  Grid.cell (replicate (Z.to_nat ROWS) (replicate (Z.to_nat COLS) (-1))) r c = Some (-1).
Proof.
  intros Hr Hc. rewrite cell_lookup by lia.
  destruct (Z.to_nat r) as [|[|[|[|[|[|[|?]]]]]]] eqn:Er; try lia;
    destruct (Z.to_nat c) as [|[|[|[|[|[|[|?]]]]]]] eqn:Ec; try lia; reflexivity.
Qed.

Lemma built_start : built [] globals0.
Proof.
  unfold built. simpl. split; [constructor|]. split; [constructor|].
  do 3 (split; [done|]). split.
  - split; [done|]. by repeat constructor.
  - intros r c Hr Hc. by apply cell_replicate.
Qed.

(** The three lines that write the board are a write of a cell. *)
Lemma scan_cell_set_cell (r c : Z) (ch : ascii) (g : globals) (v : Z) :
  hole_value ch = Some v →
  scan_cell r c ch g
  = (b' ← Grid.set_cell (g_board g) r c v;
     Some (Globals b' (dict_set (g_index_to_pos g) (g_idx g) (r, c))
                   (dict_set (g_pos_to_index g) (r, c) (g_idx g)) (g_idx g + 1))).
Proof.
  unfold hole_value, scan_cell, Grid.set_cell. intros Hv.
  destruct (bool_decide (ch = "x"%char)); cbn [orb].
  - injection Hv as <-. destruct (getitem (g_board g) r) as [row|]; [|done].
    rewrite !bind_Some_l. by destruct (setitem row c 1).
  - destruct (bool_decide (ch = "o"%char)); [|done]. injection Hv as <-.
    destruct (getitem (g_board g) r) as [row|]; [|done].
    rewrite !bind_Some_l. by destruct (setitem row c 0).
Qed.

Lemma scan_cell_skip (r c : Z) (ch : ascii) (g : globals) :
  hole_value ch = None → scan_cell r c ch g = Some g.
Proof.
  unfold hole_value, scan_cell.
  destruct (bool_decide (ch = "x"%char)); [done|].
  by destruct (bool_decide (ch = "o"%char)).
Qed.

(** A write of a cell that raises nothing is a write inside the board. *)
Lemma set_cell_in_range (b b' : grid) (r c v : Z) :
  shape b → 0 ≤ r → 0 ≤ c → Grid.set_cell b r c v = Some b' → r < 7 ∧ c < 7.
Proof.
  intros [Hlen Hrows] Hr Hc. unfold Grid.set_cell. rewrite getitem_nonneg by done.
  destruct (b !! Z.to_nat r) as [row|] eqn:Hrow; [|done]. rewrite bind_Some_l.
  pose proof (lookup_lt_Some _ _ _ Hrow) as Hlt.
  pose proof (Forall_lookup_1 _ _ _ _ Hrows Hrow) as Hrl. simpl in Hrl.
  destruct (setitem row c v) as [row'|] eqn:Hs; [|done]. intros _.
  unfold setitem in Hs. rewrite (proj2 (Z.leb_le 0 c) Hc) in Hs.
  destruct (c <? Z.of_nat (length row)) eqn:Hcl; [|done].
  apply Z.ltb_lt in Hcl. lia.
Qed.

Lemma before_trans (p q s : Z * Z) : before p q → before q s → before p s.
Proof. unfold before. lia. Qed.

(** One character of the template. *)
Lemma scan_cell_built (hs : list ((Z * Z) * Z)) (g g' : globals) (r c : Z) (ch : ascii) :
  built hs g → Forall (λ p, before p (r, c)) hs.*1 → 0 ≤ r → 0 ≤ c →
  scan_cell r c ch g = Some g' →
  built (hs ++ option_list ((λ v, ((r, c), v)) <$> hole_value ch)) g'.
Proof.
  intros (Hfits & Hsorted & Hi2p & Hp2i & Hidx & Hshape & Hcells) Hbefore Hr Hc Hscan.
  destruct (hole_value ch) as [v|] eqn:Hv.
  2:{ rewrite scan_cell_skip in Hscan by done. injection Hscan as <-.
      simpl. rewrite app_nil_r. done. }
  rewrite (scan_cell_set_cell r c ch g v Hv) in Hscan.
  destruct (Grid.set_cell (g_board g) r c v) as [b'|] eqn:Hset; [|done].
  injection Hscan as <-.
  destruct (set_cell_in_range _ _ _ _ _ Hshape Hr Hc Hset) as [Hr7 Hc7].
  destruct (set_cell_spec (g_board g) r c v _ Hshape (conj Hr Hr7) (conj Hc Hc7)
              (Hcells r c (conj Hr Hr7) (conj Hc Hc7)))
    as (b'' & Hset' & Hshape' & Hcells' & _).
  rewrite Hset in Hset'. injection Hset' as <-.
  assert ((r, c) ∉ hs.*1) as Hfresh.
  { intros Hin. rewrite Forall_forall in Hbefore. specialize (Hbefore _ Hin).
    unfold before in Hbefore. simpl in Hbefore. lia. }
  assert (g_idx g ∉ (g_index_to_pos g).*1) as Hfresh'.
  { rewrite Hi2p, <-list_fmap_compose.
    change (fst ∘ _) with (fst : Z * ((Z * Z) * Z) → Z).
    rewrite enumerate_from_keys, elem_of_seqZ. lia. }
  simpl option_list. unfold built. cbn [g_board g_index_to_pos g_pos_to_index g_idx].
  rewrite enumerate_from_snoc, !fmap_app, length_app. simpl.
  split; [|split; [|split; [|split; [|split; [|split]]]]].
  - apply Forall_app. split; [done|]. repeat constructor; simpl; unfold ROWS, COLS; lia.
  - apply StronglySorted_app_2; [|done|by repeat constructor].
    intros p q Hp ->%list_elem_of_singleton. rewrite Forall_forall in Hbefore. auto.
  - rewrite dict_set_fresh by done. by rewrite Hi2p, Hidx.
  - rewrite dict_set_fresh.
    + by rewrite Hp2i, Hidx.
    + rewrite Hp2i, <-list_fmap_compose.
      replace ((fst ∘ (λ kx : Z * ((Z * Z) * Z), (kx.2.1, kx.1))) <$> enumerate_from 1 hs)
        with ((enumerate_from 1 hs).*2.*1); [by rewrite enumerate_from_values|].
      by rewrite <-list_fmap_compose.
  - lia.
  - done.
  - intros r' c' Hr' Hc'. rewrite Hcells' by lia. rewrite dict_get_snoc.
    case_decide as Heq.
    + injection Heq as -> ->.
      destruct (dict_get hs (r, c)) as [x|] eqn:Hx.
      * destruct Hfresh. apply dict_get_is_Some_keys. by eexists.
      * by rewrite decide_True.
    + rewrite Hcells by done. destruct (dict_get hs (r', c')) as [x|]; [done|].
      rewrite decide_False; [done|]. congruence.
Qed.

(** Inside the board the body of the loop raises nothing. *)
Lemma scan_cell_on_board (hs : list ((Z * Z) * Z)) (g : globals) (r c : Z) (ch : ascii) :
  built hs g → 0 ≤ r < 7 → 0 ≤ c < 7 → is_Some (scan_cell r c ch g).
Proof.
  intros (_ & _ & _ & _ & _ & Hshape & Hcells) Hr Hc.
  destruct (hole_value ch) as [v|] eqn:Hv.
  - rewrite (scan_cell_set_cell r c ch g v Hv).
    destruct (set_cell_spec (g_board g) r c v _ Hshape Hr Hc (Hcells r c Hr Hc))
      as (b' & -> & _).
    rewrite bind_Some_l. by eexists.
  - rewrite scan_cell_skip by done. by eexists.
Qed.

(** Once the body has raised, the loops are over. *)
Lemma scan_cells_raised (r : Z) (l : list (Z * ascii)) :
  foldl (λ acc '(c, ch), g ← acc; scan_cell r c ch g) None l = None.
Proof. induction l as [|[c ch] l IH]; [done|]. simpl. apply IH. Qed.

Lemma scan_rows_raised (l : list (Z * string)) :
  foldl (λ acc '(r, row), g ← acc; scan_row r row g) None l = None.
Proof. induction l as [|[r row] l IH]; [done|]. simpl. apply IH. Qed.

Lemma row_holes_row (r c : Z) (chs : list ascii) :
  Forall (λ p, p.1 = r) (row_holes r c chs).*1.
Proof.
  revert c. induction chs as [|ch chs IH]; intros c; [constructor|].
  cbn [row_holes]. rewrite fmap_app, Forall_app. split; [|apply IH].
  destruct (hole_value ch); simpl; by repeat constructor.
Qed.

(** The inner loop, from column [c] on. *)
Lemma scan_row_built (hs : list ((Z * Z) * Z)) (g : globals) (r c : Z) (chs : list ascii) :
  built hs g → Forall (λ p, before p (r, c)) hs.*1 → 0 ≤ r → 0 ≤ c →
  match foldl (λ acc '(c, ch), g ← acc; scan_cell r c ch g) (Some g) (enumerate_from c chs) with
  | Some g' => built (hs ++ row_holes r c chs) g'
  | None => ¬ Forall fits (row_holes r c chs).*1
  end.
Proof.
  revert hs g c. induction chs as [|ch chs IH]; intros hs g c Hb Hbefore Hr Hc.
  - simpl. by rewrite app_nil_r.
  - cbn [enumerate_from foldl row_holes]. rewrite bind_Some_l.
    destruct (scan_cell r c ch g) as [g1|] eqn:Hscan.
    + pose proof (scan_cell_built hs g g1 r c ch Hb Hbefore Hr Hc Hscan) as Hb1.
      assert (Forall (λ p, before p (r, c + 1))
                (hs ++ option_list ((λ v, ((r, c), v)) <$> hole_value ch)).*1) as Hbefore1.
      { rewrite fmap_app, Forall_app. split.
        - eapply Forall_impl; [done|]. intros p. unfold before. simpl. lia.
        - destruct (hole_value ch); simpl; [|constructor].
          apply Forall_cons. split; [|constructor]. unfold before. simpl. lia. }
      specialize (IH _ g1 (c + 1) Hb1 Hbefore1 Hr ltac:(lia)).
      match goal with |- context [foldl ?f ?a ?l] => destruct (foldl f a l) end.
      * by rewrite app_assoc.
      * intros HF. apply IH. rewrite fmap_app, Forall_app in HF. tauto.
    + rewrite scan_cells_raised. intros HF.
      rewrite fmap_app, Forall_app in HF. destruct HF as [HF _].
      destruct (hole_value ch) as [v|] eqn:Hv.
      * simpl in HF. apply Forall_cons in HF as [[Hr' Hc'] _].
        unfold ROWS, COLS in *. simpl in *.
        destruct (scan_cell_on_board hs g r c ch Hb) as [? ?]; [lia|lia|congruence].
      * by rewrite scan_cell_skip in Hscan.
Qed.

(** The outer loop, from row [r] on. *)
Lemma scan_rows_built (hs : list ((Z * Z) * Z)) (g : globals) (r : Z) (rows : list string) :
  built hs g → Forall (λ p, before p (r, 0)) hs.*1 → 0 ≤ r →
  match foldl (λ acc '(r, row), g ← acc; scan_row r row g) (Some g) (enumerate_from r rows) with
  | Some g' => built (hs ++ rows_holes r rows) g'
  | None => ¬ Forall fits (rows_holes r rows).*1
  end.
Proof.
  revert hs g r. induction rows as [|row rows IH]; intros hs g r Hb Hbefore Hr.
  - simpl. by rewrite app_nil_r.
  - cbn [enumerate_from foldl rows_holes]. rewrite bind_Some_l.
    pose proof (scan_row_built hs g r 0 (list_ascii_of_string row) Hb Hbefore Hr ltac:(lia))
      as Hrow.
    change (foldl _ (Some g) (enumerate_from 0 (list_ascii_of_string row)))
      with (scan_row r row g) in Hrow.
    destruct (scan_row r row g) as [g1|].
    + assert (Forall (λ p, before p (r + 1, 0))
                (hs ++ row_holes r 0 (list_ascii_of_string row)).*1) as Hbefore1.
      { rewrite fmap_app, Forall_app. split.
        - eapply Forall_impl; [done|]. intros p. unfold before. simpl. lia.
        - eapply Forall_impl; [apply row_holes_row|]. intros p. unfold before. simpl. lia. }
      specialize (IH _ g1 (r + 1) Hrow Hbefore1 ltac:(lia)).
      match goal with |- context [foldl ?f ?a ?l] => destruct (foldl f a l) end.
      * by rewrite app_assoc.
      * intros HF. apply IH. rewrite fmap_app, Forall_app in HF. tauto.
    + rewrite scan_rows_raised. intros HF. apply Hrow.
      rewrite fmap_app, Forall_app in HF. tauto.
Qed.

Lemma scan_built (template : list string) :
  match scan template with
  | Some g => built (template_holes template) g
  | None => ¬ Forall fits (template_holes template).*1
  end.
Proof.
  exact (scan_rows_built [] globals0 0 template built_start (Forall_nil_2 _) (Z.le_refl 0)).
Qed.

Lemma enumerate_from_ids_positions {A B} (i : Z) (l : list (A * B)) :
  (λ kx : Z * (A * B), (kx.1, kx.2.1)) <$> enumerate_from i l
  = zip (seqZ i (Z.of_nat (length l))) l.*1.
Proof.
  revert i. induction l as [|[a b] l IH]; intros i; [done|].
  cbn [enumerate_from length]. rewrite !fmap_cons, IH, (seqZ_cons i) by lia.
  by replace (Z.pred (Z.of_nat (S (length l)))) with (Z.of_nat (length l)) by lia.
Qed.

Lemma enumerate_from_positions_ids {A B} (i : Z) (l : list (A * B)) :
  (λ kx : Z * (A * B), (kx.2.1, kx.1)) <$> enumerate_from i l
  = zip l.*1 (seqZ i (Z.of_nat (length l))).
Proof.
  revert i. induction l as [|[a b] l IH]; intros i; [done|].
  cbn [enumerate_from length]. rewrite !fmap_cons, IH, (seqZ_cons i) by lia.
  by replace (Z.pred (Z.of_nat (S (length l)))) with (Z.of_nat (length l)) by lia.
Qed.

Lemma dict_get_NoDup {K V} `{EqDecision K} (d : list (K * V)) (k : K) (v : V) :
  NoDup d.*1 → (k, v) ∈ d → dict_get d k = Some v.
Proof.
  induction d as [|[k0 v0] d IH]; intros Hnd Hin; [by apply elem_of_nil in Hin|].
  rewrite fmap_cons in Hnd. apply NoDup_cons in Hnd as [Hk0 Hnd].
  rewrite dict_get_cons. apply elem_of_cons in Hin as [Heq|Hin].
  - injection Heq as -> ->. by rewrite decide_True.
  - case_decide as Hk; [|by apply IH]. subst k0. destruct Hk0.
    apply list_elem_of_fmap. by exists (k, v).
Qed.

Lemma before_irrefl (p : Z * Z) : ¬ before p p.
Proof. unfold before. lia. Qed.

(** The building loop raises nothing exactly when every hole of the template
    ([x] or [o]) is on the 7x7 board; a hole in a row or a column past the
    seventh makes [board[r][c] = ...] raise [IndexError]. *)
Theorem building_loop_raises_exactly_off_the_board (template : list string) :
  is_Some (scan template) ↔ Forall fits (template_holes template).*1.
Proof.
  pose proof (scan_built template) as H. destruct (scan template) as [g|].
  - split; [intros _; apply H|by eexists].
  - split; [by intros [? ?]|done].
Qed.

(** When the building loop raises nothing, it has numbered the holes of the
    template from 1 in reading order (row by row, left to right), in both
    dictionaries, which are inverse to each other; [idx - 1], the value of
    [NUM_HOLES], is the number of holes; and the board has a peg for [x], an
    empty hole for [o] and -1 everywhere else. *)
Theorem building_loop_numbers_holes_in_reading_order (template : list string) (g : globals) :
  scan template = Some g →
  let hs := template_holes template in
  let ids := seqZ 1 (Z.of_nat (length hs)) in
  StronglySorted before hs.*1 ∧
  g_index_to_pos g = zip ids hs.*1 ∧
  g_pos_to_index g = zip hs.*1 ids ∧
  g_idx g - 1 = Z.of_nat (length hs) ∧
  (∀ i p, dict_get (g_index_to_pos g) i = Some p ↔ dict_get (g_pos_to_index g) p = Some i) ∧
  (∀ r c, 0 ≤ r < ROWS → 0 ≤ c < COLS →
     Grid.cell (g_board g) r c = Some (default (-1) (dict_get hs (r, c)))).
Proof.
  intros Hscan hs ids. pose proof (scan_built template) as H. rewrite Hscan in H.
  destruct H as (_ & Hsorted & Hi2p & Hp2i & Hidx & _ & Hcells). fold hs in Hsorted, Hi2p, Hp2i, Hidx, Hcells.
  split; [done|]. split; [by rewrite Hi2p, enumerate_from_ids_positions|].
  split; [by rewrite Hp2i, enumerate_from_positions_ids|].
  split; [lia|]. split; [|done].
  assert (NoDup (g_index_to_pos g).*1) as Hnd1.
  { rewrite Hi2p, <-list_fmap_compose.
    change (fst ∘ _) with (fst : Z * ((Z * Z) * Z) → Z).
    rewrite enumerate_from_keys. apply NoDup_seqZ. }
  assert (NoDup (g_pos_to_index g).*1) as Hnd2.
  { rewrite Hp2i, <-list_fmap_compose.
    replace ((fst ∘ (λ kx : Z * ((Z * Z) * Z), (kx.2.1, kx.1))) <$> enumerate_from 1 hs)
      with ((enumerate_from 1 hs).*2.*1) by (by rewrite <-list_fmap_compose).
    rewrite enumerate_from_values.
    by apply (StronglySorted_NoDup before), Hsorted; apply before_irrefl. }
  intros i p. split; intros Hget.
  - apply dict_get_NoDup; [done|]. apply dict_get_elem_of in Hget.
    rewrite Hi2p in Hget. rewrite Hp2i.
    apply list_elem_of_fmap in Hget as ([k [q v]] & Heq & Hin). simpl in Heq.
    injection Heq as -> ->. apply list_elem_of_fmap. by exists (k, (q, v)).
  - apply dict_get_NoDup; [done|]. apply dict_get_elem_of in Hget.
    rewrite Hp2i in Hget. rewrite Hi2p.
    apply list_elem_of_fmap in Hget as ([k [q v]] & Heq & Hin). simpl in Heq.
    injection Heq as -> ->. apply list_elem_of_fmap. by exists (k, (q, v)).
Qed.

Lemma building_loop_numbers_holes_in_reading_order_witness :
  scan TEMPLATE = Some the_globals ∧
  StronglySorted before (template_holes TEMPLATE).*1 ∧
  index_to_pos = zip (seqZ 1 33) (template_holes TEMPLATE).*1 ∧
  pos_to_index = zip (template_holes TEMPLATE).*1 (seqZ 1 33) ∧
  NUM_HOLES = 33 ∧
  (∀ i p, dict_get index_to_pos i = Some p ↔ dict_get pos_to_index p = Some i) ∧
  (∀ r c, 0 ≤ r < ROWS → 0 ≤ c < COLS →
     Grid.cell board r c = Some (default (-1) (dict_get (template_holes TEMPLATE) (r, c)))).
Proof.
  split; [reflexivity|].
  exact (building_loop_numbers_holes_in_reading_order TEMPLATE the_globals eq_refl).
Defined.


(** ** What [soloT.py] shows *)

Lemma state_cons_inv {V} (st : list (Z * V)) (k : Z) (ks : list Z) :
  st.*1 = k :: ks → ∃ v st', st = (k, v) :: st' ∧ st'.*1 = ks.
Proof. destruct st as [|[k' v] st']; [done|]. simpl. intros [= -> <-]. by eexists _, _. Qed.

Lemma peg_glyph_char (occupied : bool) :
  (if occupied then "X " else ". ")%string
  = String (if occupied then "X" else ".")%char " ".
Proof. by destruct occupied. Qed.

Lemma peg_char_inj (b b' : bool) :
  (if b then "X" else ".")%char = (if b' then "X" else ".")%char → b = b'.
Proof. by destruct b, b'. Qed.

Ltac state_cells H :=
  unfold well_formed_state in H;
  let ids := eval vm_compute in (index_to_pos.*1) in
  change (index_to_pos.*1) with ids in H;
  repeat (apply state_cons_inv in H as (? & ? & -> & H));
  apply fmap_nil_inv in H as ->.

Ltac each_hole Hi :=
  apply dict_get_elem_of in Hi; unfold index_to_pos in Hi;
  repeat (apply elem_of_cons in Hi as [[= -> -> ->]|Hi]);
  [..|by apply elem_of_nil in Hi].

(** [render] of [soloT.py] shows the whole state.  On a well-formed state it
    raises nothing and gives seven lines; the hole at row [r] and column [c]
    of the board stands on line [r], at column [2 c]: with [X] for a peg and
    [.] for none in the plain picture, and with its two-digit id in the
    numbered one.  So two well-formed states with the same plain picture are
    the same state. *)
Theorem soloT_render_shows_the_whole_state (st st' : list (Z * bool)) :
  well_formed_state st → well_formed_state st' →
  (∃ lines,
     SoloT.render false st = Some (String.concat newline lines) ∧
     length lines = 7%nat ∧
     ∀ i r c occupied,
       dict_get index_to_pos i = Some (r, c) → dict_get st i = Some occupied →
       ∃ line, lines !! Z.to_nat r = Some line ∧
               String.substring (Z.to_nat (2 * c)) 2 line
               = (if occupied then "X " else ". ")%string) ∧
  (SoloT.render false st = SoloT.render false st' → st = st') ∧
  (∃ lines,
     SoloT.render true st = Some (String.concat newline lines) ∧
     length lines = 7%nat ∧
     ∀ i r c, dict_get index_to_pos i = Some (r, c) →
       ∃ line, lines !! Z.to_nat r = Some line ∧
               String.substring (Z.to_nat (2 * c)) 2 line = format_02d i).
Proof.
  intros Hst Hst'. state_cells Hst. state_cells Hst'. split; [|split].
  - unfold SoloT.render.
    destruct (mapM _ (enumerate TEMPLATE)) as [lines|] eqn:Hl;
      vm_compute in Hl; rewrite !peg_glyph_char in Hl; vm_compute in Hl; [|done].
    injection Hl as <-. eexists. split; [reflexivity|]. split; [reflexivity|].
    intros i r c occupied Hi Hocc.
    each_hole Hi; vm_compute in Hocc; injection Hocc as <-;
      (eexists; split; [reflexivity|]; by rewrite peg_glyph_char).
  - intros H. vm_compute in H. rewrite !peg_glyph_char in H. vm_compute in H.
    injection H. intros.
    repeat match goal with
           | H : (if _ then _ else _) = (if _ then _ else _) |- _ =>
               apply peg_char_inj in H
           end.
    by subst.
  - unfold SoloT.render.
    destruct (mapM _ (enumerate TEMPLATE)) as [lines|] eqn:Hl; vm_compute in Hl; [|done].
    injection Hl as <-. eexists. split; [reflexivity|]. split; [reflexivity|].
    intros i r c Hi. each_hole Hi; (eexists; split; reflexivity).
Qed.

Lemma soloT_render_shows_the_whole_state_witness :
  (well_formed_state SoloT.state ∧ well_formed_state (state_of_board board_after_three)) ∧
  (∃ lines,
     SoloT.render false SoloT.state = Some (String.concat newline lines) ∧
     length lines = 7%nat ∧
     ∀ i r c occupied,
       dict_get index_to_pos i = Some (r, c) → dict_get SoloT.state i = Some occupied →
       ∃ line, lines !! Z.to_nat r = Some line ∧
               String.substring (Z.to_nat (2 * c)) 2 line
               = (if occupied then "X " else ". ")%string) ∧
  (SoloT.render false SoloT.state = SoloT.render false (state_of_board board_after_three) →
   SoloT.state = state_of_board board_after_three) ∧
  (∃ lines,
     SoloT.render true SoloT.state = Some (String.concat newline lines) ∧
     length lines = 7%nat ∧
     ∀ i r c, dict_get index_to_pos i = Some (r, c) →
       ∃ line, lines !! Z.to_nat r = Some line ∧
               String.substring (Z.to_nat (2 * c)) 2 line = format_02d i).
Proof.
  split; [split; reflexivity|].
  apply (soloT_render_shows_the_whole_state SoloT.state (state_of_board board_after_three));
    reflexivity.
Defined.

(** [list_moves] raises nothing on a well-formed board. *)
Lemma list_moves_total (b : grid) : well_formed b = true → is_Some (Grid.list_moves b).
Proof.
  intros Hwf.
  assert (NoDup (jumps b)) as Hnd.
  { apply (StronglySorted_NoDup from_direction_order);
      [apply from_direction_order_irrefl|apply jumps_sorted]. }
  unfold Grid.list_moves. rewrite legal_moves_jumps, bind_Some_l by done.
  set (lm := jumps b) in *.
  destruct (setdefault_append_fold lm [] (NoDup_nil_2)) as [Hkeys Hget].
  set (by_from := foldl Grid.setdefault_append [] lm) in *.
  case_bool_decide as Hlm; [by eexists|]. cbv zeta.
  apply mapM_is_Some, Forall_forall. intros f Hf.
  apply (proj1 (elem_of_sorted _ _)) in Hf.
  apply dict_get_is_Some_keys in Hf as [tos Htos]. unfold compose. rewrite Htos, bind_Some_l. by eexists.
Qed.

(** [list_moves] of [soloT.py] prints what [list_moves] of [soloT2.py]
    prints: on the state that shows a well-formed board it raises nothing and
    gives the same lines as [list_moves] over the board. *)
Theorem soloT_list_moves_prints_the_lines_of_soloT2 (b : grid) :
  well_formed b = true →
  ∃ lines, SoloT.list_moves (state_of_board b) = Some lines ∧
           Grid.list_moves b = Some lines.
Proof.
  intros Hwf. destruct (list_moves_total b Hwf) as [lines Hlines].
  exists lines. split; [|done]. rewrite <-Hlines.
  unfold SoloT.list_moves, Grid.list_moves. by rewrite soloT_legal_moves_board.
Qed.

Lemma soloT_list_moves_prints_the_lines_of_soloT2_witness :
  well_formed board_after_three = true ∧
  ∃ lines, SoloT.list_moves (state_of_board board_after_three) = Some lines ∧
           Grid.list_moves board_after_three = Some lines.
Proof.
  split; [reflexivity|].
  apply (soloT_list_moves_prints_the_lines_of_soloT2 board_after_three). reflexivity.
Defined.
